(** * Cooperative synchronisation primitives of async-ts

  The four classes of the package ([Mutex], [MutexRW], [Latch],
  [PromiseBarrier]) are built from native promises only.  Their behaviour
  is decided by the order in which promise reactions reach the microtask
  queue, so the development starts with a model of that part of the host:
  a store of promises, each pending with its list of reactions or settled,
  and the first-in first-out queue of jobs.  Each class is then embedded
  as state transformers over that store, one per method and one per
  continuation of an [await] or callback of a [then]. *)

From stdpp Require Import base tactics option list relations numbers.
From Stdlib Require Import ZArith Lia.

#[local] Set Warnings "-clear-no-such-hyp".

(** Markers for facts already derived in a forward-chaining proof. *)
Definition used {A : Type} (x : A) : Prop := True.
Definition seen (P : Prop) : Prop := True.

(** ** Promises and the microtask queue *)

Section runtime.
Context {K T V : Type}.

(** [K] is the type of jobs (the code to run when a reaction fires), [T] a
    label recording which [new Promise] or [then] of the source made the
    promise, [V] the type of fulfilment values. *)

Inductive outcome := Ok (v : V) | Err.

(** A pending promise holds its reactions in registration order.  The
    counter is used by the aggregates [Promise.all] and
    [Promise.allSettled] only: it is their number of elements that have
    not reported yet. *)
Inductive pstate :=
  | Pending (rs : list K) (n : nat)
  | Settled (o : outcome).

Record cell := Cell { tag : T; st : pstate }.

Record heap := Heap { cells : list cell; queue : list K }.

(** [new Promise(...)], [Promise.resolve()]: the new promise is the next
    index of the store, [size h]. *)
Definition size (h : heap) : nat := length (cells h).
Definition alloc (tg : T) (c : pstate) (h : heap) : heap :=
  Heap (cells h ++ [Cell tg c]) (queue h).

(** Calling a promise's resolver (or rejecter): the first call settles the
    promise and moves its reactions, in order, to the back of the queue;
    later calls do nothing. *)
Definition settle (p : nat) (o : outcome) (h : heap) : heap :=
  match cells h !! p with
  | Some (Cell tg (Pending rs _)) =>
      Heap (<[p := Cell tg (Settled o)]> (cells h)) (queue h ++ rs)
  | _ => h
  end.

(** [p.then(k)] and [await p] for a native promise [p]: the reaction is
    stored while [p] is pending and queued at once when [p] is settled. *)
Definition then_ (p : nat) (k : K) (h : heap) : heap :=
  match cells h !! p with
  | Some (Cell tg (Pending rs n)) =>
      Heap (<[p := Cell tg (Pending (rs ++ [k]) n)]> (cells h)) (queue h)
  | Some (Cell _ (Settled _)) => Heap (cells h) (queue h ++ [k])
  | None => h
  end.

(** One element of an aggregate reports: the counter goes down, and the
    aggregate is fulfilled when it reaches zero. *)
Definition element_done (a : nat) (v : V) (h : heap) : heap :=
  match cells h !! a with
  | Some (Cell tg (Pending rs (S n))) =>
      match n with
      | 0 => settle a (Ok v) h
      | S _ => Heap (<[a := Cell tg (Pending rs n)]> (cells h)) (queue h)
      end
  | _ => h
  end.

(** The host's queue: a job is appended at the back, and the loop takes
    the job at the front. *)
Definition enqueue (k : K) (h : heap) : heap := Heap (cells h) (queue h ++ [k]).
Definition set_queue (q : list K) (h : heap) : heap := Heap (cells h) q.

(** *** Observations on a store *)

Definition pending (h : heap) (p : nat) : Prop :=
  ∃ tg rs n, cells h !! p = Some (Cell tg (Pending rs n)).
Definition settled (h : heap) (p : nat) : Prop :=
  ∃ tg o, cells h !! p = Some (Cell tg (Settled o)).
Definition fulfilled (h : heap) (p : nat) (v : V) : Prop :=
  ∃ tg, cells h !! p = Some (Cell tg (Settled (Ok v))).
Definition rejected (h : heap) (p : nat) : Prop :=
  ∃ tg, cells h !! p = Some (Cell tg (Settled Err)).
Definition tagged (h : heap) (p : nat) (tg : T) : Prop :=
  ∃ c, cells h !! p = Some (Cell tg c).
Definition reacts (h : heap) (p : nat) (k : K) : Prop :=
  ∃ tg rs n, cells h !! p = Some (Cell tg (Pending rs n)) ∧ k ∈ rs.
Definition remaining (h : heap) (p : nat) (m : nat) : Prop :=
  ∃ tg rs, cells h !! p = Some (Cell tg (Pending rs m)).
Definition tag_of (h : heap) (p : nat) : option T := tag <$> cells h !! p.
Definition inflight (h : heap) (k : K) : Prop :=
  k ∈ queue h ∨ ∃ p, reacts h p k.

Lemma pending_lt h p : pending h p → p < size h.
Proof. intros (?&?&?&H). by apply lookup_lt_Some in H. Qed.
Lemma settled_lt h p : settled h p → p < size h.
Proof. intros (?&?&H). by apply lookup_lt_Some in H. Qed.
Lemma tagged_lt h p tg : tagged h p tg → p < size h.
Proof. intros (?&H). by apply lookup_lt_Some in H. Qed.
Lemma reacts_pending h p k : reacts h p k → pending h p.
Proof. intros (?&?&?&H&_). red; eauto. Qed.
Lemma fulfilled_settled h p v : fulfilled h p v → settled h p.
Proof. intros (?&H). red; eauto. Qed.
Lemma rejected_settled h p : rejected h p → settled h p.
Proof. intros (?&H). red; eauto. Qed.
Lemma pending_not_settled h p : pending h p → settled h p → False.
Proof. intros (?&?&?&H) (?&?&H'). congruence. Qed.
Lemma pending_or_settled h p : p < size h → pending h p ∨ settled h p.
Proof.
  intros Hlt. apply lookup_lt_is_Some in Hlt as [[tg [rs n|o]] H].
  - left; red; eauto.
  - right; red; eauto.
Qed.
Lemma tag_of_tagged h p t : tag_of h p = Some t ↔ tagged h p t.
Proof.
  unfold tag_of, tagged. destruct (cells h !! p) as [[t' c]|]; simpl.
  - split; [intros [= ->]; eauto|intros (?&[= -> _]); done].
  - split; [done|intros (?&?); done].
Qed.
Lemma fulfilled_inj h p v1 v2 : fulfilled h p v1 → fulfilled h p v2 → v1 = v2.
Proof. intros (?&H1) (?&H2). congruence. Qed.
Lemma tagged_inj h p t1 t2 : tagged h p t1 → tagged h p t2 → t1 = t2.
Proof. intros (?&H1) (?&H2). congruence. Qed.

(** *** The store after [alloc] *)

Lemma alloc_size tg c h : size (alloc tg c h) = S (size h).
Proof. unfold size; simpl. rewrite length_app; simpl; lia. Qed.
Lemma alloc_queue tg c h : queue (alloc tg c h) = queue h.
Proof. done. Qed.
Lemma alloc_lookup tg c h p :
  cells (alloc tg c h) !! p =
    if decide (p = size h) then Some (Cell tg c) else cells h !! p.
Proof.
  unfold size; simpl. case_decide as E.
  - subst. rewrite lookup_app_r by lia. by rewrite Nat.sub_diag.
  - destruct (decide (p < length (cells h))).
    + by rewrite lookup_app_l.
    + rewrite !lookup_ge_None_2; [done|lia|rewrite length_app; simpl; lia].
Qed.
Lemma alloc_lookup_old tg c h p :
  p < size h → cells (alloc tg c h) !! p = cells h !! p.
Proof. intros. rewrite alloc_lookup. case_decide; [lia|done]. Qed.
Lemma alloc_lookup_new tg c h :
  cells (alloc tg c h) !! size h = Some (Cell tg c).
Proof. rewrite alloc_lookup. by case_decide. Qed.

Lemma alloc_pending tg c h p :
  pending (alloc tg c h) p ↔
    pending h p ∨ (p = size h ∧ ∃ rs n, c = Pending rs n).
Proof.
  unfold pending. rewrite alloc_lookup. case_decide as E.
  - split.
    + intros (?&?&?&[= -> ->]). right. eauto.
    + intros [(?&?&?&H)|[_ (rs&n&->)]]; [|eauto].
      apply lookup_lt_Some in H. unfold size in E. lia.
  - split; [eauto|]. intros [?|[? _]]; done.
Qed.
Lemma alloc_settled tg c h p :
  settled (alloc tg c h) p ↔
    settled h p ∨ (p = size h ∧ ∃ o, c = Settled o).
Proof.
  unfold settled. rewrite alloc_lookup. case_decide as E.
  - split.
    + intros (?&?&[= -> ->]). right. eauto.
    + intros [(?&?&H)|[_ (o&->)]]; [|eauto].
      apply lookup_lt_Some in H. unfold size in E. lia.
  - split; [eauto|]. intros [?|[? _]]; done.
Qed.
Lemma alloc_fulfilled tg c h p v :
  fulfilled (alloc tg c h) p v ↔
    fulfilled h p v ∨ (p = size h ∧ c = Settled (Ok v)).
Proof.
  unfold fulfilled. rewrite alloc_lookup. case_decide as E.
  - split.
    + intros (?&[= -> ->]). by right.
    + intros [(?&H)|[_ ->]]; [|eauto].
      apply lookup_lt_Some in H. unfold size in E. lia.
  - split; [eauto|]. intros [?|[? _]]; done.
Qed.
Lemma alloc_rejected tg c h p :
  rejected (alloc tg c h) p ↔
    rejected h p ∨ (p = size h ∧ c = Settled Err).
Proof.
  unfold rejected. rewrite alloc_lookup. case_decide as E.
  - split.
    + intros (?&[= -> ->]). by right.
    + intros [(?&H)|[_ ->]]; [|eauto].
      apply lookup_lt_Some in H. unfold size in E. lia.
  - split; [eauto|]. intros [?|[? _]]; done.
Qed.
Lemma alloc_tagged tg c h p t :
  tagged (alloc tg c h) p t ↔ tagged h p t ∨ (p = size h ∧ t = tg).
Proof.
  unfold tagged. rewrite alloc_lookup. case_decide as E.
  - split.
    + intros (?&[= -> ->]). by right.
    + intros [(?&H)|[_ ->]]; [|eauto].
      apply lookup_lt_Some in H. unfold size in E. lia.
  - split; [eauto|]. intros [?|[? _]]; done.
Qed.
Lemma alloc_reacts tg c h p k :
  reacts (alloc tg c h) p k ↔
    reacts h p k ∨ (p = size h ∧ ∃ rs n, c = Pending rs n ∧ k ∈ rs).
Proof.
  unfold reacts. rewrite alloc_lookup. case_decide as E.
  - split.
    + intros (?&?&?&[= -> ->]&?). right. eauto.
    + intros [(?&?&?&H&_)|[_ (rs&n&->&?)]]; [|eauto 6].
      apply lookup_lt_Some in H. unfold size in E. lia.
  - split; [eauto|]. intros [?|[? _]]; done.
Qed.
Lemma alloc_remaining tg c h p m :
  remaining (alloc tg c h) p m ↔
    remaining h p m ∨ (p = size h ∧ ∃ rs, c = Pending rs m).
Proof.
  unfold remaining. rewrite alloc_lookup. case_decide as E.
  - split.
    + intros (?&?&[= -> ->]). right. eauto.
    + intros [(?&?&H)|[_ (rs&->)]]; [|eauto].
      apply lookup_lt_Some in H. unfold size in E. lia.
  - split; [eauto|]. intros [?|[? _]]; done.
Qed.

(** *** The store after [settle] *)

Lemma settle_size p o h : size (settle p o h) = size h.
Proof.
  unfold settle, size. destruct (cells h !! p) as [[? []]|]; simpl; auto.
  by rewrite length_insert.
Qed.
Lemma settle_lookup_ne p o h q :
  q ≠ p → cells (settle p o h) !! q = cells h !! q.
Proof.
  intros. unfold settle. destruct (cells h !! p) as [[? []]|]; simpl; auto.
  by rewrite list_lookup_insert_ne.
Qed.
Lemma settle_not_pending p o h : ¬ pending h p → settle p o h = h.
Proof.
  intros N. unfold settle.
  destruct (cells h !! p) as [[? []]|] eqn:E; auto.
  destruct N. red; eauto.
Qed.
Lemma settle_lookup_eq p o h tg rs n :
  cells h !! p = Some (Cell tg (Pending rs n)) →
  cells (settle p o h) !! p = Some (Cell tg (Settled o)).
Proof.
  intros E. unfold settle. rewrite E; simpl.
  apply list_lookup_insert_eq. by apply lookup_lt_Some in E.
Qed.
Lemma settle_pending p o h q :
  pending (settle p o h) q ↔ pending h q ∧ q ≠ p.
Proof.
  destruct (decide (q = p)) as [->|N].
  - split; [|intros [_ ?]; done].
    intros Hp. exfalso. destruct (cells h !! p) as [[tg [rs n|o']]|] eqn:E.
    + destruct Hp as (?&?&?&Hp).
      erewrite settle_lookup_eq in Hp by eauto. done.
    + rewrite settle_not_pending in Hp.
      * destruct Hp as (?&?&?&Hp). congruence.
      * intros (?&?&?&?). congruence.
    + rewrite settle_not_pending in Hp.
      * destruct Hp as (?&?&?&Hp). congruence.
      * intros (?&?&?&?). congruence.
  - unfold pending. rewrite settle_lookup_ne by done. naive_solver.
Qed.
Lemma settle_settled p o h q :
  settled (settle p o h) q ↔ settled h q ∨ (q = p ∧ pending h p).
Proof.
  destruct (decide (q = p)) as [->|N].
  - destruct (cells h !! p) as [[tg [rs n|o']]|] eqn:E.
    + split.
      * intros _. right. split; [done|]. red; eauto.
      * intros _. red. erewrite settle_lookup_eq by eauto. eauto.
    + rewrite settle_not_pending by (intros (?&?&?&?); congruence).
      split; [auto|]. intros [?|[_ (?&?&?&?)]]; [done|congruence].
    + rewrite settle_not_pending by (intros (?&?&?&?); congruence).
      split; [auto|]. intros [?|[_ (?&?&?&?)]]; [done|congruence].
  - unfold settled. rewrite settle_lookup_ne by done. naive_solver.
Qed.
Lemma settle_fulfilled p o h q v :
  fulfilled (settle p o h) q v ↔
    fulfilled h q v ∨ (q = p ∧ pending h p ∧ o = Ok v).
Proof.
  destruct (decide (q = p)) as [->|N].
  - destruct (cells h !! p) as [[tg [rs n|o']]|] eqn:E.
    + unfold fulfilled at 1. erewrite settle_lookup_eq by eauto. split.
      * intros (?&[= <- <-]). right. repeat split; [red; eauto].
      * intros [(?&?)|(_&_&->)]; [congruence|eauto].
    + rewrite settle_not_pending by (intros (?&?&?&?); congruence).
      split; [auto|]. intros [?|(_&(?&?&?&?)&_)]; [done|congruence].
    + rewrite settle_not_pending by (intros (?&?&?&?); congruence).
      split; [auto|]. intros [?|(_&(?&?&?&?)&_)]; [done|congruence].
  - unfold fulfilled. rewrite settle_lookup_ne by done. naive_solver.
Qed.
Lemma settle_rejected p o h q :
  rejected (settle p o h) q ↔
    rejected h q ∨ (q = p ∧ pending h p ∧ o = Err).
Proof.
  destruct (decide (q = p)) as [->|N].
  - destruct (cells h !! p) as [[tg [rs n|o']]|] eqn:E.
    + unfold rejected at 1. erewrite settle_lookup_eq by eauto. split.
      * intros (?&[= <- <-]). right. repeat split; [red; eauto].
      * intros [(?&?)|(_&_&->)]; [congruence|eauto].
    + rewrite settle_not_pending by (intros (?&?&?&?); congruence).
      split; [auto|]. intros [?|(_&(?&?&?&?)&_)]; [done|congruence].
    + rewrite settle_not_pending by (intros (?&?&?&?); congruence).
      split; [auto|]. intros [?|(_&(?&?&?&?)&_)]; [done|congruence].
  - unfold rejected. rewrite settle_lookup_ne by done. naive_solver.
Qed.
Lemma settle_tagged p o h q t : tagged (settle p o h) q t ↔ tagged h q t.
Proof.
  destruct (decide (q = p)) as [->|N].
  - destruct (cells h !! p) as [[tg [rs n|o']]|] eqn:E.
    + unfold tagged. erewrite settle_lookup_eq by eauto. rewrite E.
      naive_solver.
    + by rewrite settle_not_pending by (intros (?&?&?&?); congruence).
    + by rewrite settle_not_pending by (intros (?&?&?&?); congruence).
  - unfold tagged. by rewrite settle_lookup_ne.
Qed.
Lemma settle_reacts p o h q k :
  reacts (settle p o h) q k ↔ reacts h q k ∧ q ≠ p.
Proof.
  destruct (decide (q = p)) as [->|N].
  - split; [|intros [_ ?]; done]. intros Hr. exfalso.
    apply reacts_pending, settle_pending in Hr. naive_solver.
  - unfold reacts. rewrite settle_lookup_ne by done. naive_solver.
Qed.
Lemma settle_remaining p o h q m :
  remaining (settle p o h) q m ↔ remaining h q m ∧ q ≠ p.
Proof.
  destruct (decide (q = p)) as [->|N].
  - split; [|intros [_ ?]; done]. intros (?&?&Hr). exfalso.
    assert (pending (settle p o h) p) as Hp by (red; eauto).
    apply settle_pending in Hp. naive_solver.
  - unfold remaining. rewrite settle_lookup_ne by done. naive_solver.
Qed.
Lemma settle_queue p o h k :
  k ∈ queue (settle p o h) ↔ k ∈ queue h ∨ reacts h p k.
Proof.
  unfold settle, reacts.
  destruct (cells h !! p) as [[tg [rs n|o']]|] eqn:E; simpl.
  - rewrite elem_of_app. naive_solver.
  - naive_solver.
  - naive_solver.
Qed.
Lemma settle_queue_prefix p o h : ∃ rs, queue (settle p o h) = queue h ++ rs.
Proof.
  unfold settle. destruct (cells h !! p) as [[tg [rs n|o']]|]; simpl; eauto.
  all: exists []; by rewrite app_nil_r.
Qed.

(** *** The store after [then_] *)

Lemma then_size p k h : size (then_ p k h) = size h.
Proof.
  unfold then_, size. destruct (cells h !! p) as [[? []]|]; simpl; auto.
  by rewrite length_insert.
Qed.
Lemma then_lookup_ne p k h q :
  q ≠ p → cells (then_ p k h) !! q = cells h !! q.
Proof.
  intros. unfold then_. destruct (cells h !! p) as [[? []]|]; simpl; auto.
  by rewrite list_lookup_insert_ne.
Qed.
Lemma then_lookup_pending p k h tg rs n :
  cells h !! p = Some (Cell tg (Pending rs n)) →
  cells (then_ p k h) !! p = Some (Cell tg (Pending (rs ++ [k]) n)).
Proof.
  intros E. unfold then_. rewrite E; simpl.
  apply list_lookup_insert_eq. by apply lookup_lt_Some in E.
Qed.
Lemma then_cells_settled p k h :
  ¬ pending h p → cells (then_ p k h) = cells h.
Proof.
  intros N. unfold then_. destruct (cells h !! p) as [[? []]|] eqn:E; auto.
  destruct N; red; eauto.
Qed.
Lemma then_pending p k h q : pending (then_ p k h) q ↔ pending h q.
Proof.
  destruct (decide (q = p)) as [->|N].
  - destruct (cells h !! p) as [[tg [rs n|o']]|] eqn:E.
    + unfold pending. erewrite then_lookup_pending by eauto. rewrite E.
      naive_solver.
    + unfold pending. rewrite then_cells_settled; [done|].
      intros (?&?&?&?); congruence.
    + unfold pending. rewrite then_cells_settled; [done|].
      intros (?&?&?&?); congruence.
  - unfold pending. by rewrite then_lookup_ne.
Qed.
Lemma then_settled p k h q : settled (then_ p k h) q ↔ settled h q.
Proof.
  destruct (decide (q = p)) as [->|N].
  - destruct (cells h !! p) as [[tg [rs n|o']]|] eqn:E.
    + unfold settled. erewrite then_lookup_pending by eauto. rewrite E.
      naive_solver.
    + unfold settled. rewrite then_cells_settled; [done|].
      intros (?&?&?&?); congruence.
    + unfold settled. rewrite then_cells_settled; [done|].
      intros (?&?&?&?); congruence.
  - unfold settled. by rewrite then_lookup_ne.
Qed.
Lemma then_fulfilled p k h q v :
  fulfilled (then_ p k h) q v ↔ fulfilled h q v.
Proof.
  destruct (decide (q = p)) as [->|N].
  - destruct (cells h !! p) as [[tg [rs n|o']]|] eqn:E.
    + unfold fulfilled. erewrite then_lookup_pending by eauto. rewrite E.
      naive_solver.
    + unfold fulfilled. rewrite then_cells_settled; [done|].
      intros (?&?&?&?); congruence.
    + unfold fulfilled. rewrite then_cells_settled; [done|].
      intros (?&?&?&?); congruence.
  - unfold fulfilled. by rewrite then_lookup_ne.
Qed.
Lemma then_rejected p k h q : rejected (then_ p k h) q ↔ rejected h q.
Proof.
  destruct (decide (q = p)) as [->|N].
  - destruct (cells h !! p) as [[tg [rs n|o']]|] eqn:E.
    + unfold rejected. erewrite then_lookup_pending by eauto. rewrite E.
      naive_solver.
    + unfold rejected. rewrite then_cells_settled; [done|].
      intros (?&?&?&?); congruence.
    + unfold rejected. rewrite then_cells_settled; [done|].
      intros (?&?&?&?); congruence.
  - unfold rejected. by rewrite then_lookup_ne.
Qed.
Lemma then_tagged p k h q t : tagged (then_ p k h) q t ↔ tagged h q t.
Proof.
  destruct (decide (q = p)) as [->|N].
  - destruct (cells h !! p) as [[tg [rs n|o']]|] eqn:E.
    + unfold tagged. erewrite then_lookup_pending by eauto. rewrite E.
      naive_solver.
    + unfold tagged. rewrite then_cells_settled; [done|].
      intros (?&?&?&?); congruence.
    + unfold tagged. rewrite then_cells_settled; [done|].
      intros (?&?&?&?); congruence.
  - unfold tagged. by rewrite then_lookup_ne.
Qed.
Lemma then_remaining p k h q m :
  remaining (then_ p k h) q m ↔ remaining h q m.
Proof.
  destruct (decide (q = p)) as [->|N].
  - destruct (cells h !! p) as [[tg [rs n|o']]|] eqn:E.
    + unfold remaining. erewrite then_lookup_pending by eauto. rewrite E.
      naive_solver.
    + unfold remaining. rewrite then_cells_settled; [done|].
      intros (?&?&?&?); congruence.
    + unfold remaining. rewrite then_cells_settled; [done|].
      intros (?&?&?&?); congruence.
  - unfold remaining. by rewrite then_lookup_ne.
Qed.
Lemma then_reacts p k h q j :
  reacts (then_ p k h) q j ↔ reacts h q j ∨ (q = p ∧ j = k ∧ pending h p).
Proof.
  destruct (decide (q = p)) as [->|N].
  - destruct (cells h !! p) as [[tg [rs n|o']]|] eqn:E.
    + unfold reacts, pending. erewrite then_lookup_pending by eauto.
      rewrite E. split.
      * intros (?&?&?&[= <- <- <-]&Hj).
        apply elem_of_app in Hj as [?|Hj]; [left; eauto 6|].
        apply list_elem_of_singleton in Hj. right; eauto 6.
      * intros [(?&?&?&[= <- <- <-]&?)|(_&->&_)].
        -- do 3 eexists; split; [done|]. apply elem_of_app; auto.
        -- do 3 eexists; split; [done|]. apply elem_of_app; right.
           by apply list_elem_of_singleton.
    + unfold reacts, pending. rewrite then_cells_settled.
      * rewrite E. naive_solver.
      * intros (?&?&?&?); congruence.
    + unfold reacts, pending. rewrite then_cells_settled.
      * rewrite E. naive_solver.
      * intros (?&?&?&?); congruence.
  - unfold reacts. rewrite then_lookup_ne by done. naive_solver.
Qed.
Lemma then_queue p k h j :
  j ∈ queue (then_ p k h) ↔ j ∈ queue h ∨ (j = k ∧ settled h p).
Proof.
  unfold then_, settled.
  destruct (cells h !! p) as [[tg [rs n|o']]|] eqn:E; simpl.
  - naive_solver.
  - rewrite elem_of_app, list_elem_of_singleton. naive_solver.
  - naive_solver.
Qed.
Lemma then_queue_pending p k h : pending h p → queue (then_ p k h) = queue h.
Proof. intros (?&?&?&E). unfold then_. by rewrite E. Qed.
Lemma then_queue_settled p k h :
  settled h p → queue (then_ p k h) = queue h ++ [k].
Proof. intros (?&?&E). unfold then_. by rewrite E. Qed.
Lemma then_inflight p k h : p < size h → inflight (then_ p k h) k.
Proof.
  intros Hlt. destruct (pending_or_settled h p Hlt) as [Hp|Hs].
  - right. exists p. apply then_reacts. auto.
  - left. apply then_queue. auto.
Qed.

(** *** The store after [element_done] *)

Lemma remaining_pending h p m : remaining h p m → pending h p.
Proof. intros (?&?&?). red; eauto. Qed.
Lemma remaining_inj h p m1 m2 : remaining h p m1 → remaining h p m2 → m1 = m2.
Proof. intros (?&?&H1) (?&?&H2). congruence. Qed.
Lemma pending_remaining h p : pending h p → ∃ m, remaining h p m.
Proof. intros (?&?&m&?). exists m. red; eauto. Qed.

Lemma element_done_last a v h :
  remaining h a 1 → element_done a v h = settle a (Ok v) h.
Proof. intros (?&?&E). unfold element_done. by rewrite E. Qed.
Lemma element_done_more a v h m tg rs :
  cells h !! a = Some (Cell tg (Pending rs (S (S m)))) →
  element_done a v h = Heap (<[a := Cell tg (Pending rs (S m))]> (cells h)) (queue h).
Proof. intros E. unfold element_done. by rewrite E. Qed.
Lemma element_done_none a v h :
  (∀ m, ¬ remaining h a (S m)) → element_done a v h = h.
Proof.
  intros N. unfold element_done.
  destruct (cells h !! a) as [[tg [rs [|m]|o]]|] eqn:E; try done.
  destruct (N m). red; eauto.
Qed.

Lemma element_done_cases a v h :
  (remaining h a 1 ∧ element_done a v h = settle a (Ok v) h) ∨
  (¬ remaining h a 1 ∧ queue (element_done a v h) = queue h ∧
   size (element_done a v h) = size h ∧
   ∀ q, (∀ tg, tagged (element_done a v h) q tg ↔ tagged h q tg) ∧
        (pending (element_done a v h) q ↔ pending h q) ∧
        (settled (element_done a v h) q ↔ settled h q) ∧
        (∀ w, fulfilled (element_done a v h) q w ↔ fulfilled h q w) ∧
        (rejected (element_done a v h) q ↔ rejected h q) ∧
        (∀ k, reacts (element_done a v h) q k ↔ reacts h q k) ∧
        (∀ m, remaining (element_done a v h) q m ↔
                (q ≠ a ∧ remaining h q m) ∨
                (q = a ∧ m = 0 ∧ remaining h a 0) ∨
                (q = a ∧ 0 < m ∧ remaining h a (S m)))).
Proof.
  destruct (cells h !! a) as [[tg [rs [|[|m]]|o]]|] eqn:E.
  - right. rewrite element_done_none.
    2:{ intros m (?&?&?). congruence. }
    split; [intros (?&?&?); congruence|]. do 2 (split; [done|]).
    intros q. repeat split; try done.
    + intros Hr. destruct (decide (q = a)) as [->|]; [|by left].
      right. left. destruct Hr as (?&?&Hr). rewrite E in Hr.
      injection Hr as <- <- <-. repeat split; red; eauto.
    + intros [[_ ?]|[(->&->&?)|(->&?&(?&?&?))]]; [done|done|congruence].
  - left. split; [red; eauto|]. apply element_done_last. red; eauto.
  - right. erewrite element_done_more by eauto.
    split; [intros (?&?&?); congruence|]. do 2 (split; [done||by unfold size; simpl; rewrite length_insert|]).
    assert (a < length (cells h)) as Hlt by (by apply lookup_lt_Some in E).
    intros q. destruct (decide (q = a)) as [->|Hne].
    + unfold tagged, pending, settled, fulfilled, rejected, reacts, remaining.
      simpl. rewrite list_lookup_insert_eq by done. rewrite E.
      repeat split; try naive_solver.
      intros (?&?&[= <- <- <-]). right. right. repeat split; [lia|]. eauto.
    + unfold tagged, pending, settled, fulfilled, rejected, reacts, remaining.
      simpl. rewrite list_lookup_insert_ne by done.
      repeat split; try naive_solver.
  - right. rewrite element_done_none.
    2:{ intros m (?&?&?). congruence. }
    split; [intros (?&?&?); congruence|]. do 2 (split; [done|]).
    intros q. repeat split; try done.
    + intros Hr. destruct (decide (q = a)) as [->|]; [|by left].
      destruct Hr as (?&?&Hr). congruence.
    + intros [[_ ?]|[(->&->&(?&?&?))|(->&?&(?&?&?))]]; [done|congruence|congruence].
  - right. rewrite element_done_none.
    2:{ intros m (?&?&?). congruence. }
    split; [intros (?&?&?); congruence|]. do 2 (split; [done|]).
    intros q. repeat split; try done.
    + intros Hr. destruct (decide (q = a)) as [->|]; [|by left].
      destruct Hr as (?&?&Hr). congruence.
    + intros [[_ ?]|[(->&->&(?&?&?))|(->&?&(?&?&?))]]; [done|congruence|congruence].
Qed.

Lemma element_done_tagged a v h q t :
  tagged (element_done a v h) q t ↔ tagged h q t.
Proof.
  destruct (element_done_cases a v h) as [[_ ->]|(_ & _ & _ & H)].
  - apply settle_tagged.
  - apply H.
Qed.
Lemma element_done_size a v h : size (element_done a v h) = size h.
Proof.
  destruct (element_done_cases a v h) as [[_ ->]|(_ & _ & H & _)].
  - apply settle_size.
  - apply H.
Qed.

(** *** Counting the jobs in flight *)

Definition b2n (b : bool) : nat := if b then 1 else 0.

Fixpoint count (P : K → bool) (l : list K) : nat :=
  match l with
  | [] => 0
  | k :: l' => b2n (P k) + count P l'
  end.

Definition reactions_of (c : cell) : list K :=
  match st c with
  | Pending rs _ => rs
  | Settled _ => []
  end.

Fixpoint count_cells (P : K → bool) (l : list cell) : nat :=
  match l with
  | [] => 0
  | c :: l' => count P (reactions_of c) + count_cells P l'
  end.

(** The number of jobs satisfying [P] that are queued or registered. *)
Definition jobcount (P : K → bool) (h : heap) : nat :=
  count P (queue h) + count_cells P (cells h).

Lemma count_app P l1 l2 : count P (l1 ++ l2) = count P l1 + count P l2.
Proof. induction l1 as [|k l1 IH]; simpl; lia. Qed.

Lemma count_cells_app P l1 l2 :
  count_cells P (l1 ++ l2) = count_cells P l1 + count_cells P l2.
Proof. induction l1 as [|k l1 IH]; simpl; lia. Qed.

Lemma count_cells_insert P (l : list cell) i c c' :
  l !! i = Some c →
  count_cells P (<[i := c']> l) + count P (reactions_of c) =
    count_cells P l + count P (reactions_of c').
Proof.
  revert i. induction l as [|x l IH]; intros [|i] E; simplify_eq/=.
  - lia.
  - specialize (IH i E). lia.
Qed.

Lemma count_cells_lookup_le P (l : list cell) i c :
  l !! i = Some c → count P (reactions_of c) ≤ count_cells P l.
Proof.
  revert i. induction l as [|x l IH]; intros [|i] E; simplify_eq/=.
  - lia.
  - specialize (IH i E). lia.
Qed.

Lemma count_pos P l k : k ∈ l → P k = true → 0 < count P l.
Proof.
  induction l as [|x l IH]; intros Hin HP; [by apply elem_of_nil in Hin|].
  apply elem_of_cons in Hin as [->|Hin]; simpl.
  - rewrite HP. simpl. lia.
  - specialize (IH Hin HP). lia.
Qed.

Lemma count_exists P l : 0 < count P l → ∃ k, k ∈ l ∧ P k = true.
Proof.
  induction l as [|x l IH]; simpl; [lia|]. intros H.
  destruct (P x) eqn:E.
  - exists x. split; [apply list_elem_of_here|done].
  - destruct IH as (k & Hin & HP); [simpl in H; lia|].
    exists k. split; [by apply list_elem_of_further|done].
Qed.

Lemma count_cells_exists P (l : list cell) :
  0 < count_cells P l → ∃ i c, l !! i = Some c ∧ 0 < count P (reactions_of c).
Proof.
  induction l as [|x l IH]; simpl; [lia|]. intros H.
  destruct (decide (0 < count P (reactions_of x))) as [Hx|Hx].
  - exists 0, x. done.
  - destruct IH as (i & c & E & Hc); [lia|]. exists (S i), c. done.
Qed.

Lemma jobcount_alloc_empty P tg n h :
  jobcount P (alloc tg (Pending [] n) h) = jobcount P h.
Proof. unfold jobcount, alloc. simpl. rewrite count_cells_app. simpl. lia. Qed.
Lemma jobcount_alloc_settled P tg o h :
  jobcount P (alloc tg (Settled o) h) = jobcount P h.
Proof. unfold jobcount, alloc. simpl. rewrite count_cells_app. simpl. lia. Qed.

Lemma jobcount_settle P p o h : jobcount P (settle p o h) = jobcount P h.
Proof.
  unfold settle. destruct (cells h !! p) as [[tg [rs n|o']]|] eqn:E; try done.
  unfold jobcount. simpl. rewrite count_app.
  pose proof (count_cells_insert P (cells h) p _ (Cell tg (Settled o)) E) as H.
  unfold reactions_of in H. simpl in H. lia.
Qed.

Lemma jobcount_then P p k h :
  p < size h → jobcount P (then_ p k h) = jobcount P h + b2n (P k).
Proof.
  intros Hlt. unfold then_.
  destruct (cells h !! p) as [[tg [rs n|o']]|] eqn:E.
  - unfold jobcount. simpl.
    pose proof (count_cells_insert P (cells h) p _
                  (Cell tg (Pending (rs ++ [k]) n)) E) as H.
    unfold reactions_of in H. simpl in H. rewrite count_app in H.
    simpl in H. lia.
  - unfold jobcount. simpl. rewrite count_app. simpl. lia.
  - apply lookup_ge_None in E. unfold size in Hlt. lia.
Qed.

Lemma jobcount_enqueue P k h :
  jobcount P (enqueue k h) = jobcount P h + b2n (P k).
Proof. unfold jobcount, enqueue. simpl. rewrite count_app. simpl. lia. Qed.

Lemma jobcount_pop P k q h :
  queue h = k :: q → jobcount P h = jobcount P (set_queue q h) + b2n (P k).
Proof. intros E. unfold jobcount, set_queue. simpl. rewrite E. simpl. lia. Qed.

Lemma jobcount_element_done P a v h :
  jobcount P (element_done a v h) = jobcount P h.
Proof.
  unfold element_done.
  destruct (cells h !! a) as [[tg [rs [|[|n]]|o']]|] eqn:E; try done.
  - apply jobcount_settle.
  - unfold jobcount. simpl.
    pose proof (count_cells_insert P (cells h) a _
                  (Cell tg (Pending rs (S n))) E) as H.
    unfold reactions_of in H. simpl in H. lia.
Qed.

Lemma jobcount_pos P h k : inflight h k → P k = true → 0 < jobcount P h.
Proof.
  intros [Hq|[p (tg & rs & n & E & Hin)]] HP; unfold jobcount.
  - pose proof (count_pos P _ k Hq HP). lia.
  - pose proof (count_pos P _ k Hin HP) as H1.
    pose proof (count_cells_lookup_le P (cells h) p _ E) as H2.
    unfold reactions_of in H2. simpl in H2. lia.
Qed.

Lemma jobcount_zero P h k : jobcount P h = 0 → inflight h k → P k = false.
Proof.
  intros H Hin. destruct (P k) eqn:E; [|done].
  pose proof (jobcount_pos P h k Hin E). lia.
Qed.

Lemma jobcount_exists P h : 0 < jobcount P h → ∃ k, inflight h k ∧ P k = true.
Proof.
  unfold jobcount. intros H.
  destruct (decide (0 < count P (queue h))) as [Hq|Hq].
  - destruct (count_exists P _ Hq) as (k & Hin & HP).
    exists k. split; [by left|done].
  - destruct (count_cells_exists P (cells h))
      as (i & [tg [rs n|o]] & E & Hc); [lia| |simpl in Hc; lia].
    unfold reactions_of in Hc. simpl in Hc.
    destruct (count_exists P _ Hc) as (k & Hin & HP).
    exists k. split; [|done]. right. exists i. red. eauto 6.
Qed.

(** With the queue empty the jobs in flight are the registered reactions. *)
Lemma inflight_quiescent h k : queue h = [] → inflight h k → ∃ p, reacts h p k.
Proof. intros E [H|H]; [|done]. rewrite E in H. by apply elem_of_nil in H. Qed.

(** Settling an existing promise and making a new one are independent. *)
Lemma settle_alloc p o tg c h :
  p < size h → settle p o (alloc tg c h) = alloc tg c (settle p o h).
Proof.
  intros Hlt. unfold settle, alloc, size in *; simpl.
  rewrite lookup_app_l by done.
  destruct (cells h !! p) as [[t [rs n|o']]|]; simpl; try done.
  by rewrite insert_app_l.
Qed.

(** *** The store after [enqueue] and [set_queue] *)

Lemma enqueue_cells k h : cells (enqueue k h) = cells h.
Proof. done. Qed.
Lemma enqueue_size k h : size (enqueue k h) = size h.
Proof. done. Qed.
Lemma enqueue_queue k h j : j ∈ queue (enqueue k h) ↔ j ∈ queue h ∨ j = k.
Proof. simpl. by rewrite elem_of_app, list_elem_of_singleton. Qed.
Lemma enqueue_pending k h p : pending (enqueue k h) p ↔ pending h p.
Proof. done. Qed.
Lemma enqueue_settled k h p : settled (enqueue k h) p ↔ settled h p.
Proof. done. Qed.
Lemma enqueue_fulfilled k h p v : fulfilled (enqueue k h) p v ↔ fulfilled h p v.
Proof. done. Qed.
Lemma enqueue_rejected k h p : rejected (enqueue k h) p ↔ rejected h p.
Proof. done. Qed.
Lemma enqueue_tagged k h p t : tagged (enqueue k h) p t ↔ tagged h p t.
Proof. done. Qed.
Lemma enqueue_reacts k h p j : reacts (enqueue k h) p j ↔ reacts h p j.
Proof. done. Qed.
Lemma enqueue_remaining k h p m : remaining (enqueue k h) p m ↔ remaining h p m.
Proof. done. Qed.
Lemma set_queue_size q h : size (set_queue q h) = size h.
Proof. done. Qed.
Lemma set_queue_pending q h p : pending (set_queue q h) p ↔ pending h p.
Proof. done. Qed.
Lemma set_queue_settled q h p : settled (set_queue q h) p ↔ settled h p.
Proof. done. Qed.
Lemma set_queue_fulfilled q h p v : fulfilled (set_queue q h) p v ↔ fulfilled h p v.
Proof. done. Qed.
Lemma set_queue_rejected q h p : rejected (set_queue q h) p ↔ rejected h p.
Proof. done. Qed.
Lemma set_queue_tagged q h p t : tagged (set_queue q h) p t ↔ tagged h p t.
Proof. done. Qed.
Lemma set_queue_reacts q h p j : reacts (set_queue q h) p j ↔ reacts h p j.
Proof. done. Qed.
Lemma set_queue_remaining q h p m : remaining (set_queue q h) p m ↔ remaining h p m.
Proof. done. Qed.

Lemma set_queue_cells q h : cells (set_queue q h) = cells h.
Proof. done. Qed.
Lemma set_queue_queue q h : queue (set_queue q h) = q.
Proof. done. Qed.
End runtime.

Global Arguments alloc : simpl never.
Global Arguments settle : simpl never.
Global Arguments then_ : simpl never.
Global Arguments element_done : simpl never.
Global Arguments enqueue : simpl never.
Global Arguments set_queue : simpl never.
Global Arguments jobcount : simpl never.
Global Arguments size : simpl never.
Global Arguments outcome : clear implicits.
Global Arguments pstate : clear implicits.
Global Arguments cell : clear implicits.
Global Arguments heap : clear implicits.

Create Rewrite HintDb heap.
#[export] Hint Rewrite
@alloc_size @alloc_queue @alloc_pending @alloc_settled @alloc_fulfilled
@alloc_rejected @alloc_tagged @alloc_reacts @alloc_remaining
@settle_size @settle_pending @settle_settled @settle_fulfilled
@settle_rejected @settle_tagged @settle_reacts @settle_remaining
@settle_queue
@then_size @then_pending @then_settled @then_fulfilled @then_rejected
@then_tagged @then_reacts @then_remaining @then_queue
@enqueue_size @enqueue_queue @enqueue_pending @enqueue_settled
@enqueue_fulfilled @enqueue_rejected @enqueue_tagged @enqueue_reacts
@enqueue_remaining
@element_done_tagged @element_done_size
@set_queue_size @set_queue_queue @set_queue_pending @set_queue_settled
@set_queue_fulfilled @set_queue_rejected @set_queue_tagged
@set_queue_reacts @set_queue_remaining : heap.

(** ** Latch (src/src/latch.ts) *)

Module Latch.

(** The jobs of the class: the callback of the [gate] getter and the two
    jobs the host runs when that callback returns a promise, plus the
    continuation of a task that awaits a gate promise. *)
Inductive job :=
  | GateCheck (gate d : nat)
  | Adopt (d x : nat)
  | Forward (d : nat)
  | Waiter (w : nat).

(** [Gate]: a promise made by [close]; [Derived]: a promise returned by
    [gate.then(...)] in the getter. *)
Inductive ptag := Gate | Derived.

#[global] Instance job_eq_dec : EqDecision job.
Proof. solve_decision. Defined.
#[global] Instance ptag_eq_dec : EqDecision ptag.
Proof. solve_decision. Defined.

Record latch := Mk {
  rt : heap job ptag unit;
  m_open : option nat;   (* the promise the stored resolver settles, or null *)
  m_gate : nat;
  m_inUse : Z
}.

Definition upd (f : heap job ptag unit → heap job ptag unit) (s : latch) : latch :=
  Mk (f (rt s)) (m_open s) (m_gate s) (m_inUse s).

(** [get gate()]: [gate.then(() => this.m_gate === gate ? undefined : this.gate)].
    The promise returned by [then] is the new index [size (rt s)]. *)
Definition gate (s : latch) : nat * latch :=
  let gate := m_gate s in
  let d := size (rt s) in
  (d, upd (λ h, then_ gate (GateCheck gate d) (alloc Derived (Pending [] 0) h)) s).

(** [open()] *)
Definition open (s : latch) : latch :=
  match m_open s with
  | None => s
  | Some r => Mk (settle r (Ok ()) (rt s)) None (m_gate s) (m_inUse s)
  end.

(** [close()]: the new gate and its resolver are stored before the old
    resolver is called. *)
Definition close (s : latch) : latch :=
  let open := m_open s in
  let g := size (rt s) in
  let s1 := Mk (alloc Gate (Pending [] 0) (rt s)) (Some g) g (m_inUse s) in
  match open with
  | Some r => upd (settle r (Ok ())) s1
  | None => s1
  end.

(** [new Latch()]: the field initialisers, then [this.close()]. *)
Definition new_latch : latch := close (Mk (Heap [] []) None 0 0).

(** [use(condition)] up to its [return]: the handle it returns is the
    closure [dispose condition]. *)
Definition use (s : latch) : latch :=
  close (Mk (rt s) (m_open s) (m_gate s) (m_inUse s + 1)).

(** The [condition] argument of [use] is code of the caller: it runs
    with the latch in reach, so it is a function of the state, and it
    returns a boolean or throws ([None]). *)
Definition callback : Type := latch → option bool * latch.

(** The handle's [Symbol.dispose]:
    [!--this.m_inUse && (condition === undefined || condition()) && this.open()].
    [condition] is [None] when the argument was omitted.  The callback
    runs only when the count has come to zero, after the decrement and
    before [open()]; when it throws, the exception leaves [dispose] and
    [open()] is not called. *)
Definition dispose (condition : option callback) (s : latch) : latch :=
  let s1 := Mk (rt s) (m_open s) (m_gate s) (m_inUse s - 1) in
  if decide (m_inUse s1 = 0%Z) then
    match condition with
    | None => open s1
    | Some f =>
        match f s1 with
        | (Some true, s2) => open s2
        | (_, s2) => s2
        end
    end
  else s1.

(** One job of the queue. *)
Definition run (k : job) (s : latch) : latch :=
  match k with
  | GateCheck g d =>
      if decide (m_gate s = g) then upd (settle d (Ok ())) s
      else let '(x, s1) := gate s in upd (enqueue (Adopt d x)) s1
  | Adopt d x => upd (then_ x (Forward d)) s
  | Forward d => upd (settle d (Ok ())) s
  | Waiter w => s
  end.

(** What can happen to a latch: the public operations, a task awaiting a
    promise it got from [gate], and the host running the next job.  A
    condition given to [use] is the list of operations its body performs
    on the latch and what it returns ([None]: it throws). *)
#[local] Set Warnings "-register-all".
Inductive op :=
  | OGate
  | OAwait (d w : nat)
  | OOpen
  | OClose
  | OUse
  | ODispose (condition : option (list op * option bool))
  | OTick.

(** The operations as calls made by running code.  The host runs no job
    before that code returns, so [OTick] does nothing here. *)
Fixpoint call (o : op) (s : latch) : latch :=
  match o with
  | OGate => (gate s).2
  | OAwait d w =>
      if decide (tag_of (rt s) d = Some Derived) then upd (then_ d (Waiter w)) s else s
  | OOpen => open s
  | OClose => close s
  | OUse => use s
  | ODispose None => dispose None s
  | ODispose (Some (body, r)) =>
      dispose (Some (λ s1, (r, fold_left (λ s' o', call o' s') body s1))) s
  | OTick => s
  end.

(** The host takes the job at the front of the queue and runs it. *)
Definition tick (s : latch) : latch :=
  match queue (rt s) with
  | [] => s
  | k :: q => run k (upd (set_queue q) s)
  end.

Definition exec (o : op) (s : latch) : latch :=
  match o with
  | OTick => tick s
  | _ => call o s
  end.

(** [await latch.gate]: the getter, then the task's continuation [w] is
    registered on the promise it returned. *)
Definition await_gate (w : nat) (s : latch) : nat * latch :=
  let '(d, s1) := gate s in (d, upd (then_ d (Waiter w)) s1).

Definition run_ops (ops : list op) (s : latch) : latch :=
  fold_left (λ s o, exec o s) ops s.

Definition reachable (s : latch) : Prop := ∃ ops, s = run_ops ops new_latch.

(** *** Shape of the reachable states *)

Record wf (s : latch) : Prop := {
  wf_gate : tagged (rt s) (m_gate s) Gate;
  wf_open : ∀ r, m_open s = Some r → r = m_gate s ∧ pending (rt s) r;
  wf_opened : m_open s = None → settled (rt s) (m_gate s);
  wf_check_q : ∀ g d, GateCheck g d ∈ queue (rt s) →
    settled (rt s) g ∧ tagged (rt s) g Gate ∧ tagged (rt s) d Derived;
  wf_check_r : ∀ p g d, reacts (rt s) p (GateCheck g d) →
    p = g ∧ tagged (rt s) g Gate ∧ tagged (rt s) d Derived;
  wf_adopt_q : ∀ d x, Adopt d x ∈ queue (rt s) →
    tagged (rt s) d Derived ∧ tagged (rt s) x Derived;
  wf_adopt_r : ∀ p d x, reacts (rt s) p (Adopt d x) → False;
  wf_fwd_q : ∀ d, Forward d ∈ queue (rt s) → tagged (rt s) d Derived;
  wf_fwd_r : ∀ p d, reacts (rt s) p (Forward d) →
    tagged (rt s) p Derived ∧ tagged (rt s) d Derived;
  wf_wait_r : ∀ p w, reacts (rt s) p (Waiter w) → tagged (rt s) p Derived
}.

Ltac learn H :=
  match goal with
  | _ : used H |- _ => fail 1
  | _ => pose proof H; assert (used H) by exact I
  end.

Ltac break :=
  repeat (simplify_eq/=; match goal with
  | H : _ ∧ _ |- _ => destruct H
  | H : ∃ _, _ |- _ => destruct H
  | H : _ ∨ _ |- _ => destruct H
  | H : False |- _ => destruct H
  | H : _ ∈ [] |- _ => apply elem_of_nil in H
  | H : _ ∈ _ ++ _ |- _ => apply elem_of_app in H
  | H : _ ∈ _ :: _ |- _ => apply elem_of_cons in H
  end); simplify_eq/=.

Ltac use_wf :=
  repeat match goal with
  | W : wf ?s |- _ => learn (wf_gate s W)
  | W : wf ?s, H : m_open ?s = Some ?r |- _ => learn (wf_open s W r H)
  | W : wf ?s, H : m_open ?s = None |- _ => learn (wf_opened s W H)
  | W : wf ?s, H : GateCheck ?g ?d ∈ queue (rt ?s) |- _ =>
      learn (wf_check_q s W g d H)
  | W : wf ?s, H : reacts (rt ?s) ?p (GateCheck ?g ?d) |- _ =>
      learn (wf_check_r s W p g d H)
  | W : wf ?s, H : Adopt ?d ?x ∈ queue (rt ?s) |- _ =>
      learn (wf_adopt_q s W d x H)
  | W : wf ?s, H : reacts (rt ?s) ?p (Adopt ?d ?x) |- _ =>
      destruct (wf_adopt_r s W p d x H)
  | W : wf ?s, H : Forward ?d ∈ queue (rt ?s) |- _ =>
      learn (wf_fwd_q s W d H)
  | W : wf ?s, H : reacts (rt ?s) ?p (Forward ?d) |- _ =>
      learn (wf_fwd_r s W p d H)
  | W : wf ?s, H : reacts (rt ?s) ?p (Waiter ?w) |- _ =>
      learn (wf_wait_r s W p w H)
  | H : tagged ?h ?p _ |- _ => learn (tagged_lt h p _ H)
  | H : pending ?h ?p |- _ => learn (pending_lt h p H)
  | H : settled ?h ?p |- _ => learn (settled_lt h p H)
  | H : reacts ?h ?p ?k |- _ => learn (reacts_pending h p k H)
  | H : tagged ?h ?p ?t1, H' : tagged ?h ?p ?t2 |- _ =>
      assert_fails (unify t1 t2);
      learn (tagged_inj h p t1 t2 H H')
  | H : pending ?h ?p, H' : settled ?h ?p |- _ =>
      destruct (pending_not_settled h p H H')
  end.

Ltac wf_go :=
  intros; autorewrite with heap in *; break;
  autorewrite with heap in *; break;
  repeat (progress (use_wf; break));
  try lia; try (intuition (eauto; lia));
  repeat split; eauto; try lia;
  try (intros ?; simplify_eq; repeat (progress (use_wf; break))).

Lemma wf_new : wf new_latch.
Proof.
  split; unfold new_latch, close; simpl; intros.
  all: autorewrite with heap in *; unfold pending, settled, tagged, reacts in *;
    simpl in *; break; eauto 10.
  all: try (match goal with H : _ !! _ = Some _ |- _ => by destruct p end).
Qed.

Lemma wf_gate_op s : wf s → wf (gate s).2.
Proof. intros W. split; simpl. all: wf_go. Qed.

Lemma wf_await s d w :
  wf s → tagged (rt s) d Derived → wf (upd (then_ d (Waiter w)) s).
Proof. intros W Hd. split; simpl. all: wf_go. Qed.

Lemma wf_open_op s : wf s → wf (open s).
Proof.
  intros W. unfold open. destruct (m_open s) as [r|] eqn:E; [|done].
  split; simpl. all: wf_go.
Qed.

Lemma wf_inUse s n : wf s → wf (Mk (rt s) (m_open s) (m_gate s) n).
Proof. intros []. by split. Qed.

Lemma wf_close s : wf s → wf (close s).
Proof.
  intros W. unfold close. destruct (m_open s) as [r|] eqn:E.
  all: split; simpl. all: wf_go.
Qed.

Lemma wf_use s : wf s → wf (use s).
Proof. intros W. by apply wf_close, wf_inUse. Qed.

(** What the shape says of the job at the front of the queue. *)
Definition job_ok (s : latch) (k : job) : Prop :=
  match k with
  | GateCheck g d =>
      settled (rt s) g ∧ tagged (rt s) g Gate ∧ tagged (rt s) d Derived
  | Adopt d x => tagged (rt s) d Derived ∧ tagged (rt s) x Derived
  | Forward d => tagged (rt s) d Derived
  | Waiter _ => True
  end.

Lemma wf_pop s k q :
  wf s → queue (rt s) = k :: q →
  wf (upd (set_queue q) s) ∧ job_ok (upd (set_queue q) s) k.
Proof.
  intros W Hq.
  assert (∀ j, j ∈ q → j ∈ queue (rt s)) as Hin.
  { intros j Hj. rewrite Hq. by apply list_elem_of_further. }
  assert (k ∈ queue (rt s)) as Hk by (rewrite Hq; apply list_elem_of_here).
  split.
  - split; simpl; intros; autorewrite with heap in *;
      try match goal with H : _ ∈ q |- _ => apply Hin in H end.
    all: wf_go.
  - destruct k; simpl; autorewrite with heap; use_wf; intuition.
Qed.

Lemma wf_run s k : wf s → job_ok s k → wf (run k s).
Proof.
  intros W Hk. destruct k as [g d|d x|d|w]; simpl in *.
  - case_decide.
    + split; simpl. all: wf_go.
    + split; simpl. all: wf_go.
  - split; simpl. all: wf_go.
  - split; simpl. all: wf_go.
  - done.
Qed.

Lemma wf_tick s : wf s → wf (tick s).
Proof.
  intros W. unfold tick. destruct (queue (rt s)) as [|k q] eqn:Hq; [done|].
  destruct (wf_pop s k q W Hq). by apply wf_run.
Qed.

(** *** Operations with callbacks *)

(** Induction on an operation, with the operations of its callback. *)
Lemma op_nested_ind (P : op → Prop) :
  P OGate → (∀ d w, P (OAwait d w)) → P OOpen → P OClose → P OUse →
  P (ODispose None) →
  (∀ body r, Forall P body → P (ODispose (Some (body, r)))) →
  P OTick →
  ∀ o, P o.
Proof.
  intros Hgate Hawait Hopen Hclose Huse Hnone Hsome Htick.
  fix IH 1. intros [|d w| | | |[[body r]|]|].
  - exact Hgate.
  - apply Hawait.
  - exact Hopen.
  - exact Hclose.
  - exact Huse.
  - apply Hsome. induction body as [|o body IHb]; constructor; [apply IH|exact IHb].
  - exact Hnone.
  - exact Htick.
Qed.

Lemma run_ops_snoc ops o s : run_ops (ops ++ [o]) s = exec o (run_ops ops s).
Proof. unfold run_ops. by rewrite fold_left_app. Qed.
Lemma run_ops_app ops ops' s :
  run_ops (ops ++ ops') s = run_ops ops' (run_ops ops s).
Proof. unfold run_ops. by rewrite fold_left_app. Qed.

(** A property of the latch that every public operation keeps is kept by
    every call, whatever the callbacks do. *)
Section preserved.
Context (I : latch → Prop).
Context (I_gate : ∀ s, I s → I (gate s).2).
Context (I_await : ∀ s d w, I s → tagged (rt s) d Derived →
           I (upd (then_ d (Waiter w)) s)).
Context (I_open : ∀ s, I s → I (open s)).
Context (I_close : ∀ s, I s → I (close s)).
Context (I_count : ∀ s n, I s → I (Mk (rt s) (m_open s) (m_gate s) n)).

Lemma dispose_preserves c s :
  (∀ f s', c = Some f → I s' → I (f s').2) → I s → I (dispose c s).
Proof.
  intros Hc Hs. unfold dispose. simpl. case_decide; [|by apply I_count].
  destruct c as [f|]; [|by apply I_open, I_count].
  specialize (Hc f (Mk (rt s) (m_open s) (m_gate s) (m_inUse s - 1)) eq_refl
                (I_count _ _ Hs)).
  destruct (f _) as [[[]|] s2]; simpl in Hc; auto.
Qed.

Lemma call_preserves o : ∀ s, I s → I (call o s).
Proof.
  induction o as [|d w| | | | |body r HF|] using op_nested_ind;
    intros s Hs; simpl; auto.
  - by apply (I_gate s).
  - case_decide as E; [|done]. apply I_await; [done|]. by apply tag_of_tagged.
  - by apply I_close, I_count.
  - by apply dispose_preserves.
  - apply dispose_preserves; [|done]. intros f s' [= <-] Hs'. simpl.
    revert s' Hs'. induction HF as [|o body Ho HF IH]; intros s' Hs'; simpl; auto.
Qed.

Lemma exec_preserves o s : (I s → I (tick s)) → I s → I (exec o s).
Proof. intros Ht Hs. destruct o; try by apply call_preserves. by apply Ht. Qed.
End preserved.

Lemma wf_call o s : wf s → wf (call o s).
Proof.
  apply call_preserves.
  - apply wf_gate_op.
  - intros; by apply wf_await.
  - apply wf_open_op.
  - apply wf_close.
  - intros; by apply wf_inUse.
Qed.

Lemma wf_exec o s : wf s → wf (exec o s).
Proof. intros W. destruct o; try by apply wf_call. by apply wf_tick. Qed.

Lemma wf_dispose c s :
  (∀ f s', c = Some f → wf s' → wf (f s').2) → wf s → wf (dispose c s).
Proof.
  apply dispose_preserves.
  - apply wf_open_op.
  - intros; by apply wf_inUse.
Qed.

Lemma wf_run_ops ops s : wf s → wf (run_ops ops s).
Proof.
  intros W. induction ops as [|o ops IH] using rev_ind; [done|].
  rewrite run_ops_snoc. by apply wf_exec.
Qed.

Lemma reachable_wf s : reachable s → wf s.
Proof. intros [ops ->]. apply wf_run_ops, wf_new. Qed.

(** *** Holds and the state of the latch *)

(** The latch is closed: the resolver is stored and the gate promise is
    unsettled. *)
Definition closed (s : latch) : Prop :=
  m_open s ≠ None ∧ pending (rt s) (m_gate s).

(** [along step P Q l s]: [P] holds of each element of [l] at the state it
    is run in, and [Q] of the state after the last. *)
Fixpoint along {A S : Type} (step : A → S → S) (P : A → S → Prop)
    (Q : S → Prop) (l : list A) (s : S) : Prop :=
  match l with
  | [] => Q s
  | a :: l' => P a s ∧ along step P Q l' (step a s)
  end.

(** An operation in which [open()] is called directly only when no hold
    is counted, and in which a condition that is run and returns true
    returns with no hold counted (as it does when it does not call
    [use()]). *)
Fixpoint guarded (o : op) (s : latch) : Prop :=
  match o with
  | OOpen => (m_inUse s ≤ 0)%Z
  | ODispose (Some (body, r)) =>
      (m_inUse s - 1 = 0)%Z →
      along call guarded (λ s', r = Some true → (m_inUse s' ≤ 0)%Z) body
        (Mk (rt s) (m_open s) (m_gate s) (m_inUse s - 1))
  | _ => True
  end.

Definition open_guarded (ops : list op) (s : latch) : Prop :=
  along exec guarded (λ _, True) ops s.

Lemma open_inUse s : m_inUse (open s) = m_inUse s.
Proof. unfold open. by destruct (m_open s). Qed.
Lemma open_opens s : m_open (open s) = None.
Proof. unfold open. by destruct (m_open s) eqn:E. Qed.
Lemma close_inUse s : m_inUse (close s) = m_inUse s.
Proof. unfold close. by destruct (m_open s). Qed.
Lemma close_open s : m_open (close s) = Some (size (rt s)).
Proof. unfold close. by destruct (m_open s). Qed.
Lemma close_gate s : m_gate (close s) = size (rt s).
Proof. unfold close. by destruct (m_open s). Qed.
Lemma run_open s k : m_open (run k s) = m_open s.
Proof. destruct k; simpl; try done. by case_decide. Qed.
Lemma run_inUse s k : m_inUse (run k s) = m_inUse s.
Proof. destruct k; simpl; try done. by case_decide. Qed.
Lemma run_gate s k : m_gate (run k s) = m_gate s.
Proof. destruct k; simpl; try done. by case_decide. Qed.
Lemma tick_open s : m_open (tick s) = m_open s.
Proof. unfold tick. destruct (queue (rt s)); [done|]. by rewrite run_open. Qed.
Lemma tick_inUse s : m_inUse (tick s) = m_inUse s.
Proof. unfold tick. destruct (queue (rt s)); [done|]. by rewrite run_inUse. Qed.
Lemma tick_gate s : m_gate (tick s) = m_gate s.
Proof. unfold tick. destruct (queue (rt s)); [done|]. by rewrite run_gate. Qed.

(** While a hold is counted the resolver is stored. *)
Definition held_closed (s : latch) : Prop :=
  (0 < m_inUse s)%Z → m_open s ≠ None.

Lemma hold_keeps_closed_call o : ∀ s,
  guarded o s → held_closed s → held_closed (call o s).
Proof.
  induction o as [|d w| | | | |body r HF|] using op_nested_ind;
    intros s Hg Hs; simpl in *.
  - done.
  - by case_decide.
  - unfold held_closed. rewrite open_inUse. lia.
  - unfold held_closed. by rewrite close_open.
  - unfold held_closed, use. by rewrite close_open.
  - unfold held_closed, dispose in *; simpl. case_decide as E.
    + rewrite open_inUse; simpl; lia.
    + simpl. intros. apply Hs. lia.
  - unfold dispose; simpl. case_decide as E.
    2:{ unfold held_closed in *. simpl. intros. apply Hs. lia. }
    specialize (Hg E).
    set (s1 := Mk (rt s) (m_open s) (m_gate s) (m_inUse s - 1)) in *.
    assert (held_closed s1) as H1 by (unfold held_closed, s1; simpl; lia).
    clearbody s1. clear Hs E.
    assert (held_closed (fold_left (λ s' o', call o' s') body s1) ∧
            (r = Some true →
             (m_inUse (fold_left (λ s' o', call o' s') body s1) ≤ 0)%Z))
      as [H2 H3].
    { revert s1 Hg H1.
      induction HF as [|o body Ho HF IH]; intros s1 Hg H1; simpl in *; [done|].
      destruct Hg as [Hg1 Hg2]. apply IH; [done|]. by apply Ho. }
    destruct r as [[]|]; [|done..].
    unfold held_closed. rewrite open_inUse. specialize (H3 eq_refl). lia.
  - done.
Qed.

Lemma hold_keeps_closed ops : ∀ s,
  held_closed s → open_guarded ops s → held_closed (run_ops ops s).
Proof.
  induction ops as [|o ops IH]; intros s Hs Hg; [done|].
  destruct Hg as [Ho Hg]. simpl. apply IH; [|done].
  destruct o; try by apply hold_keeps_closed_call.
  unfold held_closed. simpl. by rewrite tick_open, tick_inUse.
Qed.

(** C6, as stated, fails: [use()] followed by a direct [open()] leaves
    one hold counted and the latch open. *)
Lemma hold_count_open_counterexample :
  reachable (run_ops [OUse; OOpen] new_latch) ∧
  (0 < m_inUse (run_ops [OUse; OOpen] new_latch))%Z ∧
  ¬ closed (run_ops [OUse; OOpen] new_latch).
Proof.
  split; [by eexists|]. split; [by vm_compute|].
  intros [H _]. by vm_compute in H.
Qed.

(** C6, amended: in every state reached by gate reads, awaits, [close()],
    [use()], disposals (of any handle, any number of times, with any
    condition), jobs of the queue and calls of [open()], where [open()]
    is called directly, by the caller or by a condition, only while no
    hold is counted, and where a condition that returns true returns
    while no hold is counted, a positive [m_inUse] implies that the latch
    is closed: the resolver is stored and the gate promise is
    unsettled. *)
Theorem hold_count_implies_closed ops :
  open_guarded ops new_latch →
  (0 < m_inUse (run_ops ops new_latch))%Z →
  closed (run_ops ops new_latch).
Proof.
  intros Hg Hpos.
  pose proof (hold_keeps_closed ops new_latch) as Hc.
  assert (m_open (run_ops ops new_latch) ≠ None) as Hne.
  { apply Hc; [by vm_compute|done|done]. }
  split; [done|].
  pose proof (wf_run_ops ops new_latch wf_new) as W.
  destruct (m_open (run_ops ops new_latch)) as [r|] eqn:E; [|done].
  destruct (wf_open _ W r E) as [-> Hp]. done.
Qed.

Lemma hold_count_implies_closed_witness :
  closed
    (run_ops
       [OUse; OGate; ODispose (Some ([OClose; OGate], Some true)); OTick;
        OUse; OUse; ODispose (Some ([OUse], Some true)); OTick; OClose]
       new_latch).
Proof.
  apply (hold_count_implies_closed
           [OUse; OGate; ODispose (Some ([OClose; OGate], Some true)); OTick;
            OUse; OUse; ODispose (Some ([OUse], Some true)); OTick; OClose]).
  - vm_compute. repeat split; intros; try discriminate; lia.
  - by vm_compute.
Defined.

(** A condition that calls [use()] and returns true is outside the
    amended statement, and leaves a hold counted on an open latch. *)
Lemma condition_calling_use_opens :
  ¬ open_guarded [OUse; ODispose (Some ([OUse], Some true))] new_latch ∧
  (0 < m_inUse (run_ops [OUse; ODispose (Some ([OUse], Some true))] new_latch))%Z ∧
  ¬ closed (run_ops [OUse; ODispose (Some ([OUse], Some true))] new_latch).
Proof.
  split; [|split].
  - vm_compute. intros (_ & H & _). specialize (H eq_refl) as (_ & H).
    exact (H eq_refl eq_refl).
  - by vm_compute.
  - intros [H _]. by vm_compute in H.
Qed.

(** *** [close()] on a closed latch *)

(** The order of the specification's sentence: settle the previous gate,
    then install the new one. *)
Definition close_settle_first (s : latch) : latch :=
  let s0 :=
    match m_open s with
    | Some r => upd (settle r (Ok ())) s
    | None => s
    end in
  let g := size (rt s0) in
  Mk (alloc Gate (Pending [] 0) (rt s0)) (Some g) g (m_inUse s0).

(** C7: when [close()] is called on a latch whose gate promise is
    unsettled, that promise is settled and a fresh pending gate with its
    resolver is installed; the result is the same as settling first and
    installing second; every reaction that was parked on the old gate is
    in the queue afterwards, and the old gate is no longer the stored one,
    so the check of a parked [gate] read goes on to the new gate. *)
Theorem close_settles_previous_gate s :
  reachable s → pending (rt s) (m_gate s) →
  close s = close_settle_first s ∧
  settled (rt (close s)) (m_gate s) ∧
  (∀ k, reacts (rt s) (m_gate s) k → k ∈ queue (rt (close s))) ∧
  m_gate (close s) ≠ m_gate s ∧
  m_open (close s) = Some (m_gate (close s)) ∧
  pending (rt (close s)) (m_gate (close s)).
Proof.
  intros Hr Hp. apply reachable_wf in Hr as W.
  destruct (m_open s) as [r|] eqn:E.
  2:{ destruct (pending_not_settled _ _ Hp (wf_opened _ W E)). }
  destruct (wf_open _ W r E) as [-> _].
  pose proof (pending_lt _ _ Hp) as Hlt.
  unfold close, close_settle_first, upd. rewrite E. simpl.
  rewrite settle_size, settle_alloc by done.
  split; [done|]. repeat split.
  - autorewrite with heap. intuition.
  - intros k Hk. autorewrite with heap. auto.
  - lia.
  - autorewrite with heap. right. eauto.
Qed.

Lemma close_settles_previous_gate_witness :
  settled (rt (close (run_ops [OGate; OAwait 1 7] new_latch)))
    (m_gate (run_ops [OGate; OAwait 1 7] new_latch)) ∧
  GateCheck 0 1 ∈ queue (rt (close (run_ops [OGate; OAwait 1 7] new_latch))).
Proof.
  destruct (close_settles_previous_gate (run_ops [OGate; OAwait 1 7] new_latch))
    as (_ & Hs & Hq & _).
  - by eexists.
  - vm_compute. eauto.
  - split; [exact Hs|]. apply Hq. vm_compute.
    do 3 eexists. split; [reflexivity|]. apply list_elem_of_here.
Defined.

(** *** Disposal of a usage handle *)

(** A condition that does not operate on the latch: it returns [b]. *)
Definition returns (b : bool) : callback := λ s, (Some b, s).
(** The argument of [use]: omitted, or such a condition. *)
Definition plain (c : option bool) : option callback := option_map returns c.

(** The condition leaves the count of holds as it finds it. *)
Definition keeps_count (c : option callback) : Prop :=
  ∀ f s, c = Some f → m_inUse (f s).2 = m_inUse s.
(** The condition, if there is one, returns true. *)
Definition lets_open (c : option callback) : Prop :=
  ∀ f s, c = Some f → (f s).1 = Some true.

Lemma dispose_inUse c s :
  keeps_count c → m_inUse (dispose c s) = (m_inUse s - 1)%Z.
Proof.
  intros Hk. unfold dispose. simpl. case_decide; [|done].
  destruct c as [f|]; [|by rewrite open_inUse].
  specialize (Hk f (Mk (rt s) (m_open s) (m_gate s) (m_inUse s - 1)) eq_refl).
  destruct (f _) as [[[]|] s2]; simpl in *; by rewrite ?open_inUse.
Qed.

(** C10: every call of a handle's dispose takes one from [m_inUse],
    whether or not the handle was disposed before; two calls take two, so
    a handle disposed twice brings the count of one hold to -1, and with
    two holds counted it brings the count to zero and opens the latch
    (unless the condition returns false) while the other hold is out.
    This holds with the condition omitted, with a condition that only
    returns a boolean, and with any condition that leaves the count as it
    finds it; a condition is not even run unless the call brings the
    count to zero. *)
Theorem dispose_not_idempotent :
  (∀ c s, keeps_count c → m_inUse (dispose c s) = (m_inUse s - 1)%Z) ∧
  (∀ c s, keeps_count c →
     m_inUse (dispose c (dispose c s)) = (m_inUse s - 2)%Z) ∧
  m_inUse (run_ops [OUse; ODispose None; ODispose None] new_latch) = (-1)%Z ∧
  (∀ c s, m_inUse s = 2%Z → keeps_count c → lets_open c →
     m_open (dispose c (dispose c s)) = None) ∧
  (m_inUse (run_ops [OUse; OUse; ODispose None; ODispose None] new_latch) = 0%Z ∧
   m_open (run_ops [OUse; OUse; ODispose None; ODispose None] new_latch) = None ∧
   settled (rt (run_ops [OUse; OUse; ODispose None; ODispose None] new_latch))
     (m_gate (run_ops [OUse; OUse; ODispose None; ODispose None] new_latch))) ∧
  (∀ c : option bool, keeps_count (plain c)) ∧
  (∀ c : option bool, c ≠ Some false → lets_open (plain c)) ∧
  (∀ c s, m_inUse s ≠ 1%Z →
     dispose c s = Mk (rt s) (m_open s) (m_gate s) (m_inUse s - 1)).
Proof.
  split; [apply dispose_inUse|].
  split; [intros; rewrite !dispose_inUse by done; lia|].
  split; [by vm_compute|]. split; [|split; [|split; [|split]]].
  - intros c s H2 Hk Hc. unfold dispose at 1. simpl.
    rewrite dispose_inUse by done.
    case_decide; [|lia].
    destruct c as [f|]; [|by rewrite open_opens].
    specialize (Hc f (Mk (rt (dispose (Some f) s)) (m_open (dispose (Some f) s))
                        (m_gate (dispose (Some f) s)) (m_inUse s - 1 - 1)) eq_refl).
    destruct (f _) as [[[]|] s2]; simpl in *; try done. by rewrite open_opens.
  - vm_compute. repeat split; eauto.
  - intros [b|] f s [= <-]. done.
  - intros [[]|] Hc f s [= <-]; done.
  - intros c s Hs. unfold dispose. simpl. case_decide; [lia|done].
Qed.

(** *** A task parked on the gate *)

(** A set of promises returned by [gate] none of which is settled by a
    job run while the latch is closed: each is pending, no job that
    fulfils it is queued, and the promise it follows, if any, is in the
    set too. *)
Definition blocking (s : latch) (S : nat → Prop) : Prop :=
  ∀ d, S d →
    pending (rt s) d ∧ tagged (rt s) d Derived ∧
    (Forward d ∈ queue (rt s) → False) ∧
    (∀ x, Adopt d x ∈ queue (rt s) → S x) ∧
    (∀ x, reacts (rt s) x (Forward d) → S x).

Ltac use_bl :=
  repeat match goal with
  | B : blocking ?s ?S, H : ?S ?d |- _ => learn (B d H)
  | H : ∀ x, Adopt ?d x ∈ queue ?h → _, H' : Adopt ?d ?x ∈ queue ?h |- _ =>
      learn (H x H')
  | H : ∀ x, reacts ?h x (Forward ?d) → _, H' : reacts ?h ?x (Forward ?d) |- _ =>
      learn (H x H')
  | H : Forward ?d ∈ queue ?h → False, H' : Forward ?d ∈ queue ?h |- _ =>
      destruct (H H')
  | H : ?S ?d → False, H' : ?S ?d |- _ => destruct (H H')
  | H : ?S ?d → ?S ?x, H' : ?S ?d |- _ => learn (H H')
  end.

Ltac bl_go :=
  intros; autorewrite with heap in *; break;
  autorewrite with heap in *; break;
  repeat (progress (use_wf; use_bl; break));
  try lia; try done; try (intuition (eauto; lia));
  repeat split; eauto; try lia;
  try (intros ?; simplify_eq; repeat (progress (use_wf; use_bl; break))).

Ltac bl_start :=
  let d := fresh "d" in let Hd := fresh "Hd" in
  intros d Hd; repeat split; simpl.

Lemma blocking_gate s S :
  wf s → blocking s S → blocking (gate s).2 S.
Proof. intros W B. bl_start. all: bl_go. Qed.

Lemma blocking_await s S d w :
  wf s → blocking s S → blocking (upd (then_ d (Waiter w)) s) S.
Proof. intros W B. bl_start. all: bl_go. Qed.

Lemma blocking_open s S :
  wf s → blocking s S → blocking (open s) S.
Proof.
  intros W B. unfold open. destruct (m_open s) as [r|] eqn:E; [|done].
  bl_start. all: bl_go.
Qed.

Lemma blocking_close s S :
  wf s → blocking s S → blocking (close s) S.
Proof.
  intros W B. unfold close. destruct (m_open s) as [r|] eqn:E.
  all: bl_start. all: bl_go.
Qed.

Lemma blocking_inUse s S n :
  blocking s S → blocking (Mk (rt s) (m_open s) (m_gate s) n) S.
Proof. done. Qed.

(** Calls, also of [open()], leave the set as it is. *)
Lemma blocking_call o s S :
  wf s → blocking s S → wf (call o s) ∧ blocking (call o s) S.
Proof.
  intros W B.
  apply (call_preserves (λ s, wf s ∧ blocking s S)); [..|done].
  - intros s' [??]. split; [by apply wf_gate_op|by apply blocking_gate].
  - intros s' d w [??] ?. split; [by apply wf_await|by apply blocking_await].
  - intros s' [??]. split; [by apply wf_open_op|by apply blocking_open].
  - intros s' [??]. split; [by apply wf_close|by apply blocking_close].
  - intros s' n [??]. split; [by apply wf_inUse|by apply blocking_inUse].
Qed.

Lemma blocking_pop s S k q :
  wf s → blocking s S → queue (rt s) = k :: q →
  blocking (upd (set_queue q) s) S ∧
  match k with
  | GateCheck g d => True
  | Adopt d x => S d → S x
  | Forward d => S d → False
  | Waiter _ => True
  end.
Proof.
  intros W B Hq.
  assert (∀ j, j ∈ q → j ∈ queue (rt s)) as Hin.
  { intros j Hj. rewrite Hq. by apply list_elem_of_further. }
  assert (k ∈ queue (rt s)) as Hk by (rewrite Hq; apply list_elem_of_here).
  split.
  - bl_start; intros; autorewrite with heap in *;
      try match goal with H : _ ∈ q |- _ => apply Hin in H end.
    all: bl_go.
  - destruct k; try done; intros; use_bl; break; eauto.
Qed.

Lemma blocking_run s S k :
  wf s → m_open s ≠ None → job_ok s k → blocking s S →
  match k with
  | Adopt d x => S d → S x
  | Forward d => S d → False
  | _ => True
  end →
  ∃ S' : nat → Prop, (∀ d, S d → S' d) ∧ blocking (run k s) S'.
Proof.
  intros W Hc Hk B HS. destruct (m_open s) as [r|] eqn:E; [|done].
  destruct k as [g d0|d0 x0|d0|w]; simpl in *.
  - case_decide as Hg.
    { exfalso. subst g. use_wf. break. use_wf. }
    exists (λ d, S d ∨ d = size (rt s)). split; [auto|].
    intros d [Hd| ->]; repeat split; simpl. all: bl_go.
  - exists S. split; [auto|]. bl_start. all: bl_go.
  - exists S. split; [auto|]. bl_start. all: bl_go.
  - exists S. split; [auto|]. bl_start. all: bl_go.
Qed.

Lemma blocking_tick s S :
  wf s → m_open s ≠ None → blocking s S →
  ∃ S' : nat → Prop, (∀ d, S d → S' d) ∧ blocking (tick s) S'.
Proof.
  intros W Hc B. unfold tick.
  destruct (queue (rt s)) as [|k q] eqn:Hq; [by exists S|].
  destruct (wf_pop s k q W Hq) as [W' Hk].
  destruct (blocking_pop s S k q W B Hq) as [B' HS].
  apply (blocking_run _ S k W' Hc Hk B').
  by destruct k.
Qed.

(** Whenever the host runs a job, the latch is closed.  Calls are not
    restricted: the latch may be opened and closed again between two
    jobs, any number of times. *)
Definition closed_at_ticks (ops : list op) (s : latch) : Prop :=
  along exec (λ o s, o = OTick → m_open s ≠ None) (λ _, True) ops s.

Lemma blocking_exec o s S :
  wf s → (o = OTick → m_open s ≠ None) → blocking s S →
  ∃ S' : nat → Prop, (∀ d, S d → S' d) ∧ blocking (exec o s) S'.
Proof.
  intros W Hc B.
  destruct o; try (exists S; split; [auto|]; by apply blocking_call).
  apply blocking_tick; auto.
Qed.

Lemma blocking_run_ops ops : ∀ s (S : nat → Prop),
  wf s → closed_at_ticks ops s → blocking s S →
  ∃ S' : nat → Prop, (∀ d, S d → S' d) ∧ blocking (run_ops ops s) S'.
Proof.
  induction ops as [|o ops IH]; intros s S W HS B; [by exists S|].
  destruct HS as [Hc HS]. simpl.
  destruct (blocking_exec o s S W Hc B) as (S1 & Hsub & B1).
  destruct (IH (exec o s) S1 (wf_exec o s W) HS B1) as (S2 & Hsub' & B2).
  exists S2. split; [auto|done].
Qed.

Lemma along_app {A S : Type} (step : A → S → S) P (l1 l2 : list A) : ∀ s,
  along step P (λ _, True) (l1 ++ l2) s ↔
    along step P (λ _, True) l1 s ∧
    along step P (λ _, True) l2 (fold_left (λ s a, step a s) l1 s).
Proof.
  induction l1 as [|a l1 IH]; intros s; simpl; [tauto|].
  rewrite IH. tauto.
Qed.

(** The promise [p] is there, and [k] is registered on it until it is
    settled. *)
Definition parked (p : nat) (k : job) (s : latch) : Prop :=
  p < size (rt s) ∧ (pending (rt s) p → reacts (rt s) p k).

Lemma parked_run k' s p k : parked p k s → parked p k (run k' s).
Proof.
  intros [Hlt Hr]. unfold parked.
  destruct k'; simpl; [case_decide|..]; simpl; bl_go.
Qed.

Lemma parked_exec o s p k : parked p k s → parked p k (exec o s).
Proof.
  intros H. apply exec_preserves; [..|exact H]; clear H.
  - intros s' [Hlt Hr]. unfold parked. simpl. bl_go.
  - intros s' d w [Hlt Hr] _. unfold parked. simpl. bl_go.
  - intros s' [Hlt Hr]. unfold parked, open.
    destruct (m_open s'); [|done]. simpl. bl_go.
  - intros s' [Hlt Hr]. unfold parked, close.
    destruct (m_open s'); simpl; bl_go.
  - intros s' n [Hlt Hr]. done.
  - intros [Hlt Hr]. unfold tick.
    destruct (queue (rt s)) as [|j q]; [done|].
    apply parked_run. unfold parked. simpl. bl_go.
Qed.

Lemma parked_run_ops ops : ∀ s p k, parked p k s → parked p k (run_ops ops s).
Proof.
  induction ops as [|o ops IH]; intros s p k H; [done|].
  simpl. by apply IH, parked_exec.
Qed.

(** *** A task released by [open()] *)

(** The jobs that settle the promise [d] a [gate] read returned. *)
Definition drives (d : nat) (k : job) : bool :=
  match k with
  | GateCheck _ d' | Adopt d' _ | Forward d' => bool_decide (d' = d)
  | Waiter _ => false
  end.

(** Every unsettled promise of a [gate] read has a job under way that
    will settle it or pass it on, a promise follows one made after it,
    and the only gate that can be unsettled is the stored one, while the
    latch is closed. *)
Record live (s : latch) : Prop := {
  live_driver : ∀ d, tagged (rt s) d Derived → pending (rt s) d →
    0 < jobcount (drives d) (rt s);
  live_gate : ∀ g, tagged (rt s) g Gate → pending (rt s) g → m_open s = Some g;
  live_adopt : ∀ d x, Adopt d x ∈ queue (rt s) → d < x;
  live_fwd : ∀ x d, reacts (rt s) x (Forward d) → d < x
}.

Ltac use_live :=
  repeat match goal with
  | L : live ?s, H : tagged (rt ?s) ?g Gate, H' : pending (rt ?s) ?g |- _ =>
      learn (live_gate s L g H H')
  | L : live ?s, H : Adopt ?d ?x ∈ queue (rt ?s) |- _ =>
      learn (live_adopt s L d x H)
  | L : live ?s, H : reacts (rt ?s) ?x (Forward ?d) |- _ =>
      learn (live_fwd s L x d H)
  | L : live ?s, H : tagged (rt ?s) ?d Derived, H' : pending (rt ?s) ?d |- _ =>
      learn (live_driver s L d H H')
  end.

Ltac live_go :=
  intros; autorewrite with heap in *; break;
  autorewrite with heap in *; break;
  repeat match goal with
  | Hin : ∀ j, j ∈ ?q → j ∈ _, H : _ ∈ ?q |- _ => apply Hin in H
  end;
  repeat (progress (use_wf; use_live; break));
  simpl drives in *; unfold b2n in *;
  repeat case_bool_decide; simplify_eq;
  try lia; try done; try congruence; try (intuition (eauto; lia)).

Ltac count_go :=
  repeat first
    [ rewrite jobcount_alloc_empty
    | rewrite jobcount_settle
    | rewrite jobcount_enqueue
    | rewrite jobcount_then
        by (autorewrite with heap in *; break;
            repeat (progress (use_wf; break)); lia) ].

Lemma live_new : live new_latch.
Proof.
  split; unfold new_latch, close; simpl; intros.
  all: autorewrite with heap in *; unfold pending, settled, tagged, reacts in *;
    simpl in *; break; eauto 10.
  all: try (match goal with H : _ !! _ = Some _ |- _ => by destruct p end).
Qed.

Lemma live_gate_op s : wf s → live s → live (gate s).2.
Proof.
  intros W L. split; simpl; [intros; count_go|..]. all: live_go.
Qed.

Lemma live_await s d w :
  wf s → live s → tagged (rt s) d Derived → live (upd (then_ d (Waiter w)) s).
Proof.
  intros W L Hd. split; simpl; [intros; count_go|..]. all: live_go.
Qed.

Lemma live_open s : wf s → live s → live (open s).
Proof.
  intros W L. unfold open. destruct (m_open s) as [r|] eqn:E; [|done].
  split; simpl; [intros; count_go|..]. all: live_go.
Qed.

Lemma live_close s : wf s → live s → live (close s).
Proof.
  intros W L. unfold close. destruct (m_open s) as [r|] eqn:E.
  all: split; simpl; [intros; count_go|..]. all: live_go.
Qed.

Lemma live_inUse s n : live s → live (Mk (rt s) (m_open s) (m_gate s) n).
Proof. intros []. by split. Qed.

Lemma live_call o s : wf s → live s → wf (call o s) ∧ live (call o s).
Proof.
  intros W L.
  apply (call_preserves (λ s, wf s ∧ live s)); [..|done].
  - intros s' [??]. split; [by apply wf_gate_op|by apply live_gate_op].
  - intros s' d w [??] ?. split; [by apply wf_await|by apply live_await].
  - intros s' [??]. split; [by apply wf_open_op|by apply live_open].
  - intros s' [??]. split; [by apply wf_close|by apply live_close].
  - intros s' n [??]. split; [by apply wf_inUse|by apply live_inUse].
Qed.

Lemma live_tick s : wf s → live s → live (tick s).
Proof.
  intros W L. unfold tick. destruct (queue (rt s)) as [|k q] eqn:Hq; [done|].
  assert (∀ j, j ∈ q → j ∈ queue (rt s)) as Hin.
  { intros j Hj. rewrite Hq. by apply list_elem_of_further. }
  assert (k ∈ queue (rt s)) as Hk by (rewrite Hq; apply list_elem_of_here).
  pose proof (λ d, jobcount_pop (drives d) k q (rt s) Hq) as Hpop.
  destruct k as [g d0|d0 x0|d0|w]; simpl; [case_decide|..].
  all: split; simpl;
    [intros d Ht Hp; count_go; specialize (Hpop d)
    |intros; autorewrite with heap in *; break;
     repeat match goal with H : _ ∈ _ |- _ => apply Hin in H end..].
  all: live_go.
Qed.

Lemma live_exec o s : wf s → live s → live (exec o s).
Proof.
  intros W L. destruct o; try by apply live_call. by apply live_tick.
Qed.

Lemma live_run_ops ops : ∀ s, wf s → live s → live (run_ops ops s).
Proof.
  induction ops as [|o ops IH]; intros s W L; [done|].
  simpl. apply IH; [by apply wf_exec|by apply live_exec].
Qed.

Lemma reachable_live s : reachable s → live s.
Proof. intros [ops ->]. apply live_run_ops; [apply wf_new|apply live_new]. Qed.

(** With the latch open and no job left to run, no promise of a [gate]
    read is unsettled. *)
Lemma quiescent_open_settled s d :
  wf s → live s → m_open s = None → queue (rt s) = [] →
  tagged (rt s) d Derived → settled (rt s) d.
Proof.
  intros W L Ho Hq.
  assert (∀ n d, size (rt s) - d ≤ n → tagged (rt s) d Derived →
            pending (rt s) d → False) as Hind.
  { clear d. induction n as [|n IH]; intros d Hn Ht Hp.
    { apply tagged_lt in Ht. lia. }
    destruct (jobcount_exists _ _ (live_driver s L d Ht Hp)) as (k & Hk & Hd).
    destruct (inflight_quiescent _ _ Hq Hk) as (p & Hr).
    destruct k as [g d'|d' x|d'|w]; simpl in Hd; try done;
      case_bool_decide; try done; subst d'.
    - destruct (wf_check_r s W p g d Hr) as (-> & Hg & _).
      pose proof (live_gate s L g Hg (reacts_pending _ _ _ Hr)). congruence.
    - destruct (wf_adopt_r s W p d x Hr).
    - destruct (wf_fwd_r s W p d Hr) as [Hpt _].
      pose proof (live_fwd s L p d Hr).
      apply (IH p); [lia|done|by eapply reacts_pending]. }
  intros Ht. destruct (pending_or_settled (rt s) d) as [Hp|]; [|by exfalso; eauto|done].
  by eapply tagged_lt.
Qed.

(** The work the jobs under way still stand for: a check of a gate that
    is no longer the stored one leads to a new check and an adoption. *)
Definition is_check (k : job) : bool :=
  match k with GateCheck _ _ => true | _ => false end.
Definition is_stale (m : nat) (k : job) : bool :=
  match k with GateCheck g _ => bool_decide (g ≠ m) | _ => false end.
Definition is_adopt (k : job) : bool :=
  match k with Adopt _ _ => true | _ => false end.
Definition is_last (k : job) : bool :=
  match k with Forward _ | Waiter _ => true | _ => false end.

Definition potential (s : latch) : nat :=
  2 * jobcount is_check (rt s) + 3 * jobcount (is_stale (m_gate s)) (rt s) +
  2 * jobcount is_adopt (rt s) + jobcount is_last (rt s).

Lemma potential_tick s :
  wf s → queue (rt s) ≠ [] → potential (tick s) < potential s.
Proof.
  intros W Hne. unfold tick. destruct (queue (rt s)) as [|k q] eqn:Hq; [done|].
  destruct (wf_pop s k q W Hq) as [W' Hk].
  unfold potential. rewrite run_gate. simpl.
  rewrite (jobcount_pop is_check k q (rt s) Hq).
  rewrite (jobcount_pop (is_stale (m_gate s)) k q (rt s) Hq).
  rewrite (jobcount_pop is_adopt k q (rt s) Hq).
  rewrite (jobcount_pop is_last k q (rt s) Hq).
  destruct k as [g d0|d0 x0|d0|w]; simpl in *; [case_decide|..]; simpl.
  all: count_go; simpl; unfold b2n; repeat case_bool_decide; try lia; try done.
Qed.

Lemma potential_queue s : potential s = 0 → queue (rt s) = [].
Proof.
  intros H0. destruct (queue (rt s)) as [|k q] eqn:Hq; [done|exfalso].
  unfold potential in H0.
  rewrite (jobcount_pop is_check k q (rt s) Hq) in H0.
  rewrite (jobcount_pop is_adopt k q (rt s) Hq) in H0.
  rewrite (jobcount_pop is_last k q (rt s) Hq) in H0.
  destruct k; simpl in H0; lia.
Qed.

Lemma tick_quiescent s : queue (rt s) = [] → tick s = s.
Proof. intros Hq. unfold tick. by rewrite Hq. Qed.

Lemma ticks_quiescent n : ∀ s,
  queue (rt s) = [] → run_ops (repeat OTick n) s = s.
Proof.
  induction n as [|n IH]; intros s Hq; [done|].
  simpl. rewrite tick_quiescent by done. by apply IH.
Qed.

(** Left alone, the host empties the queue. *)
Lemma drain n : ∀ s,
  wf s → potential s ≤ n → queue (rt (run_ops (repeat OTick n) s)) = [].
Proof.
  induction n as [|n IH]; intros s W Hn.
  { simpl. apply potential_queue. lia. }
  simpl. destruct (queue (rt s)) as [|k q] eqn:Hq.
  - rewrite tick_quiescent by done. by rewrite ticks_quiescent.
  - apply IH; [by apply wf_tick|].
    pose proof (potential_tick s W). rewrite Hq in *.
    assert (potential (tick s) < potential s) by auto. lia.
Qed.

Lemma ticks_open n : ∀ s, m_open (run_ops (repeat OTick n) s) = m_open s.
Proof.
  induction n as [|n IH]; intros s; [done|]. simpl. by rewrite IH, tick_open.
Qed.

Lemma tagged_exec o s p t :
  tagged (rt s) p t → tagged (rt (exec o s)) p t.
Proof.
  intros H. apply (exec_preserves (λ s, tagged (rt s) p t)); [..|exact H]; clear H.
  - intros s' H. simpl. bl_go.
  - intros s' d w H _. simpl. bl_go.
  - intros s' H. unfold open. destruct (m_open s'); [|done]. simpl. bl_go.
  - intros s' H. unfold close. destruct (m_open s'); simpl; bl_go.
  - done.
  - intros H. unfold tick. destruct (queue (rt s)) as [|j q]; [done|].
    destruct j; simpl; [case_decide|..]; simpl; bl_go.
Qed.

Lemma tagged_run_ops ops : ∀ s p t,
  tagged (rt s) p t → tagged (rt (run_ops ops s)) p t.
Proof.
  induction ops as [|o ops IH]; intros s p t H; [done|].
  simpl. by apply IH, tagged_exec.
Qed.

(** Once the latch is open, a known number of jobs later every promise a
    [gate] read has returned is settled. *)
Lemma open_releases s d :
  wf s → live s → m_open s = None → tagged (rt s) d Derived →
  settled (rt (run_ops (repeat OTick (potential s)) s)) d.
Proof.
  intros W L Ho Ht. apply quiescent_open_settled.
  - by apply wf_run_ops.
  - by apply live_run_ops.
  - by rewrite ticks_open.
  - by apply drain.
  - by apply tagged_run_ops.
Qed.

(** C4: a task awaits [gate]; from then on the latch is opened and closed
    again, at once, as often as one likes, among any other calls (other
    tasks awaiting, holds taken and released), and the host runs jobs
    only while the latch is closed.  Then the promise the task awaits is
    still pending and the task's continuation is still registered on
    it, whichever task it is and however many flips there were.  A check
    of the getter's callback settles its promise only when the latch is
    open and the gate it waited for is still the stored one.  And the
    chain of re-reads ends at the stored gate: once the latch is open,
    after [potential] jobs the queue is empty and the promise of the task
    is settled. *)
Theorem flip_leaves_waiter_blocked :
  (∀ s w ops,
     reachable s →
     closed_at_ticks ops (await_gate w s).2 →
     pending (rt (run_ops ops (await_gate w s).2)) (await_gate w s).1 ∧
     reacts (rt (run_ops ops (await_gate w s).2)) (await_gate w s).1 (Waiter w)) ∧
  (∀ s pre post,
     closed_at_ticks (pre ++ OOpen :: OClose :: post) s ↔
     closed_at_ticks pre s ∧
     closed_at_ticks post (close (open (run_ops pre s)))) ∧
  (∀ s g d q,
     reachable s → queue (rt s) = GateCheck g d :: q →
     pending (rt s) d → settled (rt (exec OTick s)) d →
     m_open s = None ∧ m_gate s = g) ∧
  (∀ s w ops,
     reachable s →
     m_open (run_ops ops (await_gate w s).2) = None →
     let s1 := run_ops ops (await_gate w s).2 in
     queue (rt (run_ops (repeat OTick (potential s1)) s1)) = [] ∧
     settled (rt (run_ops (repeat OTick (potential s1)) s1)) (await_gate w s).1).
Proof.
  assert (∀ s w, wf s → wf (await_gate w s).2) as Wa.
  { intros s w W. unfold await_gate; simpl.
    apply (wf_await (gate s).2); [by apply wf_gate_op|].
    simpl. autorewrite with heap. auto. }
  split; [|split; [|split]].
  - intros s w ops Hr HS. apply reachable_wf in Hr as W.
    set (s2 := (await_gate w s).2) in *.
    assert (wf s2) as W2 by apply Wa, W.
    assert (parked (size (rt s)) (Waiter w) s2) as Hw.
    { unfold s2, parked, await_gate. simpl. bl_go. }
    assert (blocking s2 (λ d, d = size (rt s))) as B.
    { unfold s2, await_gate. simpl.
      intros d ->. repeat split; simpl. all: bl_go. }
    destruct (blocking_run_ops ops s2 _ W2 HS B) as (S' & Hsub & B').
    destruct (B' (size (rt s)) (Hsub _ eq_refl)) as (Hp & _).
    split; [done|]. by apply (parked_run_ops ops s2).
  - intros s pre post. unfold closed_at_ticks.
    rewrite along_app. simpl. fold (run_ops pre s).
    split; [intros (?&?&?&?); done|intros (?&?); repeat split; done].
  - intros s g d q Hr Hq Hp Hs. apply reachable_wf in Hr as W.
    simpl in Hs. unfold tick in Hs. rewrite Hq in Hs. simpl in Hs.
    assert (GateCheck g d ∈ queue (rt s)) as Hin
      by (rewrite Hq; apply list_elem_of_here).
    case_decide as Hg.
    + split; [|done]. destruct (m_open s) as [r|] eqn:E; [exfalso|done].
      subst g. use_wf. break. use_wf.
    + exfalso. simpl in Hs. bl_go.
  - intros s w ops Hr Ho s1. apply reachable_wf in Hr as W.
    apply reachable_live in Hr as L.
    assert (wf s1) as W1 by apply wf_run_ops, Wa, W.
    assert (live s1) as L1.
    { apply live_run_ops; [by apply Wa|]. unfold await_gate. simpl.
      apply (live_await (gate s).2); [by apply wf_gate_op|by apply live_gate_op|].
      simpl. autorewrite with heap. auto. }
    split; [by apply drain|].
    apply open_releases; try done.
    apply tagged_run_ops. unfold await_gate. simpl. autorewrite with heap. auto.
Qed.

Lemma flip_leaves_waiter_blocked_witness :
  pending
    (rt (run_ops
           [OGate; OAwait 2 8; OOpen; OClose; OTick; OTick; OUse; OTick;
            ODispose None; OClose; OTick; OTick; OTick]
           (await_gate 7 new_latch).2)) 1 ∧
  settled
    (rt (run_ops (repeat OTick 10)
           (run_ops
              [OGate; OAwait 2 8; OOpen; OClose; OTick; OTick; OOpen]
              (await_gate 7 new_latch).2))) 1.
Proof.
  split.
  - apply (proj1 flip_leaves_waiter_blocked new_latch 7
             [OGate; OAwait 2 8; OOpen; OClose; OTick; OTick; OUse; OTick;
              ODispose None; OClose; OTick; OTick; OTick]).
    + by exists [].
    + vm_compute. repeat split; intros; discriminate.
  - pose proof (proj2 (proj2 (proj2 flip_leaves_waiter_blocked)) new_latch 7
             [OGate; OAwait 2 8; OOpen; OClose; OTick; OTick; OOpen]) as H.
    destruct H as [_ H]; [by exists []|by vm_compute|].
    vm_compute in H. vm_compute. exact H.
Defined.

(** *** Every waiter is released *)

(** Once the latch is open and left alone, the host empties the queue
    within [potential] jobs, and every promise a [gate] read has returned
    so far is settled by then. *)
Theorem open_releases_every_gate_read s d :
  reachable s → m_open s = None → tagged (rt s) d Derived →
  queue (rt (run_ops (repeat OTick (potential s)) s)) = [] ∧
  m_open (run_ops (repeat OTick (potential s)) s) = None ∧
  settled (rt (run_ops (repeat OTick (potential s)) s)) d.
Proof.
  intros Hr Ho Hd. pose proof (reachable_wf s Hr) as W.
  split; [by apply drain|]. split; [by rewrite ticks_open|].
  apply open_releases; try done. by apply reachable_live.
Qed.

Lemma open_releases_every_gate_read_witness :
  settled
    (rt (run_ops (repeat OTick 5)
           (run_ops [OGate; OAwait 1 7; OClose; OTick; OOpen] new_latch))) 1.
Proof.
  pose proof (open_releases_every_gate_read
                (run_ops [OGate; OAwait 1 7; OClose; OTick; OOpen] new_latch) 1)
    as H.
  destruct H as (_ & _ & H); [by eexists|by vm_compute|vm_compute; eauto|].
  vm_compute in H. vm_compute. exact H.
Defined.
End Latch.

(** ** Mutex (src/unnamed/part_000, lines 1-65) *)

Module Mutex.

(** The two functions a release token can be: [releaseStub], or the
    resolver of a promise of the chain. *)
Inductive release := releaseStub | Resolver (p : nat).

(** Values promises are fulfilled with: [undefined], a release function,
    or the object [{ [Symbol.dispose]: v }] that [lock] returns. *)
Inductive value := Undefined | Fn (r : release) | Guard (v : value).

(** [ObtainResume res p]: the rest of [obtain] after [await lastPromise],
    for the call whose promise is [res] and whose new promise is [p].
    [LockResume l res]: the rest of [lock] after [await this.obtain(bypass)]. *)
Inductive job :=
  | ObtainResume (res p : nat)
  | LockResume (l res : nat).

(** [Init]: the [Promise.resolve()] of the field initialiser; [Result]:
    the promise of a call of [obtain]; [LockResult]: the promise of a call
    of [lock]; [Turn]: a promise made at line 40. *)
Inductive ptag := Init | Result | LockResult | Turn.

#[global] Instance release_eq_dec : EqDecision release.
Proof. solve_decision. Defined.
#[global] Instance value_eq_dec : EqDecision value.
Proof. solve_decision. Defined.
#[global] Instance job_eq_dec : EqDecision job.
Proof. solve_decision. Defined.
#[global] Instance ptag_eq_dec : EqDecision ptag.
Proof. solve_decision. Defined.

Record mutex := Mk {
  rt : heap job ptag value;
  m_lastPromise : nat
}.

Definition upd (f : heap job ptag value → heap job ptag value) (s : mutex) : mutex :=
  Mk (f (rt s)) (m_lastPromise s).

(** [new Mutex()] *)
Definition new_mutex : mutex :=
  Mk (alloc Init (Settled (Ok Undefined)) (Heap [] [])) 0.

(** [obtain(bypass)] up to its first suspension.  The promise of the call
    is [size (rt s)]; with [bypass] it is fulfilled before the call
    returns. *)
Definition obtain (bypass : bool) (s : mutex) : nat * mutex :=
  let res := size (rt s) in
  let h0 := alloc Result (Pending [] 0) (rt s) in
  if bypass then (res, Mk (settle res (Ok (Fn releaseStub)) h0) (m_lastPromise s))
  else
    let lastPromise := m_lastPromise s in
    let p := size h0 in
    let h1 := alloc Turn (Pending [] 0) h0 in
    (res, Mk (then_ lastPromise (ObtainResume res p) h1) p).

(** [lock(bypass)] up to its suspension on the promise of [obtain]. *)
Definition lock (bypass : bool) (s : mutex) : nat * mutex :=
  let l := size (rt s) in
  let s0 := upd (alloc LockResult (Pending [] 0)) s in
  let '(res, s1) := obtain bypass s0 in
  (l, upd (then_ res (LockResume l res)) s1).

(** Calling a release function. *)
Definition call (r : release) (s : mutex) : mutex :=
  match r with
  | releaseStub => s
  | Resolver p => upd (settle p (Ok Undefined)) s
  end.

(** What a task holding the value [v] of an acquisition does to give the
    lock back: call the function, or dispose the guard. *)
Definition give_back (v : value) (s : mutex) : mutex :=
  match v with
  | Fn r | Guard (Fn r) => call r s
  | _ => s
  end.

Definition value_of (s : mutex) (a : nat) : option value :=
  match cells (rt s) !! a with
  | Some (Cell _ (Settled (Ok v))) => Some v
  | _ => None
  end.

(** One job of the queue. *)
Definition run (k : job) (s : mutex) : mutex :=
  match k with
  | ObtainResume res p => upd (settle res (Ok (Fn (Resolver p)))) s
  | LockResume l res =>
      match cells (rt s) !! res with
      | Some (Cell _ (Settled (Ok v))) => upd (settle l (Ok (Guard v))) s
      | Some (Cell _ (Settled Err)) => upd (settle l Err) s
      | _ => s
      end
  end.

(** What can happen to a mutex: a call of [obtain] or [lock], a task
    giving back what the fulfilled promise [a] of an acquisition gave it,
    and the host running the next job. *)
Inductive op :=
  | OObtain (bypass : bool)
  | OLock (bypass : bool)
  | ORelease (a : nat)
  | OTick.

Definition exec (o : op) (s : mutex) : mutex :=
  match o with
  | OObtain b => (obtain b s).2
  | OLock b => (lock b s).2
  | ORelease a =>
      match value_of s a with
      | Some v => give_back v s
      | None => s
      end
  | OTick =>
      match queue (rt s) with
      | [] => s
      | k :: q => run k (upd (set_queue q) s)
      end
  end.

Definition run_ops (ops : list op) (s : mutex) : mutex :=
  fold_left (λ s o, exec o s) ops s.

Definition reachable (s : mutex) : Prop := ∃ ops, s = run_ops ops new_mutex.

Lemma run_ops_snoc_mutex ops o s : run_ops (ops ++ [o]) s = exec o (run_ops ops s).
Proof. unfold run_ops. by rewrite fold_left_app. Qed.
Lemma run_ops_app_mutex ops ops' s :
  run_ops (ops ++ ops') s = run_ops ops' (run_ops ops s).
Proof. unfold run_ops. by rewrite fold_left_app. Qed.

Lemma value_of_fulfilled s a v : value_of s a = Some v ↔ fulfilled (rt s) a v.
Proof.
  unfold value_of, fulfilled.
  destruct (cells (rt s) !! a) as [[t [rs n|[v'|]]]|]; split; try done.
  - intros (?&?); done.
  - intros [= ->]; eauto.
  - intros (?&[= -> ->]); done.
  - intros (?&?); done.
  - intros (?&?); done.
Qed.

(** *** Shape of the reachable states *)

Definition is_fn (v : value) : Prop :=
  match v with Fn _ => True | _ => False end.
Definition is_guard (v : value) : Prop :=
  match v with Guard _ => True | _ => False end.

Record wf (s : mutex) : Prop := {
  wf_last : tagged (rt s) (m_lastPromise s) Init ∨
            tagged (rt s) (m_lastPromise s) Turn;
  wf_last_max : ∀ t, tagged (rt s) t Turn → t ≤ m_lastPromise s;
  wf_last_init : ∀ t, tagged (rt s) (m_lastPromise s) Init →
    tagged (rt s) t Turn → False;
  wf_init : ∀ p, tagged (rt s) p Init → fulfilled (rt s) p Undefined;
  wf_turn : ∀ t, tagged (rt s) t Turn → 0 < t ∧ tagged (rt s) (pred t) Result;
  wf_turn_val : ∀ t v, tagged (rt s) t Turn → fulfilled (rt s) t v → v = Undefined;
  wf_fn : ∀ a p, fulfilled (rt s) a (Fn (Resolver p)) →
    tagged (rt s) a Result ∧ p = S a ∧ tagged (rt s) p Turn;
  wf_res_val : ∀ a v, tagged (rt s) a Result → fulfilled (rt s) a v →
    is_fn v;
  wf_guard : ∀ a v, fulfilled (rt s) a (Guard v) →
    tagged (rt s) a LockResult ∧ fulfilled (rt s) (S a) v;
  wf_lock_val : ∀ a v, tagged (rt s) a LockResult → fulfilled (rt s) a v →
    is_guard v;
  wf_noerr : ∀ a, rejected (rt s) a → False;
  wf_released : ∀ t, tagged (rt s) t Turn → settled (rt s) t →
    settled (rt s) (pred t);
  wf_order : ∀ t' t, tagged (rt s) t' Turn →
    settled (rt s) (pred t') ∨ ObtainResume (pred t') t' ∈ queue (rt s) →
    tagged (rt s) t Turn → t < t' → settled (rt s) t;
  wf_obtain_r : ∀ t r p, reacts (rt s) t (ObtainResume r p) →
    p = S r ∧ tagged (rt s) p Turn ∧ tagged (rt s) r Result ∧
    tagged (rt s) t Turn ∧ t < r;
  wf_obtain_pred : ∀ t r p t', reacts (rt s) t (ObtainResume r p) →
    tagged (rt s) t' Turn → t' < p → t' ≤ t;
  wf_obtain_q : ∀ r p, ObtainResume r p ∈ queue (rt s) →
    p = S r ∧ tagged (rt s) p Turn ∧ tagged (rt s) r Result;
  wf_lock_r : ∀ a l r, reacts (rt s) a (LockResume l r) →
    a = r ∧ r = S l ∧ tagged (rt s) l LockResult ∧ tagged (rt s) r Result;
  wf_lock_q : ∀ l r, LockResume l r ∈ queue (rt s) →
    settled (rt s) r ∧ r = S l ∧ tagged (rt s) l LockResult ∧
    tagged (rt s) r Result
}.

Lemma wf_order_q s (W : wf s) r t' t :
  tagged (rt s) t' Turn → ObtainResume r t' ∈ queue (rt s) →
  tagged (rt s) t Turn → t < t' → settled (rt s) t.
Proof.
  intros Ht' Hq. apply (wf_order s W t' t Ht'). right.
  destruct (wf_obtain_q s W r t' Hq) as (-> & _). done.
Qed.

Ltac learn H :=
  match goal with
  | _ : used H |- _ => fail 1
  | _ => pose proof H; assert (used H) by exact I
  end.

Ltac break :=
  repeat (simplify_eq/=; match goal with
  | H : _ ∧ _ |- _ => destruct H
  | H : ∃ _, _ |- _ => destruct H
  | H : _ ∨ _ |- _ => destruct H
  | H : False |- _ => destruct H
  | H : _ ∈ [] |- _ => apply elem_of_nil in H
  | H : _ ∈ _ ++ _ |- _ => apply elem_of_app in H
  | H : _ ∈ _ :: _ |- _ => apply elem_of_cons in H
  end); simplify_eq/=.

Ltac use_wf :=
  repeat match goal with
  | W : wf ?s |- _ => learn (wf_last s W)
  | W : wf ?s, H : tagged (rt ?s) (m_lastPromise ?s) Init,
    H' : tagged (rt ?s) ?t Turn |- _ => destruct (wf_last_init s W t H H')
  | W : wf ?s, H : tagged (rt ?s) ?t Turn |- _ => learn (wf_last_max s W t H)
  | W : wf ?s, H : tagged (rt ?s) ?p Init |- _ => learn (wf_init s W p H)
  | W : wf ?s, H : tagged (rt ?s) ?t Turn |- _ => learn (wf_turn s W t H)
  | W : wf ?s, H : tagged (rt ?s) ?t Turn, H' : fulfilled (rt ?s) ?t ?v |- _ =>
      learn (wf_turn_val s W t v H H')
  | W : wf ?s, H : fulfilled (rt ?s) ?a (Fn (Resolver ?p)) |- _ =>
      learn (wf_fn s W a p H)
  | W : wf ?s, H : tagged (rt ?s) ?a Result, H' : fulfilled (rt ?s) ?a ?v |- _ =>
      learn (wf_res_val s W a v H H')
  | W : wf ?s, H : fulfilled (rt ?s) ?a (Guard ?v) |- _ =>
      learn (wf_guard s W a v H)
  | W : wf ?s, H : tagged (rt ?s) ?a LockResult, H' : fulfilled (rt ?s) ?a ?v |- _ =>
      learn (wf_lock_val s W a v H H')
  | W : wf ?s, H : rejected (rt ?s) ?a |- _ => destruct (wf_noerr s W a H)
  | W : wf ?s, H : tagged (rt ?s) ?t Turn, H' : settled (rt ?s) ?t |- _ =>
      learn (wf_released s W t H H')
  | W : wf ?s, H : reacts (rt ?s) ?t (ObtainResume ?r ?p) |- _ =>
      learn (wf_obtain_r s W t r p H)
  | W : wf ?s, H : ObtainResume ?r ?p ∈ queue (rt ?s) |- _ =>
      learn (wf_obtain_q s W r p H)
  | W : wf ?s, H : reacts (rt ?s) ?a (LockResume ?l ?r) |- _ =>
      learn (wf_lock_r s W a l r H)
  | W : wf ?s, H : LockResume ?l ?r ∈ queue (rt ?s) |- _ =>
      learn (wf_lock_q s W l r H)
  | H : is_fn ?v |- _ => is_var v; destruct v; try destruct H
  | H : is_guard ?v |- _ => is_var v; destruct v; try destruct H
  | H : tagged ?h ?p _ |- _ => learn (tagged_lt h p _ H)
  | H : pending ?h ?p |- _ => learn (pending_lt h p H)
  | H : settled ?h ?p |- _ => learn (settled_lt h p H)
  | H : fulfilled ?h ?p ?v |- _ => learn (fulfilled_settled h p v H)
  | H : reacts ?h ?p ?k |- _ => learn (reacts_pending h p k H)
  | H : tagged ?h ?p ?t1, H' : tagged ?h ?p ?t2 |- _ =>
      assert_fails (unify t1 t2);
      learn (tagged_inj h p t1 t2 H H')
  | H : fulfilled ?h ?p ?v1, H' : fulfilled ?h ?p ?v2 |- _ =>
      assert_fails (unify v1 v2);
      learn (fulfilled_inj h p v1 v2 H H')
  | H : pending ?h ?p, H' : settled ?h ?p |- _ =>
      destruct (pending_not_settled h p H H')
  end.

Ltac use_ord :=
  repeat match goal with
  | H : ∀ t, tagged ?h t Turn → t < ?p → settled ?h t,
    H' : tagged ?h ?t Turn |- _ => learn (H t H')
  | W : wf ?s, H : tagged (rt ?s) ?t' Turn, H' : settled (rt ?s) (pred ?t'),
    H'' : tagged (rt ?s) ?t Turn |- _ =>
      learn (wf_order s W t' t H (or_introl H') H'')
  | W : wf ?s, H : tagged (rt ?s) ?t' Turn,
    H' : ObtainResume _ ?t' ∈ queue (rt ?s),
    H'' : tagged (rt ?s) ?t Turn |- _ =>
      learn (wf_order_q s W _ t' t H H' H'')
  | W : wf ?s, H : reacts (rt ?s) ?t (ObtainResume ?r ?p),
    H' : tagged (rt ?s) ?t' Turn |- _ =>
      learn (wf_obtain_pred s W t r p t' H H')
  | H : ?a < ?b → _ |- _ =>
      let L := fresh in assert (a < b) as L by lia; specialize (H L)
  | H : ?a < ?b → _ |- _ =>
      let L := fresh in assert (¬ a < b) as L by lia; clear H L
  end.

Ltac split_lt :=
  match goal with
  | H : ?a < ?b → _ |- _ =>
      let L := fresh in
      destruct (decide (a < b)) as [L|L];
      [specialize (H L)
      |clear H; try (assert (a = b) by lia; simplify_eq/=)]
  end.

Ltac sat := repeat (progress (use_wf; break)).
Ltac sat_ord := repeat (progress (use_wf; use_ord; break)).
Ltac finish :=
  try lia; try done; try (intuition (eauto; lia));
  repeat split; eauto; try lia;
  try (intros ?; simplify_eq; sat).

Ltac wf_go :=
  intros; autorewrite with heap in *; break;
  autorewrite with heap in *; break;
  sat; try solve [finish];
  sat_ord; try solve [finish];
  try (split_lt; sat_ord; try solve [finish];
       try (split_lt; sat_ord));
  finish.

Lemma wf_new_mutex : wf new_mutex.
Proof.
  split; unfold new_mutex; simpl; intros.
  all: autorewrite with heap in *;
    unfold pending, settled, fulfilled, rejected, tagged, reacts in *;
    simpl in *; break; eauto 10.
  all: try (match goal with H : _ !! _ = Some _ |- _ => by destruct p end).
Qed.

Lemma wf_obtain b s : wf s → wf (obtain b s).2.
Proof.
  intros W. destruct b; simpl.
  - split; simpl. all: wf_go.
  - split; simpl. all: wf_go.
Qed.

Lemma wf_alloc_lock s : wf s → wf (upd (alloc LockResult (Pending [] 0)) s).
Proof. intros W. split; simpl. all: wf_go. Qed.

Lemma wf_then_lock s l :
  wf s → tagged (rt s) l LockResult → tagged (rt s) (S l) Result →
  wf (upd (then_ (S l) (LockResume l (S l))) s).
Proof. intros W Hl Hr. split; simpl. all: wf_go. Qed.

Lemma obtain_fst b s : (obtain b s).1 = size (rt s).
Proof. unfold obtain. by destruct b. Qed.

Lemma obtain_tagged b s p t :
  tagged (rt s) p t → tagged (rt (obtain b s).2) p t.
Proof. intros H. unfold obtain. destruct b; simpl; autorewrite with heap; auto. Qed.

Lemma obtain_result b s : tagged (rt (obtain b s).2) (size (rt s)) Result.
Proof. unfold obtain. destruct b; simpl; autorewrite with heap; auto. Qed.

Lemma wf_lock b s : wf s → wf (lock b s).2.
Proof.
  intros W. unfold lock.
  pose proof (obtain_fst b (upd (alloc LockResult (Pending [] 0)) s)) as E.
  destruct (obtain b (upd (alloc LockResult (Pending [] 0)) s)) as [res s1] eqn:Ho.
  simpl in *. autorewrite with heap in E. subst res.
  replace s1 with (obtain b (upd (alloc LockResult (Pending [] 0)) s)).2
    by (by rewrite Ho).
  apply wf_then_lock.
  - by apply wf_obtain, wf_alloc_lock.
  - apply obtain_tagged. simpl. autorewrite with heap. auto.
  - pose proof (obtain_result b (upd (alloc LockResult (Pending [] 0)) s)) as H.
    simpl in H. by autorewrite with heap in H.
Qed.

Lemma wf_call_mutex r s :
  wf s → (∀ p, r = Resolver p → fulfilled (rt s) (pred p) (Fn (Resolver p))) →
  wf (call r s).
Proof.
  intros W Hr. destruct r as [|p]; [done|]. specialize (Hr p eq_refl).
  split; simpl. all: wf_go.
Qed.

Lemma wf_give_back s a v : wf s → fulfilled (rt s) a v → wf (give_back v s).
Proof.
  intros W Hv. destruct v as [|r|[|r|]]; simpl; try done.
  - apply wf_call_mutex; [done|]. intros p ->.
    destruct (wf_fn s W a p Hv) as (_ & -> & _). done.
  - apply wf_call_mutex; [done|]. intros p ->.
    destruct (wf_guard s W a _ Hv) as (_ & Hv').
    destruct (wf_fn s W _ p Hv') as (_ & -> & _). done.
Qed.

(** What the shape says of the job at the front of the queue. *)
Definition job_ok (s : mutex) (k : job) : Prop :=
  match k with
  | ObtainResume r p =>
      p = S r ∧ tagged (rt s) p Turn ∧ tagged (rt s) r Result ∧
      ∀ t, tagged (rt s) t Turn → t < p → settled (rt s) t
  | LockResume l r =>
      settled (rt s) r ∧ r = S l ∧ tagged (rt s) l LockResult ∧
      tagged (rt s) r Result
  end.

Lemma wf_pop_mutex s k q :
  wf s → queue (rt s) = k :: q →
  wf (upd (set_queue q) s) ∧ job_ok (upd (set_queue q) s) k.
Proof.
  intros W Hq.
  assert (∀ j, j ∈ q → j ∈ queue (rt s)) as Hin.
  { intros j Hj. rewrite Hq. by apply list_elem_of_further. }
  assert (k ∈ queue (rt s)) as Hk by (rewrite Hq; apply list_elem_of_here).
  split.
  - split; simpl; intros; autorewrite with heap in *; break;
      repeat match goal with H : _ ∈ q |- _ => apply Hin in H end.
    all: wf_go.
  - destruct k as [r p|l r]; simpl; autorewrite with heap.
    + pose proof (wf_order_q s W r p) as Ho.
      sat; (repeat split; try done; intros t Ht Hlt; by apply Ho).
    + sat; done.
Qed.

Lemma wf_run_mutex s k : wf s → job_ok s k → wf (run k s).
Proof.
  intros W Hk. destruct k as [r p|l r]; simpl in *.
  - destruct Hk as (-> & Hp & Hr & Hord). split; simpl. all: wf_go.
  - destruct Hk as (Hs & -> & Hl & Hr).
    destruct Hs as (tg & [v|] & E); rewrite E.
    + assert (fulfilled (rt s) (S l) v) by (red; eauto).
      split; simpl. all: wf_go.
    + assert (rejected (rt s) (S l)) as Hrej by (red; eauto).
      destruct (wf_noerr s W _ Hrej).
Qed.

Lemma wf_exec_mutex o s : wf s → wf (exec o s).
Proof.
  intros W. destruct o; simpl.
  - by apply wf_obtain.
  - by apply wf_lock.
  - destruct (value_of s a) as [v|] eqn:E; [|done].
    apply value_of_fulfilled in E. by apply (wf_give_back s a).
  - destruct (queue (rt s)) as [|k q] eqn:Hq; [done|].
    destruct (wf_pop_mutex s k q W Hq). by apply wf_run_mutex.
Qed.

Lemma wf_run_ops_mutex ops s : wf s → wf (run_ops ops s).
Proof.
  intros W. induction ops as [|o ops IH] using rev_ind; [done|].
  rewrite run_ops_snoc_mutex. by apply wf_exec_mutex.
Qed.

Lemma reachable_wf_mutex s : reachable s → wf s.
Proof. intros [ops ->]. apply wf_run_ops_mutex, wf_new_mutex. Qed.

(** *** Mutual exclusion *)

(** The acquisition whose promise is [a] holds the lock through the chain
    promise [p]: [a] was fulfilled with the resolver of [p] (or, for
    [lock], with a guard whose dispose is that resolver), and [p] is still
    pending, so the release token has not been called. *)
Definition holds (s : mutex) (a p : nat) : Prop :=
  (fulfilled (rt s) a (Fn (Resolver p)) ∨
   fulfilled (rt s) a (Guard (Fn (Resolver p)))) ∧
  pending (rt s) p.

Lemma holds_result s a p :
  wf s → holds s a p →
  tagged (rt s) p Turn ∧ 0 < p ∧ settled (rt s) (pred p) ∧
  (a = pred p ∨ S a = pred p) ∧ pending (rt s) p.
Proof.
  intros W [[H|H] Hp].
  - sat. repeat split; auto with lia.
  - sat. repeat split; auto with lia.
Qed.

Lemma holds_same_turn s a1 p1 a2 p2 :
  wf s → holds s a1 p1 → holds s a2 p2 → p1 = p2.
Proof.
  intros W H1 H2.
  destruct (holds_result s a1 p1 W H1) as (Ht1 & ? & Hs1 & _ & Hp1).
  destruct (holds_result s a2 p2 W H2) as (Ht2 & ? & Hs2 & _ & Hp2).
  destruct (lt_eq_lt_dec p1 p2) as [[Hlt|]|Hlt]; [exfalso| done |exfalso].
  - pose proof (wf_order s W p2 p1 Ht2 (or_introl Hs2) Ht1 Hlt).
    by destruct (pending_not_settled (rt s) p1).
  - pose proof (wf_order s W p1 p2 Ht1 (or_introl Hs1) Ht2 Hlt).
    by destruct (pending_not_settled (rt s) p2).
Qed.

Lemma tagged_exec_mutex o s p t : tagged (rt s) p t → tagged (rt (exec o s)) p t.
Proof.
  intros H. destruct o; simpl.
  - by apply obtain_tagged.
  - unfold lock.
    pose proof (obtain_tagged bypass (upd (alloc LockResult (Pending [] 0)) s) p t) as Ho.
    destruct (obtain bypass (upd (alloc LockResult (Pending [] 0)) s)) as [res s1].
    simpl in *. autorewrite with heap in *. auto.
  - destruct (value_of s a) as [[|[|q]|[|[|q]|]]|]; simpl; try done.
    all: by autorewrite with heap.
  - destruct (queue (rt s)) as [|k q]; [done|].
    destruct k as [r q'|l r]; simpl; [by autorewrite with heap|].
    destruct (cells (rt s) !! r) as [[? [|[]]]|]; simpl; by autorewrite with heap.
Qed.

Lemma size_exec o s : size (rt s) ≤ size (rt (exec o s)).
Proof.
  destruct o; simpl.
  - unfold obtain. destruct bypass; simpl; autorewrite with heap; lia.
  - unfold lock, obtain. destruct bypass; simpl; autorewrite with heap; lia.
  - destruct (value_of s a) as [[|[|q]|[|[|q]|]]|]; simpl; try done.
    all: autorewrite with heap; lia.
  - destruct (queue (rt s)) as [|k q]; [done|].
    destruct k as [r q'|l r]; simpl; [autorewrite with heap; lia|].
    destruct (cells (rt s) !! r) as [[? [|[]]]|]; simpl; autorewrite with heap; lia.
Qed.

Lemma tagged_run_ops_mutex ops : ∀ s p t,
  tagged (rt s) p t → tagged (rt (run_ops ops s)) p t.
Proof.
  induction ops as [|o ops IH]; intros s p t H; [done|].
  simpl. by apply IH, tagged_exec_mutex.
Qed.

Lemma size_run_ops ops : ∀ s, size (rt s) ≤ size (rt (run_ops ops s)).
Proof.
  induction ops as [|o ops IH]; intros s; [done|].
  simpl. pose proof (size_exec o s). pose proof (IH (exec o s)). lia.
Qed.

(** No step fulfils the promise of a non-bypass [obtain] while some
    acquisition holds the lock. *)
Lemma no_grant_while_held o s a p r p' :
  wf s → holds s a p → pending (rt s) r →
  fulfilled (rt (exec o s)) r (Fn (Resolver p')) → False.
Proof.
  intros W Hh Hr.
  destruct (holds_result s a p W Hh) as (Ht & Hpos & Hs & _ & Hp).
  destruct o; simpl.
  - unfold obtain. destruct bypass; simpl; wf_go.
  - unfold lock, obtain. destruct bypass; simpl; wf_go.
  - destruct (value_of s a0) as [[|[|q]|[|[|q]|]]|]; simpl; wf_go.
  - destruct (queue (rt s)) as [|k q] eqn:Hq; [wf_go|].
    destruct (wf_pop_mutex s k q W Hq) as [W' Hk].
    destruct k as [r0 p0|l r0]; simpl in *.
    + destruct Hk as (E & Ht0 & Hr0 & Hord). subst p0.
      intros Hf. autorewrite with heap in Hf.
      destruct Hf as [Hf|(-> & _ & [= <-])].
      { apply fulfilled_settled in Hf. by destruct (pending_not_settled (rt s) r). }
      autorewrite with heap in *.
      destruct (lt_eq_lt_dec p (S r0)) as [[Hlt|Heq]|Hlt].
      * specialize (Hord p Ht Hlt). by destruct (pending_not_settled (rt s) p).
      * subst p. simpl in Hs. by destruct (pending_not_settled (rt s) r0).
      * pose proof (wf_order s W p (S r0) Ht (or_introl Hs) Ht0 Hlt) as Hs'.
        pose proof (wf_released s W (S r0) Ht0 Hs') as Hs''. simpl in Hs''.
        by destruct (pending_not_settled (rt s) r0).
    + destruct (cells (rt s) !! r0) as [[? [|[]]]|]; simpl; wf_go.
Qed.

(** C1: in every reachable state the acquisitions that hold the lock,
    through [obtain] or through [lock], all hold it through the same chain
    promise, and they are one call (a promise of [lock] and the promise of
    the [obtain] it made); and from a state in which some acquisition
    holds the lock, no operation and no job fulfils the pending promise of
    a non-bypass [obtain]. *)
Theorem mutual_exclusion s a1 p1 a2 p2 :
  reachable s → holds s a1 p1 → holds s a2 p2 →
  p1 = p2 ∧ (a1 = a2 ∨ a1 = S a2 ∨ a2 = S a1) ∧
  ∀ o r p', pending (rt s) r →
    ¬ fulfilled (rt (exec o s)) r (Fn (Resolver p')).
Proof.
  intros Hr H1 H2. apply reachable_wf_mutex in Hr as W.
  pose proof (holds_same_turn s a1 p1 a2 p2 W H1 H2) as ->.
  destruct (holds_result s a1 p2 W H1) as (_ & _ & _ & Ha1 & _).
  destruct (holds_result s a2 p2 W H2) as (_ & _ & _ & Ha2 & _).
  split; [done|]. split; [lia|].
  intros o r p' Hp Hf. by apply (no_grant_while_held o s a1 p2 r p').
Qed.

Lemma mutual_exclusion_witness :
  ¬ fulfilled
      (rt (exec OTick (run_ops [OObtain false; OObtain false; OTick] new_mutex)))
      3 (Fn (Resolver 4)).
Proof.
  refine (proj2 (proj2 (mutual_exclusion
    (run_ops [OObtain false; OObtain false; OTick] new_mutex) 1 2 1 2 _ _ _))
    OTick 3 4 _).
  - by eexists.
  - vm_compute. split; [left|]; eauto.
  - vm_compute. split; [left|]; eauto.
  - vm_compute. eauto.
Defined.

(** *** First come, first served *)

Lemma fifo_turns s a b :
  wf s → tagged (rt s) (S a) Turn → tagged (rt s) (S b) Turn → a < b →
  settled (rt s) b → settled (rt s) a ∧ settled (rt s) (S a).
Proof.
  intros W Ha Hb Hlt Hs.
  assert (settled (rt s) (S a)) as Hsa.
  { apply (wf_order s W (S b) (S a)); [done|by left|done|lia]. }
  split; [|done]. apply (wf_released s W (S a) Ha Hsa).
Qed.

Lemma obtain_turn s : tagged (rt (obtain false s).2) (S (size (rt s))) Turn.
Proof. simpl. autorewrite with heap. auto. Qed.

(** [obtain()] is called by A and later by B, with anything in between
    and after: whenever B's promise is settled, A's is, and the promise
    A's release token resolves is settled too: A was granted the lock and
    has given it back. *)
Lemma obtain_fifo s ops ops' :
  reachable s →
  settled (rt (run_ops ops' (obtain false (run_ops ops (obtain false s).2)).2))
    (obtain false (run_ops ops (obtain false s).2)).1 →
  settled (rt (run_ops ops' (obtain false (run_ops ops (obtain false s).2)).2))
    (obtain false s).1 ∧
  settled (rt (run_ops ops' (obtain false (run_ops ops (obtain false s).2)).2))
    (S (obtain false s).1).
Proof.
  intros Hr. apply reachable_wf_mutex in Hr as W.
  rewrite !obtain_fst.
  set (s1 := (obtain false s).2).
  set (s2 := run_ops ops s1).
  set (s3 := (obtain false s2).2).
  set (s4 := run_ops ops' s3).
  assert (wf s4) as W4.
  { apply wf_run_ops_mutex, wf_obtain, wf_run_ops_mutex, wf_obtain, W. }
  apply (fifo_turns s4 (size (rt s)) (size (rt s2)) W4).
  - apply tagged_run_ops_mutex, obtain_tagged, tagged_run_ops_mutex, obtain_turn.
  - apply tagged_run_ops_mutex, obtain_turn.
  - pose proof (size_run_ops ops s1). unfold s2.
    assert (size (rt s1) = S (S (size (rt s)))) as E.
    { unfold s1. simpl. by autorewrite with heap. }
    lia.
Qed.

(** *** Bypass *)

Lemma settle_fresh (h : heap job ptag value) tg o :
  settle (size h) o (alloc tg (Pending [] 0) h) =
    Heap (cells h ++ [Cell tg (Settled o)]) (queue h).
Proof.
  unfold settle. rewrite alloc_lookup_new. unfold alloc, size. simpl.
  rewrite app_nil_r. f_equal.
  rewrite insert_app_r_alt by done. by rewrite Nat.sub_diag.
Qed.

(** C9: [obtain(true)] returns a promise that is already fulfilled with
    [releaseStub]; it adds that promise to the store and changes nothing
    else: the queue, every other promise with its reactions, and
    [m_lastPromise] are as before, so the acquisitions that hold or wait
    are the same; calling the token, or giving the acquisition back,
    changes nothing. *)
Theorem bypass_leaves_lock_alone s :
  (obtain true s).1 = size (rt s) ∧
  cells (rt (obtain true s).2) =
    cells (rt s) ++ [Cell Result (Settled (Ok (Fn releaseStub)))] ∧
  queue (rt (obtain true s).2) = queue (rt s) ∧
  m_lastPromise (obtain true s).2 = m_lastPromise s ∧
  (∀ a p, holds (obtain true s).2 a p ↔ holds s a p) ∧
  (∀ k, inflight (rt (obtain true s).2) k ↔ inflight (rt s) k) ∧
  (∀ s', call releaseStub s' = s') ∧
  exec (ORelease (obtain true s).1) (obtain true s).2 = (obtain true s).2.
Proof.
  assert (rt (obtain true s).2 =
          Heap (cells (rt s) ++ [Cell Result (Settled (Ok (Fn releaseStub)))])
               (queue (rt s))) as E.
  { unfold obtain. simpl. by rewrite settle_fresh. }
  split; [done|]. split; [by rewrite E|]. split; [by rewrite E|].
  split; [done|].
  assert (∀ p, pending (rt (obtain true s).2) p ↔ pending (rt s) p) as Hpend.
  { intros p. simpl. autorewrite with heap. split.
    - intros [[?|[? _]] ?]; done.
    - intros Hp. pose proof (pending_lt _ _ Hp). split; [by left|lia]. }
  assert (∀ a v, v ≠ Fn releaseStub →
            fulfilled (rt (obtain true s).2) a v ↔ fulfilled (rt s) a v) as Hful.
  { intros a v Hv. simpl. autorewrite with heap. split; [|by auto].
    intros [[?|[_ ?]]|(_ & _ & ?)]; [done|done|congruence]. }
  split; [|split; [|split]].
  - intros a p. unfold holds. rewrite Hpend, !Hful by done. done.
  - intros k. unfold inflight. simpl. autorewrite with heap.
    assert (∀ p, reacts (settle (size (rt s)) (Ok (Fn releaseStub))
                            (alloc Result (Pending [] 0) (rt s))) p k ↔
                 reacts (rt s) p k) as Hre.
    { intros p. autorewrite with heap. split.
      - intros [[?|(-> & ? & ? & [= <- <-] & Hn)] ?]; [done|].
        by apply elem_of_nil in Hn.
      - intros Hp. pose proof (pending_lt _ _ (reacts_pending _ _ _ Hp)).
        split; [by left|lia]. }
    split.
    + intros [[?|Hq]|[p Hp]]; [by left| |right; exists p; by apply Hre].
      autorewrite with heap in Hq.
      destruct Hq as [Hq|(_ & ? & ? & [= <- <-] & Hq)];
        [right; eauto|by apply elem_of_nil in Hq].
    + intros [?|[p Hp]]; [by left; left|right; exists p; by apply Hre].
  - done.
  - rewrite obtain_fst. unfold exec, value_of. rewrite E.
    cbn [cells]. rewrite lookup_app_r by done.
    unfold size. by rewrite Nat.sub_diag.
Qed.

(** *** What the promises carry *)

(** No promise of the lock is ever rejected; a promise of [lock] is
    fulfilled only with a guard, whose dispose is the value the promise
    of the [obtain] it called was fulfilled with; and a promise fulfilled
    with a resolver is the promise of an [obtain] call, with the resolver
    of the chain promise that call made. *)
Theorem lock_returns_obtain_token s :
  reachable s →
  (∀ a, ¬ rejected (rt s) a) ∧
  (∀ l v, tagged (rt s) l LockResult → fulfilled (rt s) l v →
     ∃ v', v = Guard v' ∧ fulfilled (rt s) (S l) v') ∧
  (∀ a p, fulfilled (rt s) a (Fn (Resolver p)) →
     tagged (rt s) a Result ∧ p = S a ∧ tagged (rt s) p Turn).
Proof.
  intros Hr. apply reachable_wf_mutex in Hr as W. split; [|split].
  - intros a Ha. by apply (wf_noerr s W a).
  - intros l v Hl Hv. pose proof (wf_lock_val s W l v Hl Hv) as Hg.
    destruct v as [|r|v]; try done.
    destruct (wf_guard s W l v Hv) as [_ Hv']. eauto.
  - intros a p Ha. by apply (wf_fn s W).
Qed.

Lemma lock_returns_obtain_token_witness :
  ∃ v', Guard (Fn (Resolver 3)) = Guard v' ∧
        fulfilled (rt (run_ops [OLock false; OTick; OTick] new_mutex)) 2 v'.
Proof.
  apply (proj1 (proj2 (lock_returns_obtain_token
                         (run_ops [OLock false; OTick; OTick] new_mutex)
                         (ex_intro _ _ eq_refl))) 1).
  - vm_compute. eauto.
  - vm_compute. eauto.
Defined.
End Mutex.

(** ** MutexRW (src/unnamed/part_000, lines 87-173) *)

Module MutexRW.

Inductive release := releaseStub | Resolver (p : nat).

Inductive value := Undefined | Fn (r : release) | Guard (v : value).

(** The continuations and callbacks of the class:
    - [ROResume res]: [obtainRO] after [await this.m_lastRWPromise], back
      at the test of its loop;
    - [DecRO]: [() => --this.roAccessCnt];
    - [AllElem a]: an element of the [Promise.all] whose promise is [a]
      is fulfilled;
    - [RWResume res this]: [obtainRW] after [await prevRWPromise] or
      [await this.m_lastROPromise], at the test of its loop;
    - [ClearRW]: [() => (this.rwAccess = false)];
    - [LockResume l res]: [lockRO] or [lockRW] after its [await]. *)
Inductive job :=
  | ROResume (res : nat)
  | DecRO
  | AllElem (a : nat)
  | RWResume (res this : nat)
  | ClearRW
  | LockResume (l res : nat).

(** [Init]: the three [Promise.resolve()] of the field initialisers;
    [ResultRO], [ResultRW], [LockResult]: the promise of a call of
    [obtainRO], of [obtainRW], of [lockRO] or [lockRW]; [TokenRO]:
    [thisROPromise]; [TurnRW]: [thisRWPromise]; [Join]: a promise made by
    [Promise.all]. *)
Inductive ptag :=
  Init | ResultRO | ResultRW | LockResult | TokenRO | TurnRW | Join.

#[global] Instance release_eq_dec : EqDecision release.
Proof. solve_decision. Defined.
#[global] Instance value_eq_dec : EqDecision value.
Proof. solve_decision. Defined.
#[global] Instance job_eq_dec : EqDecision job.
Proof. solve_decision. Defined.
#[global] Instance ptag_eq_dec : EqDecision ptag.
Proof. solve_decision. Defined.

Record mutexrw := Mk {
  rt : heap job ptag value;
  m_nextRWPromise : nat;
  m_lastRWPromise : nat;
  m_lastROPromise : nat;
  roAccessCnt : Z;
  rwAccess : bool
}.

Definition upd (f : heap job ptag value → heap job ptag value) (s : mutexrw) : mutexrw :=
  Mk (f (rt s)) (m_nextRWPromise s) (m_lastRWPromise s) (m_lastROPromise s)
     (roAccessCnt s) (rwAccess s).

(** [new MutexRW()] *)
Definition new_mutexrw : mutexrw :=
  Mk (alloc Init (Settled (Ok Undefined))
       (alloc Init (Settled (Ok Undefined))
         (alloc Init (Settled (Ok Undefined)) (Heap [] []))))
     0 1 2 0 false.

(** [obtainRO] from line 103 on: the reader is admitted. *)
Definition ro_enter (res : nat) (s : mutexrw) : mutexrw :=
  let thisROPromise := size (rt s) in
  let h1 := alloc TokenRO (Pending [] 0) (rt s) in
  let all := size h1 in
  let h2 := alloc Join (Pending [] 2) h1 in
  let h3 := then_ thisROPromise (AllElem all) h2 in
  let h4 := then_ (m_lastROPromise s) (AllElem all) h3 in
  let h5 := then_ thisROPromise DecRO h4 in
  let h6 := settle res (Ok (Fn (Resolver thisROPromise))) h5 in
  Mk h6 (m_nextRWPromise s) (m_lastRWPromise s) all
     (roAccessCnt s + 1) (rwAccess s).

(** The loop of line 102, at its test. *)
Definition ro_loop (res : nat) (s : mutexrw) : mutexrw :=
  if rwAccess s then upd (then_ (m_lastRWPromise s) (ROResume res)) s
  else ro_enter res s.

(** [obtainRO()] up to its first suspension or its return. *)
Definition obtainRO (s : mutexrw) : nat * mutexrw :=
  let res := size (rt s) in
  (res, ro_loop res (upd (alloc ResultRO (Pending [] 0)) s)).

(** [obtainRW()] up to [await prevRWPromise]. *)
Definition obtainRW (s : mutexrw) : nat * mutexrw :=
  let res := size (rt s) in
  let h0 := alloc ResultRW (Pending [] 0) (rt s) in
  let prevRWPromise := m_nextRWPromise s in
  let thisRWPromise := size h0 in
  let h1 := alloc TurnRW (Pending [] 0) h0 in
  (res, Mk (then_ prevRWPromise (RWResume res thisRWPromise) h1)
           thisRWPromise (m_lastRWPromise s) (m_lastROPromise s)
           (roAccessCnt s) (rwAccess s)).

(** The loop of line 148, at its test, and lines 149-152. *)
Definition rw_loop (res this : nat) (s : mutexrw) : mutexrw :=
  if decide (roAccessCnt s = 0%Z) then
    let h1 := then_ this ClearRW (rt s) in
    let h2 := settle res (Ok (Fn (Resolver this))) h1 in
    Mk h2 (m_nextRWPromise s) this (m_lastROPromise s) (roAccessCnt s) true
  else upd (then_ (m_lastROPromise s) (RWResume res this)) s.

(** [lockRO()] and [lockRW()] up to their suspension. *)
Definition lockRO (s : mutexrw) : nat * mutexrw :=
  let l := size (rt s) in
  let '(res, s1) := obtainRO (upd (alloc LockResult (Pending [] 0)) s) in
  (l, upd (then_ res (LockResume l res)) s1).

Definition lockRW (s : mutexrw) : nat * mutexrw :=
  let l := size (rt s) in
  let '(res, s1) := obtainRW (upd (alloc LockResult (Pending [] 0)) s) in
  (l, upd (then_ res (LockResume l res)) s1).

Definition call (r : release) (s : mutexrw) : mutexrw :=
  match r with
  | releaseStub => s
  | Resolver p => upd (settle p (Ok Undefined)) s
  end.

Definition give_back (v : value) (s : mutexrw) : mutexrw :=
  match v with
  | Fn r | Guard (Fn r) => call r s
  | _ => s
  end.

Definition value_of (s : mutexrw) (a : nat) : option value :=
  match cells (rt s) !! a with
  | Some (Cell _ (Settled (Ok v))) => Some v
  | _ => None
  end.

(** One job of the queue. *)
Definition run (k : job) (s : mutexrw) : mutexrw :=
  match k with
  | ROResume res => ro_loop res s
  | DecRO =>
      Mk (rt s) (m_nextRWPromise s) (m_lastRWPromise s) (m_lastROPromise s)
         (roAccessCnt s - 1) (rwAccess s)
  | AllElem a => upd (element_done a Undefined) s
  | RWResume res this => rw_loop res this s
  | ClearRW =>
      Mk (rt s) (m_nextRWPromise s) (m_lastRWPromise s) (m_lastROPromise s)
         (roAccessCnt s) false
  | LockResume l res =>
      match cells (rt s) !! res with
      | Some (Cell _ (Settled (Ok v))) => upd (settle l (Ok (Guard v))) s
      | Some (Cell _ (Settled Err)) => upd (settle l Err) s
      | _ => s
      end
  end.

Inductive op :=
  | OObtainRO
  | OObtainRW
  | OLockRO
  | OLockRW
  | ORelease (a : nat)
  | OTick.

Definition exec (o : op) (s : mutexrw) : mutexrw :=
  match o with
  | OObtainRO => (obtainRO s).2
  | OObtainRW => (obtainRW s).2
  | OLockRO => (lockRO s).2
  | OLockRW => (lockRW s).2
  | ORelease a =>
      match value_of s a with
      | Some v => give_back v s
      | None => s
      end
  | OTick =>
      match queue (rt s) with
      | [] => s
      | k :: q => run k (upd (set_queue q) s)
      end
  end.

Definition run_ops (ops : list op) (s : mutexrw) : mutexrw :=
  fold_left (λ s o, exec o s) ops s.

Definition reachable (s : mutexrw) : Prop := ∃ ops, s = run_ops ops new_mutexrw.

Lemma run_ops_snoc_rw ops o s : run_ops (ops ++ [o]) s = exec o (run_ops ops s).
Proof. unfold run_ops. by rewrite fold_left_app. Qed.

(** *** The two fields *)

Definition exclusive (s : mutexrw) : Prop :=
  ¬ (rwAccess s = true ∧ (0 < roAccessCnt s)%Z).

Lemma exclusive_ro_loop res s : exclusive s → exclusive (ro_loop res s).
Proof.
  intros H. unfold ro_loop. destruct (rwAccess s) eqn:E; [exact H|].
  unfold exclusive. simpl. rewrite E. by intros [? _].
Qed.

Lemma exclusive_upd f s : exclusive s → exclusive (upd f s).
Proof. done. Qed.

Lemma exclusive_call r s : exclusive s → exclusive (call r s).
Proof. by destruct r. Qed.

Lemma exclusive_run k s : exclusive s → exclusive (run k s).
Proof.
  intros H. destruct k as [res| |a|res this| |l res]; simpl.
  - by apply exclusive_ro_loop.
  - unfold exclusive in *. simpl. intros [? ?]. apply H. split; [done|lia].
  - done.
  - unfold rw_loop. case_decide as E; [|done].
    unfold exclusive. simpl. rewrite E. intros [_ ?]. lia.
  - unfold exclusive. simpl. by intros [? _].
  - by destruct (cells (rt s) !! res) as [[? [|[]]]|].
Qed.

Lemma exclusive_exec o s : exclusive s → exclusive (exec o s).
Proof.
  intros H. destruct o; simpl.
  - by apply exclusive_ro_loop.
  - done.
  - unfold lockRO, obtainRO. simpl.
    by apply exclusive_upd, exclusive_ro_loop.
  - done.
  - destruct (value_of s a) as [[|r|[|r|]]|]; try done.
    all: by apply exclusive_call.
  - destruct (queue (rt s)) as [|k q]; [done|]. by apply exclusive_run.
Qed.

Lemma roAccessCnt_ro_enter res s :
  roAccessCnt (ro_enter res s) = (roAccessCnt s + 1)%Z.
Proof. done. Qed.

Lemma reachable_exclusive s : reachable s → exclusive s.
Proof.
  intros [ops ->]. induction ops as [|o ops IH] using rev_ind.
  - unfold exclusive. simpl. by intros [? _].
  - rewrite run_ops_snoc_rw. by apply exclusive_exec.
Qed.

(** [n] calls of [obtainRO] on a new lock. *)
Lemma readers_overlap n :
  size (rt (run_ops (replicate n OObtainRO) new_mutexrw)) = 3 + 3 * n ∧
  rwAccess (run_ops (replicate n OObtainRO) new_mutexrw) = false ∧
  roAccessCnt (run_ops (replicate n OObtainRO) new_mutexrw) = Z.of_nat n ∧
  ∀ i, i < n →
    fulfilled (rt (run_ops (replicate n OObtainRO) new_mutexrw))
      (3 + 3 * i) (Fn (Resolver (4 + 3 * i))) ∧
    pending (rt (run_ops (replicate n OObtainRO) new_mutexrw)) (4 + 3 * i).
Proof.
  induction n as [|n (Hsz & Hrw & Hcnt & Hread)].
  - repeat split; try (by vm_compute); intros; lia.
  - replace (replicate (S n) OObtainRO) with (replicate n OObtainRO ++ [OObtainRO])
      by (by rewrite <- replicate_S_end).
    rewrite run_ops_snoc_rw.
    set (s := run_ops (replicate n OObtainRO) new_mutexrw) in *.
    unfold exec, obtainRO, ro_loop. simpl. rewrite Hrw.
    unfold ro_enter. simpl. autorewrite with heap. rewrite Hsz.
    repeat split; try lia; try done.
    + autorewrite with heap. rewrite Hsz.
      destruct (decide (i = n)) as [->|Hne].
      * right. split; [lia|]. split; [|repeat f_equal; lia].
        do 2 left. right. split; [done|eauto].
      * do 4 left. apply (Hread i). lia.
    + autorewrite with heap. rewrite Hsz.
      destruct (decide (i = n)) as [->|Hne].
      * split; [|lia]. left. right. split; [lia|eauto].
      * split; [|lia]. do 3 left. apply (Hread i). lia.
Qed.

(** C2: in every reachable state [rwAccess] and [roAccessCnt > 0] are not
    both true; and any number of readers can hold at once: after [n]
    calls of [obtainRO] on a new lock the count is [n], and each of the
    [n] promises is fulfilled with a release token that is still
    uncalled. *)
Theorem flag_and_count_exclusive :
  (∀ s, reachable s → ¬ (rwAccess s = true ∧ (0 < roAccessCnt s)%Z)) ∧
  (∀ n,
     reachable (run_ops (replicate n OObtainRO) new_mutexrw) ∧
     roAccessCnt (run_ops (replicate n OObtainRO) new_mutexrw) = Z.of_nat n ∧
     ∀ i, i < n →
       fulfilled (rt (run_ops (replicate n OObtainRO) new_mutexrw))
         (3 + 3 * i) (Fn (Resolver (4 + 3 * i))) ∧
       pending (rt (run_ops (replicate n OObtainRO) new_mutexrw)) (4 + 3 * i)).
Proof.
  split.
  - intros s Hr. by apply reachable_exclusive.
  - intros n. split; [by eexists|].
    destruct (readers_overlap n) as (_ & _ & ? & ?). done.
Qed.

Lemma flag_and_count_exclusive_witness :
  ¬ (rwAccess (run_ops [OObtainRO; OObtainRW; OObtainRO; OTick; ORelease 3;
                         OTick; OTick; OTick] new_mutexrw) = true ∧
     (0 < roAccessCnt (run_ops [OObtainRO; OObtainRW; OObtainRO; OTick;
                                ORelease 3; OTick; OTick; OTick] new_mutexrw))%Z).
Proof.
  apply (proj1 flag_and_count_exclusive). by eexists.
Defined.

(** *** Shape of the reachable states *)

Definition is_fn (v : value) : Prop :=
  match v with Fn _ => True | _ => False end.
Definition is_guard (v : value) : Prop :=
  match v with Guard _ => True | _ => False end.

Record wf (s : mutexrw) : Prop := {
  wf_next_lt : m_nextRWPromise s < size (rt s);
  wf_next : pending (rt s) (m_nextRWPromise s) →
    tagged (rt s) (m_nextRWPromise s) TurnRW;
  wf_next_max : ∀ t, tagged (rt s) t TurnRW →
    t ≤ m_nextRWPromise s ∧ tagged (rt s) (m_nextRWPromise s) TurnRW;
  wf_lastRW_lt : m_lastRWPromise s < size (rt s);
  wf_lastRW : pending (rt s) (m_lastRWPromise s) →
    tagged (rt s) (m_lastRWPromise s) TurnRW;
  wf_lastRO_lt : m_lastROPromise s < size (rt s);
  wf_lastRO : pending (rt s) (m_lastROPromise s) →
    tagged (rt s) (m_lastROPromise s) Join;
  wf_init : ∀ p, tagged (rt s) p Init → settled (rt s) p;
  wf_turn : ∀ t, tagged (rt s) t TurnRW →
    0 < t ∧ tagged (rt s) (pred t) ResultRW;
  wf_fn : ∀ a p, fulfilled (rt s) a (Fn (Resolver p)) →
    (tagged (rt s) a ResultRW ∧ p = S a ∧ tagged (rt s) p TurnRW) ∨
    (tagged (rt s) a ResultRO ∧ tagged (rt s) p TokenRO);
  wf_guard : ∀ a v, fulfilled (rt s) a (Guard v) →
    tagged (rt s) a LockResult ∧ fulfilled (rt s) (S a) v;
  wf_noerr : ∀ a, rejected (rt s) a → False;
  wf_released : ∀ t, tagged (rt s) t TurnRW → settled (rt s) t →
    settled (rt s) (pred t);
  wf_order : ∀ t' t, tagged (rt s) t' TurnRW → settled (rt s) (pred t') →
    tagged (rt s) t TurnRW → t < t' → settled (rt s) t;
  wf_rw_r : ∀ x r p, reacts (rt s) x (RWResume r p) →
    p = S r ∧ tagged (rt s) p TurnRW ∧ tagged (rt s) r ResultRW ∧
    (tagged (rt s) x TurnRW ∧ x < r ∨ tagged (rt s) x Join);
  wf_rw_pred : ∀ x r p t, reacts (rt s) x (RWResume r p) →
    tagged (rt s) x TurnRW → tagged (rt s) t TurnRW → t < p → t ≤ x;
  wf_rw_past : ∀ x r p t, reacts (rt s) x (RWResume r p) →
    tagged (rt s) x Join → tagged (rt s) t TurnRW → t < p → settled (rt s) t;
  wf_rw_q : ∀ r p, RWResume r p ∈ queue (rt s) →
    p = S r ∧ tagged (rt s) p TurnRW ∧ tagged (rt s) r ResultRW;
  wf_rw_q_ord : ∀ r p t, RWResume r p ∈ queue (rt s) →
    tagged (rt s) t TurnRW → t < p → settled (rt s) t;
  wf_ro_r : ∀ x r, reacts (rt s) x (ROResume r) →
    tagged (rt s) r ResultRO ∧ tagged (rt s) x TurnRW;
  wf_ro_q : ∀ r, ROResume r ∈ queue (rt s) → tagged (rt s) r ResultRO;
  wf_all_r : ∀ x a, reacts (rt s) x (AllElem a) →
    tagged (rt s) a Join ∧ (tagged (rt s) x TokenRO ∨ tagged (rt s) x Join);
  wf_all_q : ∀ a, AllElem a ∈ queue (rt s) → tagged (rt s) a Join;
  wf_dec_r : ∀ x, reacts (rt s) x DecRO → tagged (rt s) x TokenRO;
  wf_clear_r : ∀ x, reacts (rt s) x ClearRW → tagged (rt s) x TurnRW;
  wf_lock_r : ∀ a l r, reacts (rt s) a (LockResume l r) →
    a = r ∧ r = S l ∧ tagged (rt s) l LockResult ∧
    (tagged (rt s) r ResultRO ∨ tagged (rt s) r ResultRW);
  wf_lock_q : ∀ l r, LockResume l r ∈ queue (rt s) →
    settled (rt s) r ∧ r = S l ∧ tagged (rt s) l LockResult ∧
    (tagged (rt s) r ResultRO ∨ tagged (rt s) r ResultRW)
}.

Ltac learn H :=
  let T := type of H in
  match goal with
  | _ : seen T |- _ => fail 1
  | _ => pose proof H; assert (seen T) by exact I
  end.

Ltac break :=
  repeat (simplify_eq; match goal with
  | H : _ ∧ _ |- _ => destruct H
  | H : ∃ _, _ |- _ => destruct H
  | H : _ ∨ _ |- _ => destruct H
  | H : False |- _ => destruct H
  | H : _ ∈ [] |- _ => apply elem_of_nil in H
  | H : _ ∈ _ ++ _ |- _ => apply elem_of_app in H
  | H : _ ∈ _ :: _ |- _ => apply elem_of_cons in H
  | H : context [Init.Nat.pred (S _)] |- _ =>
      lazymatch type of H with
      | seen _ => fail
      | _ => progress (simpl in H)
      end
  | |- context [Init.Nat.pred (S _)] => progress simpl
  end); simplify_eq.

Ltac use_wf :=
  repeat match goal with
  | H : tagged ?h ?p ?t1, H' : tagged ?h ?p ?t2 |- _ =>
      assert_fails (unify t1 t2);
      learn (tagged_inj h p t1 t2 H H')
  | H : pending ?h ?p, H' : settled ?h ?p |- _ =>
      destruct (pending_not_settled h p H H')
  | W : wf ?s, H : rejected (rt ?s) ?a |- _ => destruct (wf_noerr s W a H)
  | W : wf ?s |- _ => learn (wf_next_lt s W)
  | W : wf ?s |- _ => learn (wf_lastRW_lt s W)
  | W : wf ?s |- _ => learn (wf_lastRO_lt s W)
  | W : wf ?s, H : pending (rt ?s) (m_nextRWPromise ?s) |- _ =>
      learn (wf_next s W H)
  | W : wf ?s, H : pending (rt ?s) (m_lastRWPromise ?s) |- _ =>
      learn (wf_lastRW s W H)
  | W : wf ?s, H : pending (rt ?s) (m_lastROPromise ?s) |- _ =>
      learn (wf_lastRO s W H)
  | W : wf ?s, H : tagged (rt ?s) ?t TurnRW |- _ => learn (wf_next_max s W t H)
  | W : wf ?s, H : tagged (rt ?s) ?p Init |- _ => learn (wf_init s W p H)
  | W : wf ?s, H : tagged (rt ?s) ?t TurnRW |- _ => learn (wf_turn s W t H)
  | W : wf ?s, H : fulfilled (rt ?s) ?a (Fn (Resolver ?p)) |- _ =>
      learn (wf_fn s W a p H)
  | W : wf ?s, H : fulfilled (rt ?s) ?a (Guard ?v) |- _ =>
      learn (wf_guard s W a v H)
  | W : wf ?s, H : tagged (rt ?s) ?t TurnRW, H' : settled (rt ?s) ?t |- _ =>
      learn (wf_released s W t H H')
  | W : wf ?s, H : reacts (rt ?s) ?x (RWResume ?r ?p) |- _ =>
      learn (wf_rw_r s W x r p H)
  | W : wf ?s, H : RWResume ?r ?p ∈ queue (rt ?s) |- _ =>
      learn (wf_rw_q s W r p H)
  | W : wf ?s, H : reacts (rt ?s) ?x (ROResume ?r) |- _ =>
      learn (wf_ro_r s W x r H)
  | W : wf ?s, H : ROResume ?r ∈ queue (rt ?s) |- _ =>
      learn (wf_ro_q s W r H)
  | W : wf ?s, H : reacts (rt ?s) ?x (AllElem ?a) |- _ =>
      learn (wf_all_r s W x a H)
  | W : wf ?s, H : AllElem ?a ∈ queue (rt ?s) |- _ =>
      learn (wf_all_q s W a H)
  | W : wf ?s, H : reacts (rt ?s) ?x DecRO |- _ => learn (wf_dec_r s W x H)
  | W : wf ?s, H : reacts (rt ?s) ?x ClearRW |- _ => learn (wf_clear_r s W x H)
  | W : wf ?s, H : reacts (rt ?s) ?a (LockResume ?l ?r) |- _ =>
      learn (wf_lock_r s W a l r H)
  | W : wf ?s, H : LockResume ?l ?r ∈ queue (rt ?s) |- _ =>
      learn (wf_lock_q s W l r H)
  | H : is_fn ?v |- _ => is_var v; destruct v; try destruct H
  | H : is_guard ?v |- _ => is_var v; destruct v; try destruct H
  | H : tagged ?h ?p _ |- _ => learn (tagged_lt h p _ H)
  | H : pending ?h ?p |- _ => learn (pending_lt h p H)
  | H : settled ?h ?p |- _ => learn (settled_lt h p H)
  | H : fulfilled ?h ?p ?v |- _ => learn (fulfilled_settled h p v H)
  | H : reacts ?h ?p ?k |- _ => learn (reacts_pending h p k H)
  | H : remaining ?h ?p ?m |- _ => learn (remaining_pending h p m H)
  | H : fulfilled ?h ?p ?v1, H' : fulfilled ?h ?p ?v2 |- _ =>
      assert_fails (unify v1 v2);
      learn (fulfilled_inj h p v1 v2 H H')
  end.

Ltac use_ord :=
  repeat match goal with
  | H : ∀ t, tagged ?h t TurnRW → t < ?p → settled ?h t,
    H' : tagged ?h ?t TurnRW |- _ => learn (H t H')
  | W : wf ?s, H : tagged (rt ?s) ?t' TurnRW, H' : settled (rt ?s) (pred ?t'),
    H'' : tagged (rt ?s) ?t TurnRW |- _ =>
      learn (wf_order s W t' t H H' H'')
  | W : wf ?s, H : RWResume ?r ?p ∈ queue (rt ?s),
    H'' : tagged (rt ?s) ?t TurnRW |- _ =>
      learn (wf_rw_q_ord s W r p t H H'')
  | W : wf ?s, H : reacts (rt ?s) ?x (RWResume ?r ?p),
    H' : tagged (rt ?s) ?x TurnRW, H'' : tagged (rt ?s) ?t TurnRW |- _ =>
      learn (wf_rw_pred s W x r p t H H' H'')
  | W : wf ?s, H : reacts (rt ?s) ?x (RWResume ?r ?p),
    H' : tagged (rt ?s) ?x Join, H'' : tagged (rt ?s) ?t TurnRW |- _ =>
      learn (wf_rw_past s W x r p t H H' H'')
  | H : ?a < ?b → _ |- _ =>
      let L := fresh in assert (a < b) as L by lia; specialize (H L)
  | H : ?a < ?b → _ |- _ =>
      let L := fresh in assert (¬ a < b) as L by lia; clear H L
  end.

Ltac split_lt :=
  match goal with
  | H : ?a < ?b → _ |- _ =>
      let L := fresh in
      destruct (decide (a < b)) as [L|L];
      [specialize (H L)
      |clear H; try (assert (a = b) by lia; simplify_eq/=)]
  end.

Ltac sat := repeat (progress (use_wf; break)).
Ltac sat_ord := repeat (progress (use_wf; use_ord; break)).
Ltac finish :=
  try lia; try done; try (intuition (eauto; lia));
  repeat split; eauto; try lia;
  try (intros ?; simplify_eq; sat).

Ltac wf_go :=
  intros; autorewrite with heap in *; break;
  autorewrite with heap in *; break;
  sat; try solve [finish];
  sat_ord; try solve [finish];
  try (split_lt; sat_ord; try solve [finish];
       try (split_lt; sat_ord));
  finish.

Lemma wf_new_rw : wf new_mutexrw.
Proof.
  split; unfold new_mutexrw; simpl; intros.
  all: autorewrite with heap in *;
    unfold pending, settled, fulfilled, rejected, tagged, reacts, size in *;
    simpl in *; break; eauto 10.
  all: try lia.
  all: try (match goal with H : _ !! _ = Some _ |- _ => by destruct p end).
Qed.

Lemma wf_alloc s tg :
  tg = ResultRO ∨ tg = LockResult →
  wf s → wf (upd (alloc tg (Pending [] 0)) s).
Proof. intros Htg W. split; simpl. all: wf_go. Qed.

Lemma wf_ro_enter s res :
  wf s → tagged (rt s) res ResultRO → rwAccess s = false →
  wf (ro_enter res s).
Proof. intros W Hres Hrw. split; simpl. all: wf_go. Qed.

Lemma wf_ro_loop s res :
  wf s → tagged (rt s) res ResultRO → wf (ro_loop res s).
Proof.
  intros W Hres. unfold ro_loop. destruct (rwAccess s) eqn:E.
  - split; simpl. all: wf_go.
  - by apply wf_ro_enter.
Qed.

Lemma wf_obtainRO s : wf s → wf (obtainRO s).2.
Proof.
  intros W. simpl. apply wf_ro_loop.
  - apply wf_alloc; auto.
  - simpl. autorewrite with heap. auto.
Qed.

Lemma wf_obtainRW s : wf s → wf (obtainRW s).2.
Proof. intros W. split; simpl. all: wf_go. Qed.

Lemma wf_then_lock_rw s l :
  wf s → tagged (rt s) l LockResult →
  tagged (rt s) (S l) ResultRO ∨ tagged (rt s) (S l) ResultRW →
  wf (upd (then_ (S l) (LockResume l (S l))) s).
Proof. intros W Hl Hr. split; simpl. all: wf_go. Qed.

Lemma obtainRO_tagged s p t :
  tagged (rt s) p t → tagged (rt (obtainRO s).2) p t.
Proof.
  intros H. unfold obtainRO, ro_loop, ro_enter. simpl.
  destruct (rwAccess s); simpl; autorewrite with heap; auto 10.
Qed.
Lemma obtainRO_result s : tagged (rt (obtainRO s).2) (size (rt s)) ResultRO.
Proof.
  unfold obtainRO, ro_loop, ro_enter. simpl.
  destruct (rwAccess s); simpl; autorewrite with heap; auto 10.
Qed.

Lemma wf_lockRO s : wf s → wf (lockRO s).2.
Proof.
  intros W. unfold lockRO.
  set (s0 := upd (alloc LockResult (Pending [] 0)) s).
  assert (wf s0) as W0 by (apply wf_alloc; auto).
  assert (size (rt s0) = S (size (rt s))) as E
    by (unfold s0; simpl; by autorewrite with heap).
  change (obtainRO s0) with (size (rt s0), (obtainRO s0).2).
  cbn [snd]. rewrite E.
  apply wf_then_lock_rw.
  - by apply wf_obtainRO.
  - apply obtainRO_tagged. unfold s0. simpl. autorewrite with heap. auto.
  - left. pose proof (obtainRO_result s0) as H. by rewrite E in H.
Qed.

Lemma wf_lockRW s : wf s → wf (lockRW s).2.
Proof.
  intros W. unfold lockRW.
  set (s0 := upd (alloc LockResult (Pending [] 0)) s).
  assert (wf s0) as W0 by (apply wf_alloc; auto).
  assert (size (rt s0) = S (size (rt s))) as E
    by (unfold s0; simpl; by autorewrite with heap).
  change (obtainRW s0) with (size (rt s0), (obtainRW s0).2).
  cbn [snd]. rewrite E.
  apply wf_then_lock_rw.
  - by apply wf_obtainRW.
  - simpl. autorewrite with heap. auto 10.
  - right. simpl. autorewrite with heap. auto 10.
Qed.

Lemma wf_call_rw r s :
  wf s →
  (∀ p, r = Resolver p →
     tagged (rt s) p TurnRW ∧ settled (rt s) (pred p) ∨
     tagged (rt s) p TokenRO) →
  wf (call r s).
Proof.
  intros W Hr. destruct r as [|p]; [done|]. specialize (Hr p eq_refl).
  split; simpl. all: wf_go.
Qed.

Lemma wf_give_back_rw s a v : wf s → fulfilled (rt s) a v → wf (give_back v s).
Proof.
  intros W Hv. destruct v as [|r|[|r|]]; simpl; try done.
  - apply wf_call_rw; [done|]. intros p ->. sat; auto.
  - apply wf_call_rw; [done|]. intros p ->. sat; auto.
Qed.

Definition job_ok (s : mutexrw) (k : job) : Prop :=
  match k with
  | ROResume r => tagged (rt s) r ResultRO
  | DecRO | ClearRW => True
  | AllElem a => tagged (rt s) a Join
  | RWResume r p =>
      p = S r ∧ tagged (rt s) p TurnRW ∧ tagged (rt s) r ResultRW ∧
      ∀ t, tagged (rt s) t TurnRW → t < p → settled (rt s) t
  | LockResume l r =>
      settled (rt s) r ∧ r = S l ∧ tagged (rt s) l LockResult ∧
      (tagged (rt s) r ResultRO ∨ tagged (rt s) r ResultRW)
  end.

Lemma wf_fields s n1 n2 n3 c b :
  wf s → n1 = m_nextRWPromise s → n2 = m_lastRWPromise s →
  n3 = m_lastROPromise s → wf (Mk (rt s) n1 n2 n3 c b).
Proof. intros [] -> -> ->. by split. Qed.

Lemma wf_pop_rw s k q :
  wf s → queue (rt s) = k :: q →
  wf (upd (set_queue q) s) ∧ job_ok (upd (set_queue q) s) k.
Proof.
  intros W Hq.
  assert (∀ j, j ∈ q → j ∈ queue (rt s)) as Hin.
  { intros j Hj. rewrite Hq. by apply list_elem_of_further. }
  assert (k ∈ queue (rt s)) as Hk by (rewrite Hq; apply list_elem_of_here).
  split.
  - split; simpl; intros; autorewrite with heap in *; break;
      repeat match goal with H : _ ∈ q |- _ => apply Hin in H end.
    all: wf_go.
  - destruct k as [r| |a|r p| |l r]; simpl; autorewrite with heap; try done.
    + sat; done.
    + sat; done.
    + pose proof (wf_rw_q_ord s W r p) as Ho.
      sat; (repeat split; try done; intros t Ht Hlt; by apply Ho).
    + sat; auto.
Qed.

Lemma wf_rw_loop s r p :
  wf s → job_ok s (RWResume r p) → wf (rw_loop r p s).
Proof.
  intros W (-> & Hp & Hr & Hord). unfold rw_loop. case_decide.
  - split; simpl. all: wf_go.
  - split; simpl. all: wf_go.
Qed.

Lemma wf_element_done s a :
  wf s → tagged (rt s) a Join → wf (upd (element_done a Undefined) s).
Proof.
  intros W Ha.
  destruct (element_done_cases a Undefined (rt s))
    as [[Hlast E]|(_ & Hq & Hsz & Hobs)].
  - unfold upd. rewrite E. split; simpl. all: wf_go.
  - pose proof (λ q, proj1 (Hobs q)) as Htag.
    pose proof (λ q, proj1 (proj2 (Hobs q))) as Hpend.
    pose proof (λ q, proj1 (proj2 (proj2 (Hobs q)))) as Hset.
    pose proof (λ q, proj1 (proj2 (proj2 (proj2 (Hobs q))))) as Hful.
    pose proof (λ q, proj1 (proj2 (proj2 (proj2 (proj2 (Hobs q)))))) as Hrej.
    pose proof (λ q, proj1 (proj2 (proj2 (proj2 (proj2 (proj2 (Hobs q))))))) as Hrea.
    clear Hobs.
    destruct W. split; simpl; intros;
      rewrite ?Hq, ?Hsz, ?Htag, ?Hpend, ?Hset, ?Hful, ?Hrej, ?Hrea in *; eauto.
Qed.

Lemma wf_run_rw s k : wf s → job_ok s k → wf (run k s).
Proof.
  intros W Hk. destruct k as [r| |a|r p| |l r]; simpl in *.
  - by apply wf_ro_loop.
  - by apply wf_fields.
  - by apply wf_element_done.
  - by apply wf_rw_loop.
  - by apply wf_fields.
  - destruct Hk as (Hs & -> & Hl & Hr).
    destruct Hs as (tg & [v|] & E); rewrite E.
    + assert (fulfilled (rt s) (S l) v) by (red; eauto).
      split; simpl. all: wf_go.
    + assert (rejected (rt s) (S l)) as Hrej by (red; eauto).
      destruct (wf_noerr s W _ Hrej).
Qed.

Lemma value_of_fulfilled_rw s a v : value_of s a = Some v ↔ fulfilled (rt s) a v.
Proof.
  unfold value_of, fulfilled.
  destruct (cells (rt s) !! a) as [[t [rs n|[v'|]]]|]; split; try done.
  - intros (?&?); done.
  - intros [= ->]; eauto.
  - intros (?&[= -> ->]); done.
  - intros (?&?); done.
  - intros (?&?); done.
Qed.

Lemma wf_exec_rw o s : wf s → wf (exec o s).
Proof.
  intros W. destruct o; simpl.
  - by apply wf_obtainRO.
  - by apply wf_obtainRW.
  - by apply wf_lockRO.
  - by apply wf_lockRW.
  - destruct (value_of s a) as [v|] eqn:E; [|done].
    apply value_of_fulfilled_rw in E. by apply (wf_give_back_rw s a).
  - destruct (queue (rt s)) as [|k q] eqn:Hq; [done|].
    destruct (wf_pop_rw s k q W Hq). by apply wf_run_rw.
Qed.

Lemma wf_run_ops_rw ops s : wf s → wf (run_ops ops s).
Proof.
  intros W. induction ops as [|o ops IH] using rev_ind; [done|].
  rewrite run_ops_snoc_rw. by apply wf_exec_rw.
Qed.

Lemma reachable_wf_rw s : reachable s → wf s.
Proof. intros [ops ->]. apply wf_run_ops_rw, wf_new_rw. Qed.

(** *** Writers, first come, first served *)

Lemma fifo_turns_rw s a b :
  wf s → tagged (rt s) (S a) TurnRW → tagged (rt s) (S b) TurnRW → a < b →
  settled (rt s) b → settled (rt s) a ∧ settled (rt s) (S a).
Proof.
  intros W Ha Hb Hlt Hs.
  assert (settled (rt s) (S a)) as Hsa.
  { apply (wf_order s W (S b) (S a)); [done|done|done|lia]. }
  split; [|done]. apply (wf_released s W (S a) Ha Hsa).
Qed.

Lemma ro_loop_tagged res s p t :
  tagged (rt s) p t → tagged (rt (ro_loop res s)) p t.
Proof.
  intros H. unfold ro_loop, ro_enter. simpl.
  destruct (rwAccess s); simpl; autorewrite with heap; auto 10.
Qed.

Lemma tagged_exec_rw o s p t : tagged (rt s) p t → tagged (rt (exec o s)) p t.
Proof.
  intros H. destruct o; simpl.
  - by apply obtainRO_tagged.
  - autorewrite with heap. auto.
  - autorewrite with heap.
    apply ro_loop_tagged. simpl. autorewrite with heap. auto.
  - autorewrite with heap. auto.
  - destruct (value_of s a) as [[|[|q]|[|[|q]|]]|]; simpl; try done.
    all: by autorewrite with heap.
  - destruct (queue (rt s)) as [|k q]; [done|].
    destruct k as [r| |a|r q'| |l r]; simpl; try done.
    + unfold ro_loop, ro_enter. simpl.
      destruct (rwAccess s); simpl; autorewrite with heap; auto 10.
    + by autorewrite with heap.
    + unfold rw_loop. case_decide; simpl; by autorewrite with heap.
    + destruct (cells (rt s) !! r) as [[? [|[]]]|]; simpl; by autorewrite with heap.
Qed.

Lemma size_exec_rw o s : size (rt s) ≤ size (rt (exec o s)).
Proof.
  destruct o; simpl.
  - unfold ro_loop, ro_enter. simpl.
    destruct (rwAccess s); simpl; autorewrite with heap; lia.
  - autorewrite with heap. lia.
  - unfold lockRO, obtainRO, ro_loop, ro_enter. simpl.
    destruct (rwAccess s); simpl; autorewrite with heap; lia.
  - autorewrite with heap. lia.
  - destruct (value_of s a) as [[|[|q]|[|[|q]|]]|]; simpl; try done.
    all: autorewrite with heap; lia.
  - destruct (queue (rt s)) as [|k q]; [done|].
    destruct k as [r| |a|r q'| |l r]; simpl; try done.
    + unfold ro_loop, ro_enter. simpl.
      destruct (rwAccess s); simpl; autorewrite with heap; lia.
    + autorewrite with heap. lia.
    + unfold rw_loop. case_decide; simpl; autorewrite with heap; lia.
    + destruct (cells (rt s) !! r) as [[? [|[]]]|]; simpl; autorewrite with heap; lia.
Qed.

Lemma tagged_run_ops_rw ops : ∀ s p t,
  tagged (rt s) p t → tagged (rt (run_ops ops s)) p t.
Proof.
  induction ops as [|o ops IH]; intros s p t H; [done|].
  simpl. by apply IH, tagged_exec_rw.
Qed.

Lemma size_run_ops_rw ops : ∀ s, size (rt s) ≤ size (rt (run_ops ops s)).
Proof.
  induction ops as [|o ops IH]; intros s; [done|].
  simpl. pose proof (size_exec_rw o s). pose proof (IH (exec o s)). lia.
Qed.

Lemma obtainRW_turn s : tagged (rt (obtainRW s).2) (S (size (rt s))) TurnRW.
Proof. simpl. autorewrite with heap. auto. Qed.

(** [obtainRW()] is called by A and later by B, with anything in between
    and after: whenever B's promise is settled, A's is, and the promise
    A's release token resolves is settled too: A was granted the lock and
    has given it back. *)
Lemma obtainRW_fifo s ops ops' :
  reachable s →
  settled (rt (run_ops ops' (obtainRW (run_ops ops (obtainRW s).2)).2))
    (obtainRW (run_ops ops (obtainRW s).2)).1 →
  settled (rt (run_ops ops' (obtainRW (run_ops ops (obtainRW s).2)).2))
    (obtainRW s).1 ∧
  settled (rt (run_ops ops' (obtainRW (run_ops ops (obtainRW s).2)).2))
    (S (obtainRW s).1).
Proof.
  intros Hr. apply reachable_wf_rw in Hr as W.
  change (obtainRW s).1 with (size (rt s)).
  set (s1 := (obtainRW s).2).
  set (s2 := run_ops ops s1).
  change (obtainRW s2).1 with (size (rt s2)).
  set (s3 := (obtainRW s2).2).
  set (s4 := run_ops ops' s3).
  assert (wf s4) as W4.
  { apply wf_run_ops_rw, wf_obtainRW, wf_run_ops_rw, wf_obtainRW, W. }
  apply (fifo_turns_rw s4 (size (rt s)) (size (rt s2)) W4).
  - apply tagged_run_ops_rw, tagged_exec_rw with (o := OObtainRW), tagged_run_ops_rw,
      obtainRW_turn.
  - apply tagged_run_ops_rw, obtainRW_turn.
  - pose proof (size_run_ops_rw ops s1). unfold s2.
    assert (size (rt s1) = S (S (size (rt s)))) as E.
    { unfold s1. simpl. by autorewrite with heap. }
    lia.
Qed.

(** *** A writer and a reader at once *)

(** The acquisition whose promise is [a] holds the lock through the
    promise [p]: [a] was fulfilled with the resolver of [p] and [p] is
    still pending, so the release token has not been called. *)
Definition holds (s : mutexrw) (a p : nat) : Prop :=
  (fulfilled (rt s) a (Fn (Resolver p)) ∨
   fulfilled (rt s) a (Guard (Fn (Resolver p)))) ∧
  pending (rt s) p.

Definition overlap_trace : list op :=
  [OObtainRW; OObtainRW; OTick; ORelease 3; OTick; OTick; OObtainRO].

(** The flag does not stand for a writer that holds the lock.  Two
    calls of [obtainRW] are made before the first is granted; the
    continuation of the second is then registered on the first's promise
    before the callback of line 151 is.  When the first writer gives the
    lock back, the second is granted it and sets [rwAccess], and then
    the callback of the first clears it.  A reader that calls [obtainRO]
    next is admitted while the second writer holds the lock. *)
Lemma reader_admitted_while_writer_holds :
  reachable (run_ops overlap_trace new_mutexrw) ∧
  tagged (rt (run_ops overlap_trace new_mutexrw)) 5 ResultRW ∧
  holds (run_ops overlap_trace new_mutexrw) 5 6 ∧
  tagged (rt (run_ops overlap_trace new_mutexrw)) 7 ResultRO ∧
  holds (run_ops overlap_trace new_mutexrw) 7 8 ∧
  rwAccess (run_ops overlap_trace new_mutexrw) = false ∧
  roAccessCnt (run_ops overlap_trace new_mutexrw) = 1%Z.
Proof.
  split; [by eexists|]. vm_compute.
  repeat split; eauto 10.
Qed.
End MutexRW.

(** ** PromiseBarrier (src/src/utils.ts, lines 90-125) *)

Module PromiseBarrier.

(** The callbacks of the class and the jobs of the host they lead to:
    - [CatchDone t c]: the reaction [promise.catch(() => { return; })]
      registers on the task [t]; [c] is the promise [catch] returned;
    - [FinallyDone t]: the reaction [.finally(() => delete)] registers on
      that promise;
    - [AllElem a]: an element of the [Promise.allSettled] whose promise is
      [a] is settled;
    - [FreeCheck f]: the callback [() => ((this.m_cachedFree = null), this.free)]
      of line 122; [f] is the promise [then] returned;
    - [Adopt f x]: [f] was resolved with the promise [x];
    - [Forward f x]: the reaction registered on [x] that settles [f];
    - [Client n]: a callback of the code that uses the barrier. *)
Inductive job :=
  | CatchDone (t c : nat)
  | FinallyDone (t : nat)
  | AllElem (a : nat)
  | FreeCheck (f : nat)
  | Adopt (f x : nat)
  | Forward (f x : nat)
  | Client (n : nat).

(** [Task]: a promise made by the code that uses the barrier; [Caught]:
    returned by [catch] in [add]; [All]: made by [Promise.allSettled];
    [Free]: returned by [then] in [free]; [Resolved]: the
    [Promise.resolve()] of line 120. *)
Inductive ptag := Task | Caught | All | Free | Resolved.

#[global] Instance job_eq_dec : EqDecision job.
Proof. solve_decision. Defined.
#[global] Instance ptag_eq_dec : EqDecision ptag.
Proof. solve_decision. Defined.

(** The fields of the class, and one bit of the host: [turn] is true
    while code of the user runs (a macrotask or one of its callbacks), and
    false while the host is between jobs. *)
Record barrier := Mk {
  rt : heap job ptag unit;
  m_activePromises : list nat;   (* a Set, in insertion order *)
  m_cachedFree : option nat;
  turn : bool
}.

Definition upd (f : heap job ptag unit → heap job ptag unit) (s : barrier) : barrier :=
  Mk (f (rt s)) (m_activePromises s) (m_cachedFree s) (turn s).
Definition set_turn (b : bool) (s : barrier) : barrier :=
  Mk (rt s) (m_activePromises s) (m_cachedFree s) b.

(** [Set.prototype.add] and [Set.prototype.delete] *)
Definition set_add (p : nat) (l : list nat) : list nat :=
  if decide (p ∈ l) then l else l ++ [p].
Definition set_delete (p : nat) (l : list nat) : list nat :=
  filter (λ x, x ≠ p) l.

(** [new PromiseBarrier()], in a running script. *)
Definition new_barrier : barrier := Mk (Heap [] []) [] None true.

(** [add(promise)] *)
Definition add (p : nat) (s : barrier) : barrier :=
  let c := size (rt s) in
  let h1 := alloc Caught (Pending [] 0) (rt s) in
  let h2 := then_ p (CatchDone p c) h1 in
  let h3 := then_ c (FinallyDone p) h2 in
  Mk h3 (set_add p (m_activePromises s)) (m_cachedFree s) (turn s).

(** [Promise.allSettled] registers on each element of the set, in order. *)
Fixpoint register_all (a : nat) (ts : list nat) (h : heap job ptag unit) :
    heap job ptag unit :=
  match ts with
  | [] => h
  | t :: ts' => register_all a ts' (then_ t (AllElem a) h)
  end.

(** [get free()] *)
Definition free (s : barrier) : nat * barrier :=
  match m_cachedFree s with
  | Some f => (f, s)
  | None =>
      match m_activePromises s with
      | [] => (size (rt s), upd (alloc Resolved (Settled (Ok ()))) s)
      | ts =>
          let a := size (rt s) in
          let h1 := alloc All (Pending [] (length ts)) (rt s) in
          let h2 := register_all a ts h1 in
          let f := size h2 in
          let h3 := alloc Free (Pending [] 0) h2 in
          let h4 := then_ a (FreeCheck f) h3 in
          (f, Mk h4 (m_activePromises s) (Some f) (turn s))
      end
  end.

Definition outcome_of (s : barrier) (x : nat) : option (outcome unit) :=
  match cells (rt s) !! x with
  | Some (Cell _ (Settled o)) => Some o
  | _ => None
  end.

(** One job of the queue. *)
Definition run (k : job) (s : barrier) : barrier :=
  match k with
  | CatchDone t c => upd (settle c (Ok ())) s
  | FinallyDone t =>
      Mk (rt s) (set_delete t (m_activePromises s)) (m_cachedFree s) (turn s)
  | AllElem a => upd (element_done a ()) s
  | FreeCheck f =>
      let '(x, s1) :=
        free (Mk (rt s) (m_activePromises s) None (turn s)) in
      upd (enqueue (Adopt f x)) s1
  | Adopt f x => upd (then_ x (Forward f x)) s
  | Forward f x =>
      match outcome_of s x with
      | Some o => upd (settle f o) s
      | None => s
      end
  | Client n => set_turn true s
  end.

(** Promises the code that uses the barrier can hold. *)
Definition client_tag (tg : ptag) : bool :=
  match tg with
  | Task | Free | Resolved => true
  | Caught | All => false
  end.
Definition visible (s : barrier) (p : nat) : bool :=
  match tag_of (rt s) p with
  | Some tg => client_tag tg
  | None => false
  end.

(** What can happen: while its code runs the user makes a promise,
    settles one it made, adds a promise to the barrier, reads [free],
    registers a callback on a promise or queues a microtask, and
    returns; between jobs the host runs the next job, or starts a
    macrotask when the queue is empty. *)
Inductive op :=
  | CNew
  | CSettle (t : nat) (ok : bool)
  | CAdd (t : nat)
  | CFree
  | CThen (p n : nat)
  | CMicrotask (n : nat)
  | CEnd
  | LTick
  | LMacro.

Definition exec (o : op) (s : barrier) : barrier :=
  match o with
  | CNew => if turn s then upd (alloc Task (Pending [] 0)) s else s
  | CSettle t ok =>
      if turn s && bool_decide (tag_of (rt s) t = Some Task)
      then upd (settle t (if ok then Ok () else Err)) s else s
  | CAdd t => if turn s && visible s t then add t s else s
  | CFree => if turn s then (free s).2 else s
  | CThen p n =>
      if turn s && visible s p then upd (then_ p (Client n)) s else s
  | CMicrotask n => if turn s then upd (enqueue (Client n)) s else s
  | CEnd => set_turn false s
  | LTick =>
      if turn s then s else
      match queue (rt s) with
      | [] => s
      | k :: q => run k (upd (set_queue q) s)
      end
  | LMacro =>
      if turn s then s else
      match queue (rt s) with
      | [] => set_turn true s
      | _ => s
      end
  end.

Definition run_ops (ops : list op) (s : barrier) : barrier :=
  fold_left (λ s o, exec o s) ops s.

Definition reachable (s : barrier) : Prop := ∃ ops, s = run_ops ops new_barrier.

Lemma run_ops_app_barrier ops ops' s :
  run_ops (ops ++ ops') s = run_ops ops' (run_ops ops s).
Proof. unfold run_ops. by rewrite fold_left_app. Qed.

(** *** The store after [register_all] *)

Lemma register_all_size a ts : ∀ h, size (register_all a ts h) = size h.
Proof.
  induction ts as [|t ts IH]; intros h; simpl; [done|].
  rewrite IH. by autorewrite with heap.
Qed.
Lemma register_all_tagged a ts : ∀ h q t,
  tagged (register_all a ts h) q t ↔ tagged h q t.
Proof.
  induction ts as [|t' ts IH]; intros h q t; simpl; [done|].
  rewrite IH. by autorewrite with heap.
Qed.
Lemma register_all_pending a ts : ∀ h q,
  pending (register_all a ts h) q ↔ pending h q.
Proof.
  induction ts as [|t' ts IH]; intros h q; simpl; [done|].
  rewrite IH. by autorewrite with heap.
Qed.
Lemma register_all_settled a ts : ∀ h q,
  settled (register_all a ts h) q ↔ settled h q.
Proof.
  induction ts as [|t' ts IH]; intros h q; simpl; [done|].
  rewrite IH. by autorewrite with heap.
Qed.
Lemma register_all_fulfilled a ts : ∀ h q v,
  fulfilled (register_all a ts h) q v ↔ fulfilled h q v.
Proof.
  induction ts as [|t' ts IH]; intros h q v; simpl; [done|].
  rewrite IH. by autorewrite with heap.
Qed.
Lemma register_all_rejected a ts : ∀ h q,
  rejected (register_all a ts h) q ↔ rejected h q.
Proof.
  induction ts as [|t' ts IH]; intros h q; simpl; [done|].
  rewrite IH. by autorewrite with heap.
Qed.
Lemma register_all_remaining a ts : ∀ h q m,
  remaining (register_all a ts h) q m ↔ remaining h q m.
Proof.
  induction ts as [|t' ts IH]; intros h q m; simpl; [done|].
  rewrite IH. by autorewrite with heap.
Qed.
Lemma register_all_reacts a ts : ∀ h q k,
  reacts (register_all a ts h) q k ↔
    reacts h q k ∨ (k = AllElem a ∧ q ∈ ts ∧ pending h q).
Proof.
  induction ts as [|t' ts IH]; intros h q k; simpl.
  - split; [auto|]. intros [?|(_ & H & _)]; [done|]. by apply elem_of_nil in H.
  - rewrite IH. autorewrite with heap. rewrite elem_of_cons. naive_solver.
Qed.
Lemma register_all_queue a ts : ∀ h k,
  k ∈ queue (register_all a ts h) ↔
    k ∈ queue h ∨ (k = AllElem a ∧ ∃ q, q ∈ ts ∧ settled h q).
Proof.
  induction ts as [|t' ts IH]; intros h k; simpl.
  - split; [auto|]. intros [?|(_ & q & H & _)]; [done|]. by apply elem_of_nil in H.
  - rewrite IH. autorewrite with heap. split.
    + intros [[?|[-> ?]]|(-> & q & Hq & Hs)]; [by left|right|right].
      * split; [done|]. exists t'. split; [apply list_elem_of_here|done].
      * split; [done|]. exists q. autorewrite with heap in Hs.
        split; [by apply list_elem_of_further|done].
    + intros [?|(-> & q & Hq & Hs)]; [by left; left|].
      apply elem_of_cons in Hq as [->|Hq]; [left; right; done|].
      right. split; [done|]. exists q. by autorewrite with heap.
Qed.
Lemma register_all_jobcount P a ts : ∀ h,
  (∀ t, t ∈ ts → t < size h) →
  jobcount P (register_all a ts h) = jobcount P h + length ts * b2n (P (AllElem a)).
Proof.
  induction ts as [|t' ts IH]; intros h Hlt; simpl; [lia|].
  rewrite IH.
  - rewrite jobcount_then by (apply Hlt, list_elem_of_here). lia.
  - intros t Ht. autorewrite with heap. by apply Hlt, list_elem_of_further.
Qed.

#[export] Hint Rewrite register_all_size register_all_tagged
  register_all_pending register_all_settled register_all_fulfilled
  register_all_rejected register_all_remaining register_all_reacts
  register_all_queue : heap.

Lemma elem_of_set_add p q l : q ∈ set_add p l ↔ q ∈ l ∨ q = p.
Proof.
  unfold set_add. case_decide.
  - split; [auto|]. intros [?| ->]; done.
  - by rewrite elem_of_app, list_elem_of_singleton.
Qed.
Lemma elem_of_set_delete p q l : q ∈ set_delete p l ↔ q ∈ l ∧ q ≠ p.
Proof. unfold set_delete. rewrite list_elem_of_filter. naive_solver. Qed.

(** *** Shape of the reachable states *)

(** The jobs that will settle the promise [f] returned by [free]. *)
Definition drives (f : nat) (k : job) : bool :=
  match k with
  | FreeCheck g | Adopt g _ | Forward g _ => bool_decide (g = f)
  | _ => false
  end.
Definition is_catch (c : nat) (k : job) : bool :=
  match k with
  | CatchDone _ d => bool_decide (d = c)
  | _ => false
  end.
Definition is_all (a : nat) (k : job) : bool :=
  match k with
  | AllElem b => bool_decide (b = a)
  | _ => false
  end.

Definition client_promise (s : barrier) (p : nat) : Prop :=
  ∃ tg, tagged (rt s) p tg ∧ client_tag tg = true.

Record wf (s : barrier) : Prop := {
  wf_cached : ∀ f, m_cachedFree s = Some f →
    tagged (rt s) f Free ∧ pending (rt s) f;
  wf_tracked : ∀ t, t ∈ m_activePromises s → client_promise s t;
  wf_resolved : ∀ p, tagged (rt s) p Resolved → settled (rt s) p;
  wf_noerr : ∀ p, rejected (rt s) p → tagged (rt s) p Task;
  wf_catch_r : ∀ x t c, reacts (rt s) x (CatchDone t c) →
    x = t ∧ tagged (rt s) c Caught ∧ client_promise s t;
  wf_catch_q : ∀ t c, CatchDone t c ∈ queue (rt s) →
    settled (rt s) t ∧ tagged (rt s) c Caught ∧ client_promise s t;
  wf_catch_fin_r : ∀ x t c, reacts (rt s) x (CatchDone t c) →
    pending (rt s) c → reacts (rt s) c (FinallyDone t);
  wf_catch_fin_q : ∀ t c, CatchDone t c ∈ queue (rt s) →
    pending (rt s) c → reacts (rt s) c (FinallyDone t);
  wf_catch_pend_r : ∀ x t c, reacts (rt s) x (CatchDone t c) → pending (rt s) c;
  wf_catch_pend_q : ∀ t c, CatchDone t c ∈ queue (rt s) → pending (rt s) c;
  wf_fin_r : ∀ c t, reacts (rt s) c (FinallyDone t) → tagged (rt s) c Caught;
  wf_fin_uniq : ∀ c t t', reacts (rt s) c (FinallyDone t) →
    reacts (rt s) c (FinallyDone t') → t = t';
  wf_fin_q : ∀ t, FinallyDone t ∈ queue (rt s) → settled (rt s) t;
  wf_all_r : ∀ x a, reacts (rt s) x (AllElem a) →
    tagged (rt s) a All ∧ x ∈ m_activePromises s;
  wf_all_q : ∀ a, AllElem a ∈ queue (rt s) → tagged (rt s) a All;
  wf_check_r : ∀ a f, reacts (rt s) a (FreeCheck f) →
    tagged (rt s) a All ∧ tagged (rt s) f Free ∧ pending (rt s) f ∧
    m_cachedFree s = Some f;
  wf_check_q : ∀ f, FreeCheck f ∈ queue (rt s) →
    tagged (rt s) f Free ∧ pending (rt s) f ∧ m_cachedFree s = Some f;
  wf_adopt_r : ∀ y f x, reacts (rt s) y (Adopt f x) → False;
  wf_adopt_q : ∀ f x, Adopt f x ∈ queue (rt s) →
    tagged (rt s) f Free ∧ pending (rt s) f ∧ f < x ∧ x < size (rt s) ∧
    m_cachedFree s ≠ Some f;
  wf_adopt_q_tag : ∀ f x, Adopt f x ∈ queue (rt s) → pending (rt s) x →
    tagged (rt s) x Free;
  wf_adopt_q_ok : ∀ f x, Adopt f x ∈ queue (rt s) → rejected (rt s) x → False;
  wf_fwd_r : ∀ y f x, reacts (rt s) y (Forward f x) →
    y = x ∧ tagged (rt s) x Free ∧ tagged (rt s) f Free ∧ pending (rt s) f ∧
    f < x ∧ m_cachedFree s ≠ Some f;
  wf_fwd_q : ∀ f x, Forward f x ∈ queue (rt s) →
    fulfilled (rt s) x () ∧ tagged (rt s) f Free ∧ pending (rt s) f ∧
    f < x ∧ m_cachedFree s ≠ Some f;
  wf_client_r : ∀ x n, reacts (rt s) x (Client n) → client_promise s x
}.

(** No job that settles [f] is in flight. *)
Definition no_driver (s : barrier) (f : nat) : Prop :=
  ∀ k, inflight (rt s) k → drives f k = false.

(** No job that settles the promise [c] of a [catch] is in flight. *)
Definition no_catch (s : barrier) (c : nat) : Prop :=
  ∀ k, inflight (rt s) k → is_catch c k = false.

Lemma no_catch_q s t c : no_catch s c → CatchDone t c ∈ queue (rt s) → False.
Proof. intros N H. specialize (N _ (or_introl H)). simpl in N. by case_bool_decide. Qed.
Lemma no_catch_r s x t c :
  no_catch s c → reacts (rt s) x (CatchDone t c) → False.
Proof.
  intros N H. specialize (N (CatchDone t c)). simpl in N.
  rewrite bool_decide_eq_true_2 in N by done.
  discriminate N. right. eauto.
Qed.

Lemma no_driver_check_q s f : no_driver s f → FreeCheck f ∈ queue (rt s) → False.
Proof. intros N H. specialize (N _ (or_introl H)). simpl in N. by case_bool_decide. Qed.
Lemma no_driver_check_r s f a :
  no_driver s f → reacts (rt s) a (FreeCheck f) → False.
Proof.
  intros N H. specialize (N (FreeCheck f)). simpl in N.
  rewrite bool_decide_eq_true_2 in N by done.
  discriminate N. right. eauto.
Qed.
Lemma no_driver_adopt_q s f x : no_driver s f → Adopt f x ∈ queue (rt s) → False.
Proof. intros N H. specialize (N _ (or_introl H)). simpl in N. by case_bool_decide. Qed.
Lemma no_driver_fwd_q s f x : no_driver s f → Forward f x ∈ queue (rt s) → False.
Proof. intros N H. specialize (N _ (or_introl H)). simpl in N. by case_bool_decide. Qed.
Lemma no_driver_fwd_r s f x y :
  no_driver s f → reacts (rt s) y (Forward f x) → False.
Proof.
  intros N H. specialize (N (Forward f x)). simpl in N.
  rewrite bool_decide_eq_true_2 in N by done.
  discriminate N. right. eauto.
Qed.

Ltac learn H :=
  let T := type of H in
  match goal with
  | _ : seen T |- _ => fail 1
  | _ => pose proof H; assert (seen T) by exact I
  end.

Ltac break :=
  repeat (simplify_eq; match goal with
  | H : _ ∧ _ |- _ => destruct H
  | H : ∃ _, _ |- _ => destruct H
  | H : client_promise _ _ |- _ => destruct H
  | H : _ ∨ _ |- _ => destruct H
  | H : False |- _ => destruct H
  | H : _ ∈ [] |- _ => apply elem_of_nil in H
  | H : _ ∈ _ ++ _ |- _ => apply elem_of_app in H
  | H : _ ∈ _ :: _ |- _ => apply elem_of_cons in H
  | H : _ ∈ set_add _ _ |- _ => apply elem_of_set_add in H
  | H : _ ∈ set_delete _ _ |- _ => apply elem_of_set_delete in H
  | H : client_tag ?t = true |- _ =>
      first [is_var t; fail 1 | simpl in H; try discriminate H; clear H]
  | H : ?x ≠ ?x |- _ => destruct (H eq_refl)
  end); simplify_eq.

Ltac use_wf :=
  repeat match goal with
  | H : tagged ?h ?p ?t1, H' : tagged ?h ?p ?t2 |- _ =>
      assert_fails (unify t1 t2);
      learn (tagged_inj h p t1 t2 H H')
  | H : pending ?h ?p, H' : settled ?h ?p |- _ =>
      destruct (pending_not_settled h p H H')
  | N : no_catch ?s ?c, H : CatchDone ?t ?c ∈ queue (rt ?s) |- _ =>
      destruct (no_catch_q s t c N H)
  | N : no_catch ?s ?c, H : reacts (rt ?s) ?x (CatchDone ?t ?c) |- _ =>
      destruct (no_catch_r s x t c N H)
  | N : no_driver ?s ?f, H : FreeCheck ?f ∈ queue (rt ?s) |- _ =>
      destruct (no_driver_check_q s f N H)
  | N : no_driver ?s ?f, H : reacts (rt ?s) ?a (FreeCheck ?f) |- _ =>
      destruct (no_driver_check_r s f a N H)
  | N : no_driver ?s ?f, H : Adopt ?f ?x ∈ queue (rt ?s) |- _ =>
      destruct (no_driver_adopt_q s f x N H)
  | N : no_driver ?s ?f, H : Forward ?f ?x ∈ queue (rt ?s) |- _ =>
      destruct (no_driver_fwd_q s f x N H)
  | N : no_driver ?s ?f, H : reacts (rt ?s) ?y (Forward ?f ?x) |- _ =>
      destruct (no_driver_fwd_r s f x y N H)
  | W : wf ?s, H : m_cachedFree ?s = Some ?f |- _ => learn (wf_cached s W f H)
  | W : wf ?s, H : ?t ∈ m_activePromises ?s |- _ => learn (wf_tracked s W t H)
  | W : wf ?s, H : tagged (rt ?s) ?p Resolved |- _ => learn (wf_resolved s W p H)
  | W : wf ?s, H : rejected (rt ?s) ?p |- _ => learn (wf_noerr s W p H)
  | W : wf ?s, H : reacts (rt ?s) ?x (CatchDone ?t ?c) |- _ =>
      learn (wf_catch_r s W x t c H)
  | W : wf ?s, H : CatchDone ?t ?c ∈ queue (rt ?s) |- _ =>
      learn (wf_catch_q s W t c H)
  | W : wf ?s, H : reacts (rt ?s) ?x (CatchDone ?t ?c),
    H' : pending (rt ?s) ?c |- _ => learn (wf_catch_fin_r s W x t c H H')
  | W : wf ?s, H : CatchDone ?t ?c ∈ queue (rt ?s),
    H' : pending (rt ?s) ?c |- _ => learn (wf_catch_fin_q s W t c H H')
  | W : wf ?s, H : reacts (rt ?s) ?x (CatchDone ?t ?c) |- _ =>
      learn (wf_catch_pend_r s W x t c H)
  | W : wf ?s, H : CatchDone ?t ?c ∈ queue (rt ?s) |- _ =>
      learn (wf_catch_pend_q s W t c H)
  | W : wf ?s, H : reacts (rt ?s) ?c (FinallyDone ?t) |- _ =>
      learn (wf_fin_r s W c t H)
  | W : wf ?s, H : reacts (rt ?s) ?c (FinallyDone ?t),
    H' : reacts (rt ?s) ?c (FinallyDone ?t') |- _ =>
      assert_fails (unify t t');
      learn (wf_fin_uniq s W c t t' H H')
  | W : wf ?s, H : FinallyDone ?t ∈ queue (rt ?s) |- _ =>
      learn (wf_fin_q s W t H)
  | W : wf ?s, H : reacts (rt ?s) ?x (AllElem ?a) |- _ =>
      learn (wf_all_r s W x a H)
  | W : wf ?s, H : AllElem ?a ∈ queue (rt ?s) |- _ =>
      learn (wf_all_q s W a H)
  | W : wf ?s, H : reacts (rt ?s) ?a (FreeCheck ?f) |- _ =>
      learn (wf_check_r s W a f H)
  | W : wf ?s, H : FreeCheck ?f ∈ queue (rt ?s) |- _ =>
      learn (wf_check_q s W f H)
  | W : wf ?s, H : reacts (rt ?s) ?y (Adopt ?f ?x) |- _ =>
      destruct (wf_adopt_r s W y f x H)
  | W : wf ?s, H : Adopt ?f ?x ∈ queue (rt ?s) |- _ =>
      learn (wf_adopt_q s W f x H)
  | W : wf ?s, H : Adopt ?f ?x ∈ queue (rt ?s), H' : pending (rt ?s) ?x |- _ =>
      learn (wf_adopt_q_tag s W f x H H')
  | W : wf ?s, H : Adopt ?f ?x ∈ queue (rt ?s), H' : rejected (rt ?s) ?x |- _ =>
      destruct (wf_adopt_q_ok s W f x H H')
  | W : wf ?s, H : reacts (rt ?s) ?y (Forward ?f ?x) |- _ =>
      learn (wf_fwd_r s W y f x H)
  | W : wf ?s, H : Forward ?f ?x ∈ queue (rt ?s) |- _ =>
      learn (wf_fwd_q s W f x H)
  | W : wf ?s, H : reacts (rt ?s) ?x (Client ?n) |- _ =>
      learn (wf_client_r s W x n H)
  | H : tagged ?h ?p _ |- _ => learn (tagged_lt h p _ H)
  | H : pending ?h ?p |- _ => learn (pending_lt h p H)
  | H : settled ?h ?p |- _ => learn (settled_lt h p H)
  | H : fulfilled ?h ?p ?v |- _ => learn (fulfilled_settled h p v H)
  | H : rejected ?h ?p |- _ => learn (rejected_settled h p H)
  | H : reacts ?h ?p ?k |- _ => learn (reacts_pending h p k H)
  | H : remaining ?h ?p ?m |- _ => learn (remaining_pending h p m H)
  end.

Ltac sat := repeat (progress (use_wf; break)).
Ltac finish :=
  rewrite ?elem_of_set_add, ?elem_of_set_delete;
  try lia; try done; try congruence;
  try (unfold client_promise; intuition (eauto; first [lia|congruence]));
  unfold client_promise;
  repeat split; eauto; try lia; try congruence;
  try (intros ?; simplify_eq; sat; first [lia|done]).

Ltac finish_cp :=
  match goal with
  | |- client_promise _ _ =>
      eexists; split; [simpl; autorewrite with heap; eauto 6|done]
  end.

Ltac wf_go :=
  intros; autorewrite with heap in *; break;
  autorewrite with heap in *; break;
  sat; repeat split; first [finish_cp | finish].

Lemma wf_new_barrier : wf new_barrier.
Proof.
  split; unfold new_barrier; simpl; intros.
  all: unfold pending, settled, fulfilled, rejected, tagged, reacts, size in *;
    simpl in *; break; eauto 10.
Qed.

Lemma wf_turn s b : wf s → wf (set_turn b s).
Proof. intros []. by split. Qed.

Lemma wf_new_task s : wf s → wf (upd (alloc Task (Pending [] 0)) s).
Proof. intros W. split; simpl. all: wf_go. Qed.

Lemma wf_settle_task s t o :
  wf s → tagged (rt s) t Task → wf (upd (settle t o) s).
Proof. intros W Ht. split; simpl. all: wf_go. Qed.

Lemma wf_add s t : wf s → client_promise s t → wf (add t s).
Proof. intros W Ht. split; simpl. all: wf_go. Qed.

Lemma wf_then_client s p n :
  wf s → client_promise s p → wf (upd (then_ p (Client n)) s).
Proof. intros W Ht. split; simpl. all: wf_go. Qed.

Lemma wf_microtask s n : wf s → wf (upd (enqueue (Client n)) s).
Proof. intros W. split; simpl. all: wf_go. Qed.

(** The state after the [allSettled] branch of [free]. *)
Definition free_wait (s : barrier) : barrier :=
  let ts := m_activePromises s in
  let a := size (rt s) in
  let h1 := alloc All (Pending [] (length ts)) (rt s) in
  let h2 := register_all a ts h1 in
  let f := size h2 in
  let h3 := alloc Free (Pending [] 0) h2 in
  let h4 := then_ a (FreeCheck f) h3 in
  Mk h4 ts (Some f) (turn s).

Lemma free_unfold s :
  free s =
    match m_cachedFree s with
    | Some f => (f, s)
    | None =>
        match m_activePromises s with
        | [] => (size (rt s), upd (alloc Resolved (Settled (Ok ()))) s)
        | _ => (S (size (rt s)), free_wait s)
        end
    end.
Proof.
  unfold free, free_wait. destruct (m_cachedFree s); [done|].
  destruct (m_activePromises s); [done|].
  rewrite register_all_size. by autorewrite with heap.
Qed.

Lemma wf_free_wait s : wf s → m_cachedFree s = None → wf (free_wait s).
Proof.
  intros W Hc. unfold free_wait. split; simpl. all: rewrite ?Hc. all: wf_go.
Qed.

Lemma wf_new_resolved s : wf s → wf (upd (alloc Resolved (Settled (Ok ()))) s).
Proof. intros W. split; simpl. all: wf_go. Qed.

Lemma wf_free s : wf s → wf (free s).2.
Proof.
  intros W. rewrite free_unfold.
  destruct (m_cachedFree s) as [f|] eqn:Hc; [done|].
  destruct (m_activePromises s) as [|t0 ts] eqn:Ht.
  - by apply wf_new_resolved.
  - by apply wf_free_wait.
Qed.

(** *** One job *)

(** What holds of the job at the head of the queue once it is taken off. *)
Definition job_ok (s : barrier) (k : job) : Prop :=
  match k with
  | CatchDone t c =>
      settled (rt s) t ∧ tagged (rt s) c Caught ∧ pending (rt s) c ∧
      reacts (rt s) c (FinallyDone t) ∧ no_catch s c
  | FinallyDone t => settled (rt s) t
  | AllElem a => tagged (rt s) a All
  | FreeCheck f =>
      tagged (rt s) f Free ∧ pending (rt s) f ∧ m_cachedFree s = Some f ∧
      no_driver s f
  | Adopt f x =>
      tagged (rt s) f Free ∧ pending (rt s) f ∧ f < x ∧ x < size (rt s) ∧
      m_cachedFree s ≠ Some f ∧ (pending (rt s) x → tagged (rt s) x Free) ∧
      ¬ rejected (rt s) x ∧ no_driver s f
  | Forward f x =>
      fulfilled (rt s) x () ∧ tagged (rt s) f Free ∧ pending (rt s) f ∧
      f < x ∧ m_cachedFree s ≠ Some f ∧ no_driver s f
  | Client n => True
  end.

Lemma wf_catch_done s t c :
  wf s → job_ok s (CatchDone t c) → wf (upd (settle c (Ok ())) s).
Proof. intros W (Ht & Hc & Hp & Hr & N). split; simpl. all: wf_go. Qed.

Lemma wf_finally_done s t :
  wf s → job_ok s (FinallyDone t) →
  wf (Mk (rt s) (set_delete t (m_activePromises s)) (m_cachedFree s) (turn s)).
Proof. intros W Ht. simpl in Ht. split; simpl. all: wf_go. Qed.

Lemma wf_element_done_barrier s a :
  wf s → tagged (rt s) a All → wf (upd (element_done a ()) s).
Proof.
  intros W Ha.
  destruct (element_done_cases a () (rt s))
    as [[Hlast E]|(_ & Hq & Hsz & Hobs)].
  - unfold upd. rewrite E. split; simpl. all: wf_go.
  - pose proof (λ q, proj1 (Hobs q)) as Htag.
    pose proof (λ q, proj1 (proj2 (Hobs q))) as Hpend.
    pose proof (λ q, proj1 (proj2 (proj2 (Hobs q)))) as Hset.
    pose proof (λ q, proj1 (proj2 (proj2 (proj2 (Hobs q))))) as Hful.
    pose proof (λ q, proj1 (proj2 (proj2 (proj2 (proj2 (Hobs q)))))) as Hrej.
    pose proof (λ q, proj1 (proj2 (proj2 (proj2 (proj2 (proj2 (Hobs q))))))) as Hrea.
    clear Hobs.
    destruct W. split; unfold client_promise in *; simpl; intros;
      rewrite ?Hq, ?Hsz, ?Htag, ?Hpend, ?Hset, ?Hful, ?Hrej, ?Hrea in *; eauto.
    all: setoid_rewrite Htag; eauto.
Qed.

(** The callback of line 122 starts by clearing the cache. *)
Definition uncache (s : barrier) : barrier :=
  Mk (rt s) (m_activePromises s) None (turn s).

Lemma wf_uncache s f :
  wf s → m_cachedFree s = Some f → no_driver s f → wf (uncache s).
Proof. intros W Hc N. split; simpl. all: wf_go. Qed.

Lemma wf_enqueue_adopt s f x :
  wf s → tagged (rt s) f Free → pending (rt s) f → f < x → x < size (rt s) →
  m_cachedFree s ≠ Some f → (pending (rt s) x → tagged (rt s) x Free) →
  ¬ rejected (rt s) x →
  wf (upd (enqueue (Adopt f x)) s).
Proof. intros W Hf Hp Hlt Hx Hc Hxt Hxr. split; simpl. all: wf_go. Qed.

Lemma wf_free_check s f :
  wf s → job_ok s (FreeCheck f) → wf (run (FreeCheck f) s).
Proof.
  intros W (Hf & Hp & Hc & N). simpl. fold (uncache s).
  pose proof (wf_uncache s f W Hc N) as W0.
  rewrite free_unfold. simpl.
  pose proof (tagged_lt _ _ _ Hf) as Hlt.
  destruct (m_activePromises s) as [|t0 ts] eqn:Ht.
  - apply wf_enqueue_adopt; simpl; autorewrite with heap; auto 6; try lia.
    + apply (wf_new_resolved (uncache s) W0).
    + intros Hx; sat; lia.
    + intros Hx; sat; lia.
  - apply wf_enqueue_adopt.
    + apply wf_free_wait; done.
    + unfold free_wait; simpl; autorewrite with heap; auto 6.
    + unfold free_wait; simpl; autorewrite with heap; auto 6.
    + simpl. lia.
    + unfold free_wait; simpl; autorewrite with heap; lia.
    + unfold free_wait; simpl. intros [= <-].
      autorewrite with heap in Hlt. lia.
    + unfold free_wait; simpl; autorewrite with heap. auto 8.
    + unfold free_wait; simpl; autorewrite with heap.
      intros Hx; sat; lia.
Qed.

Lemma wf_adopt s f x :
  wf s → job_ok s (Adopt f x) → wf (upd (then_ x (Forward f x)) s).
Proof.
  intros W (Hf & Hp & Hlt & Hx & Hc & Hxt & Hxr & N).
  destruct (pending_or_settled (rt s) x Hx) as [Hxp|Hxs].
  - specialize (Hxt Hxp). split; simpl. all: wf_go.
  - assert (fulfilled (rt s) x ()) as Hxf.
    { destruct Hxs as (tg & [[]|] & E); [red; eauto|].
      destruct Hxr. red; eauto. }
    split; simpl. all: wf_go.
Qed.

Lemma outcome_of_fulfilled s x v :
  fulfilled (rt s) x v → outcome_of s x = Some (Ok v).
Proof. intros (tg & E). unfold outcome_of. by rewrite E. Qed.

Lemma wf_forward s f x :
  wf s → job_ok s (Forward f x) → wf (run (Forward f x) s).
Proof.
  intros W (Hx & Hf & Hp & Hlt & Hc & N). simpl.
  rewrite (outcome_of_fulfilled s x () Hx).
  split; simpl. all: wf_go.
Qed.

Lemma wf_run_barrier s k : wf s → job_ok s k → wf (run k s).
Proof.
  intros W Hk. destruct k as [t c|t|a|f|f x|f x|n].
  - by apply (wf_catch_done s t c).
  - by apply wf_finally_done.
  - by apply wf_element_done_barrier.
  - by apply wf_free_check.
  - by apply wf_adopt.
  - by apply wf_forward.
  - by apply wf_turn.
Qed.

(** *** How many jobs are under way *)

(** At most one job is under way for each promise of [free] and of
    [catch]; an unsettled promise of [free] has one; and the counter of
    an [allSettled] is the number of its elements still to come, which is
    not zero. *)
Record cnt (s : barrier) : Prop := {
  cnt_driver_le : ∀ f, jobcount (drives f) (rt s) ≤ 1;
  cnt_catch_le : ∀ c, jobcount (is_catch c) (rt s) ≤ 1;
  cnt_driver : ∀ f, tagged (rt s) f Free → pending (rt s) f →
    0 < jobcount (drives f) (rt s);
  cnt_all : ∀ a m, tagged (rt s) a All → remaining (rt s) a m →
    jobcount (is_all a) (rt s) = m ∧ 0 < m
}.

Lemma drives_fresh s f :
  wf s → size (rt s) ≤ f → jobcount (drives f) (rt s) = 0.
Proof.
  intros W Hf. destruct (jobcount (drives f) (rt s)) eqn:E; [done|exfalso].
  destruct (jobcount_exists (drives f) (rt s)) as (k & Hk & Hd); [lia|].
  destruct k; simpl in Hd; try done; case_bool_decide; try done; subst.
  all: destruct Hk as [Hk|[p Hk]]; sat; lia.
Qed.

Lemma is_catch_fresh s c :
  wf s → size (rt s) ≤ c → jobcount (is_catch c) (rt s) = 0.
Proof.
  intros W Hf. destruct (jobcount (is_catch c) (rt s)) eqn:E; [done|exfalso].
  destruct (jobcount_exists (is_catch c) (rt s)) as (k & Hk & Hd); [lia|].
  destruct k; simpl in Hd; try done; case_bool_decide; try done; subst.
  all: destruct Hk as [Hk|[p Hk]]; sat; lia.
Qed.

Lemma is_all_fresh s a :
  wf s → size (rt s) ≤ a → jobcount (is_all a) (rt s) = 0.
Proof.
  intros W Hf. destruct (jobcount (is_all a) (rt s)) eqn:E; [done|exfalso].
  destruct (jobcount_exists (is_all a) (rt s)) as (k & Hk & Hd); [lia|].
  destruct k; simpl in Hd; try done; case_bool_decide; try done; subst.
  all: destruct Hk as [Hk|[p Hk]]; sat; lia.
Qed.

Ltac side := autorewrite with heap in *; break; sat; lia.

Ltac cnt_rw :=
  repeat first
    [ rewrite jobcount_alloc_empty
    | rewrite jobcount_alloc_settled
    | rewrite jobcount_settle
    | rewrite jobcount_enqueue
    | rewrite jobcount_element_done
    | rewrite register_all_jobcount by (intros; side)
    | rewrite jobcount_then by side ].

Ltac use_cnt :=
  repeat match goal with
  | C : cnt ?s |- context [jobcount (drives ?f) (rt ?s)] =>
      learn (cnt_driver_le s C f)
  | C : cnt ?s |- context [jobcount (is_catch ?c) (rt ?s)] =>
      learn (cnt_catch_le s C c)
  | C : cnt ?s, H : tagged (rt ?s) ?f Free, H' : pending (rt ?s) ?f |- _ =>
      learn (cnt_driver s C f H H')
  | C : cnt ?s, H : tagged (rt ?s) ?a All, H' : remaining (rt ?s) ?a ?m |- _ =>
      learn (cnt_all s C a m H H')
  end.

Ltac fresh_cnt :=
  repeat match goal with
  | W : wf ?s |- context [jobcount (drives ?f) (rt ?s)] =>
      learn (λ H, drives_fresh s f W H)
  | W : wf ?s |- context [jobcount (is_catch ?f) (rt ?s)] =>
      learn (λ H, is_catch_fresh s f W H)
  | W : wf ?s |- context [jobcount (is_all ?f) (rt ?s)] =>
      learn (λ H, is_all_fresh s f W H)
  end.

Ltac cnt_go :=
  intros; cnt_rw; autorewrite with heap in *; break;
  autorewrite with heap in *; break;
  sat; use_cnt; fresh_cnt; break;
  simpl drives in *; simpl is_catch in *; simpl is_all in *; unfold b2n in *;
  repeat case_bool_decide; simplify_eq;
  try lia; try done; try (split; lia).

Lemma cnt_new : cnt new_barrier.
Proof.
  split; unfold new_barrier; simpl; intros.
  all: unfold pending, tagged, remaining, size in *; simpl in *; break;
    try done.
  all: vm_compute; lia.
Qed.

Lemma cnt_turn s b : cnt s → cnt (set_turn b s).
Proof. intros []. by split. Qed.

Lemma cnt_new_task s : wf s → cnt s → cnt (upd (alloc Task (Pending [] 0)) s).
Proof. intros W C. split; simpl. all: cnt_go. Qed.

Lemma cnt_settle_task s t o :
  wf s → cnt s → tagged (rt s) t Task → cnt (upd (settle t o) s).
Proof. intros W C Ht. split; simpl. all: cnt_go. Qed.

Lemma cnt_add s t : wf s → cnt s → client_promise s t → cnt (add t s).
Proof. intros W C Ht. split; simpl. all: cnt_go. Qed.

Lemma cnt_then_client s p n :
  wf s → cnt s → client_promise s p → cnt (upd (then_ p (Client n)) s).
Proof. intros W C Ht. split; simpl. all: cnt_go. Qed.

Lemma cnt_microtask s n : wf s → cnt s → cnt (upd (enqueue (Client n)) s).
Proof. intros W C. split; simpl. all: cnt_go. Qed.

Lemma cnt_new_resolved s :
  wf s → cnt s → cnt (upd (alloc Resolved (Settled (Ok ()))) s).
Proof. intros W C. split; simpl. all: cnt_go. Qed.

Lemma cnt_free_wait s :
  wf s → cnt s → m_cachedFree s = None → m_activePromises s ≠ [] →
  cnt (free_wait s).
Proof.
  intros W C Hc Hne.
  assert (0 < length (m_activePromises s)) as Hlen.
  { destruct (m_activePromises s); [done|simpl; lia]. }
  unfold free_wait. split; simpl. all: cnt_go.
Qed.

Lemma cnt_free s : wf s → cnt s → cnt (free s).2.
Proof.
  intros W C. rewrite free_unfold.
  destruct (m_cachedFree s) as [f|] eqn:Hc; [done|].
  destruct (m_activePromises s) as [|t0 ts] eqn:Ht.
  - by apply cnt_new_resolved.
  - apply cnt_free_wait; [done..|]. by rewrite Ht.
Qed.

Lemma free_none s :
  m_cachedFree s = None → m_activePromises s = [] →
  free s = (size (rt s), upd (alloc Resolved (Settled (Ok ()))) s).
Proof. intros Hc Ht. rewrite free_unfold, Hc, Ht. done. Qed.

Lemma free_some s :
  m_cachedFree s = None → m_activePromises s ≠ [] →
  free s = (S (size (rt s)), free_wait s).
Proof.
  intros Hc Ht. rewrite free_unfold, Hc. by destruct (m_activePromises s).
Qed.

Lemma free_cached s f : m_cachedFree s = Some f → free s = (f, s).
Proof. intros Hc. unfold free. by rewrite Hc. Qed.

(** *** The job at the head of the queue *)

Lemma pop_no_driver s k q f :
  cnt s → queue (rt s) = k :: q → drives f k = true →
  no_driver (upd (set_queue q) s) f.
Proof.
  intros C Hq Hd j Hj. apply (jobcount_zero _ (rt (upd (set_queue q) s))); [|done].
  pose proof (jobcount_pop (drives f) k q (rt s) Hq) as Hpop.
  pose proof (cnt_driver_le s C f). rewrite Hd in Hpop. simpl in *. lia.
Qed.

Lemma pop_no_catch s k q c :
  cnt s → queue (rt s) = k :: q → is_catch c k = true →
  no_catch (upd (set_queue q) s) c.
Proof.
  intros C Hq Hd j Hj. apply (jobcount_zero _ (rt (upd (set_queue q) s))); [|done].
  pose proof (jobcount_pop (is_catch c) k q (rt s) Hq) as Hpop.
  pose proof (cnt_catch_le s C c). rewrite Hd in Hpop. simpl in *. lia.
Qed.

Lemma wf_pop_barrier s k q :
  wf s → cnt s → queue (rt s) = k :: q →
  wf (upd (set_queue q) s) ∧ job_ok (upd (set_queue q) s) k.
Proof.
  intros W C Hq.
  assert (∀ j, j ∈ q → j ∈ queue (rt s)) as Hin.
  { intros j Hj. rewrite Hq. by apply list_elem_of_further. }
  assert (k ∈ queue (rt s)) as Hk by (rewrite Hq; apply list_elem_of_here).
  split.
  - split; simpl; intros; autorewrite with heap in *; break;
      repeat match goal with
      | H : _ ∈ _ |- _ => apply Hin in H
      end.
    all: wf_go.
  - destruct k as [t c|t|a|f|f x|f x|n]; simpl; autorewrite with heap.
    + repeat split; [sat; done..|].
      apply (pop_no_catch s _ q c C Hq). simpl. by case_bool_decide.
    + sat; done.
    + sat; done.
    + repeat split; [sat; done..|].
      apply (pop_no_driver s _ q f C Hq). simpl. by case_bool_decide.
    + repeat split; try (sat; done).
      * intros ?. sat. done.
      * intros ?. sat.
      * apply (pop_no_driver s _ q f C Hq). simpl. by case_bool_decide.
    + repeat split; [sat; done..|].
      apply (pop_no_driver s _ q f C Hq). simpl. by case_bool_decide.
    + done.
Qed.

Ltac pop_cnt Hpop :=
  repeat match goal with
  | |- context [jobcount ?P (set_queue _ _)] => learn (Hpop P)
  end;
  repeat match goal with
  | C : cnt ?s, H : context [jobcount (drives ?f) (rt ?s)] |- _ =>
      learn (cnt_driver_le s C f)
  | C : cnt ?s, H : context [jobcount (is_catch ?c) (rt ?s)] |- _ =>
      learn (cnt_catch_le s C c)
  | W : wf ?s, H : context [jobcount (drives ?f) (rt ?s)] |- _ =>
      learn (λ H, drives_fresh s f W H)
  | W : wf ?s, H : context [jobcount (is_catch ?f) (rt ?s)] |- _ =>
      learn (λ H, is_catch_fresh s f W H)
  | W : wf ?s, H : context [jobcount (is_all ?f) (rt ?s)] |- _ =>
      learn (λ H, is_all_fresh s f W H)
  end.

Ltac step_go Hpop Hin :=
  intros; cnt_rw; autorewrite with heap in *; break;
  autorewrite with heap in *; break;
  repeat match goal with
  | H : _ ∈ _ |- _ => apply Hin in H
  end;
  sat; use_cnt; pop_cnt Hpop; break;
  simpl drives in *; simpl is_catch in *; simpl is_all in *; unfold b2n in *;
  repeat case_bool_decide; simplify_eq;
  try lia; try done; try (split; lia).

Lemma cnt_step s k q :
  wf s → cnt s → queue (rt s) = k :: q → cnt (run k (upd (set_queue q) s)).
Proof.
  intros W C Hq.
  assert (∀ j, j ∈ q → j ∈ queue (rt s)) as Hin.
  { intros j Hj. rewrite Hq. by apply list_elem_of_further. }
  assert (k ∈ queue (rt s)) as Hk by (rewrite Hq; apply list_elem_of_here).
  pose proof (λ P, jobcount_pop P k q (rt s) Hq) as Hpop.
  destruct k as [t c|t|a|f|f x|f x|n].
  - split; simpl. all: step_go Hpop Hin.
  - split; simpl. all: step_go Hpop Hin.
  - simpl.
    destruct (element_done_cases a () (set_queue q (rt s)))
      as [[Hlast E]|(_ & Hq' & Hsz & Hobs)].
    + unfold upd. simpl. rewrite E. split; simpl. all: step_go Hpop Hin.
    + pose proof (λ p, proj1 (Hobs p)) as Htag.
      pose proof (λ p, proj1 (proj2 (Hobs p))) as Hpend.
      pose proof (λ p, proj2 (proj2 (proj2 (proj2 (proj2 (proj2 (Hobs p))))))) as Hrem.
      clear Hobs.
      split; simpl; intros; rewrite ?Htag, ?Hpend, ?Hrem in *.
      all: step_go Hpop Hin.
  - simpl.
    destruct (wf_check_q s W f Hk) as (Hf & Hp & Hc).
    destruct (decide (m_activePromises s = [])) as [Ht|Ht].
    + rewrite free_none by done. simpl.
      split; simpl. all: step_go Hpop Hin.
    + assert (0 < length (m_activePromises s)) as Hlen.
      { destruct (m_activePromises s); [done|simpl; lia]. }
      rewrite free_some by done. unfold free_wait.
      split; simpl. all: step_go Hpop Hin.
  - split; simpl. all: step_go Hpop Hin.
  - simpl. destruct (wf_fwd_q s W f x Hk) as (Hx & _).
    rewrite (outcome_of_fulfilled (upd (set_queue q) s) x ())
      by (simpl; by autorewrite with heap).
    split; simpl. all: step_go Hpop Hin.
  - split; simpl. all: step_go Hpop Hin.
Qed.

(** *** Every reachable state *)

Lemma visible_client s p : visible s p = true → client_promise s p.
Proof.
  unfold visible. destruct (tag_of (rt s) p) as [tg|] eqn:E; [|done].
  intros H. exists tg. split; [by apply tag_of_tagged|done].
Qed.

Lemma inv_exec o s : wf s → cnt s → wf (exec o s) ∧ cnt (exec o s).
Proof.
  intros W C. destruct o as [|t ok|t| |p n|n| | |]; simpl.
  - destruct (turn s); [|done]. split; [by apply wf_new_task|by apply cnt_new_task].
  - destruct (turn s); [|done]. simpl. case_bool_decide as E; [|done].
    apply tag_of_tagged in E.
    split; [by apply wf_settle_task|by apply cnt_settle_task].
  - destruct (turn s); [|done]. simpl.
    destruct (visible s t) eqn:E; [|done]. apply visible_client in E.
    split; [by apply wf_add|by apply cnt_add].
  - destruct (turn s); [|done]. split; [by apply wf_free|by apply cnt_free].
  - destruct (turn s); [|done]. simpl.
    destruct (visible s p) eqn:E; [|done]. apply visible_client in E.
    split; [by apply wf_then_client|by apply cnt_then_client].
  - destruct (turn s); [|done].
    split; [by apply wf_microtask|by apply cnt_microtask].
  - split; [by apply wf_turn|by apply cnt_turn].
  - destruct (turn s); [done|].
    destruct (queue (rt s)) as [|k q] eqn:Hq; [done|].
    destruct (wf_pop_barrier s k q W C Hq). split; [by apply wf_run_barrier|by apply cnt_step].
  - destruct (turn s); [done|].
    destruct (queue (rt s)); [|done].
    split; [by apply wf_turn|by apply cnt_turn].
Qed.

Lemma inv_run_ops ops : ∀ s,
  wf s → cnt s → wf (run_ops ops s) ∧ cnt (run_ops ops s).
Proof.
  induction ops as [|o ops IH]; intros s W C; [done|].
  simpl. destruct (inv_exec o s W C). by apply IH.
Qed.

Lemma wf_exec_barrier o s : wf s → cnt s → wf (exec o s).
Proof. intros W C. by destruct (inv_exec o s W C). Qed.

Lemma reachable_wf_barrier s : reachable s → wf s.
Proof. intros [ops ->]. apply inv_run_ops; [apply wf_new_barrier|apply cnt_new]. Qed.

Lemma reachable_cnt s : reachable s → cnt s.
Proof. intros [ops ->]. apply inv_run_ops; [apply wf_new_barrier|apply cnt_new]. Qed.

(** *** Removal of a tracked task *)

(** The removal of [t] from the set is under way: the reaction of line
    103 is registered on [t], or it is queued, or the callback of line
    106 is queued. *)
Definition removal (s : barrier) (t : nat) : Prop :=
  (∃ c, reacts (rt s) t (CatchDone t c)) ∨
  (∃ c, CatchDone t c ∈ queue (rt s)) ∨
  FinallyDone t ∈ queue (rt s).

Definition removals (s : barrier) : Prop :=
  ∀ t, t ∈ m_activePromises s → removal s t.

Ltac rm_close :=
  simpl; autorewrite with heap;
  rewrite ?elem_of_app, ?elem_of_cons;
  solve [eauto 8 | intuition (eauto 8; congruence)].

Ltac rm_solve :=
  unfold removal;
  match goal with
  | H : reacts _ ?t (CatchDone ?t ?c) |- _ ∨ _ =>
      first [left; exists c; rm_close | right; left; exists c; rm_close]
  | H : CatchDone ?t ?c ∈ _ |- _ ∨ _ => right; left; exists c; rm_close
  | H : FinallyDone ?t ∈ _ |- _ ∨ _ => right; right; rm_close
  end.

Ltac rm_go R :=
  let t := fresh "t" in let Ht := fresh "Ht" in
  intros t Ht; simpl in Ht; autorewrite with heap in Ht;
  rewrite ?elem_of_set_add, ?elem_of_set_delete in Ht; break;
  try match goal with
  | H : t ∈ m_activePromises _ |- _ =>
      destruct (R t H) as [[? ?]|[[? ?]|?]]
  end.

Lemma removals_new : removals new_barrier.
Proof. intros t Ht. by apply elem_of_nil in Ht. Qed.

Lemma removals_turn s b : removals s → removals (set_turn b s).
Proof. done. Qed.

Lemma removals_new_task s :
  wf s → removals s → removals (upd (alloc Task (Pending [] 0)) s).
Proof. intros W R. rm_go R. all: sat; rm_solve. Qed.

Lemma removals_settle s p o :
  wf s → removals s → removals (upd (settle p o) s).
Proof.
  intros W R. rm_go R.
  - destruct (decide (t = p)) as [->|]; [right; left|left]; eexists; rm_close.
  - rm_solve.
  - rm_solve.
Qed.

Lemma removals_then s p k :
  wf s → removals s → p < size (rt s) → removals (upd (then_ p k) s).
Proof. intros W R Hp. rm_go R. all: sat; rm_solve. Qed.

Lemma removals_enqueue s k :
  wf s → removals s → removals (upd (enqueue k) s).
Proof. intros W R. rm_go R. all: sat; rm_solve. Qed.

Lemma removals_add s t0 :
  wf s → removals s → client_promise s t0 → removals (add t0 s).
Proof.
  intros W R Ht0. rm_go R.
  1-3: sat; rm_solve.
  match goal with H : tagged _ t0 _ |- _ => pose proof (tagged_lt _ _ _ H) as Hlt end.
  destruct (pending_or_settled (rt s) t0 Hlt).
  - left. exists (size (rt s)). rm_close.
  - right; left. exists (size (rt s)). rm_close.
Qed.

Lemma removals_new_resolved s :
  wf s → removals s → removals (upd (alloc Resolved (Settled (Ok ()))) s).
Proof. intros W R. rm_go R. all: sat; rm_solve. Qed.

Lemma removals_cached s c :
  removals s → removals (Mk (rt s) (m_activePromises s) c (turn s)).
Proof. done. Qed.

Lemma removals_free_wait s : wf s → removals s → removals (free_wait s).
Proof. intros W R. unfold free_wait. rm_go R. all: sat; rm_solve. Qed.

Lemma removals_free s : wf s → removals s → removals (free s).2.
Proof.
  intros W R. rewrite free_unfold.
  destruct (m_cachedFree s) as [f|] eqn:Hc; [done|].
  destruct (m_activePromises s) as [|t0 ts] eqn:Ht.
  - by apply removals_new_resolved.
  - by apply removals_free_wait.
Qed.

Lemma removals_pop s k q t :
  removals s → queue (rt s) = k :: q → t ∈ m_activePromises s →
  (∃ c, reacts (rt s) t (CatchDone t c)) ∨
  (∃ c, k = CatchDone t c) ∨ (∃ c, CatchDone t c ∈ q) ∨
  k = FinallyDone t ∨ FinallyDone t ∈ q.
Proof.
  intros R Hq Ht. destruct (R t Ht) as [?|[[c Hc]|Hf]]; [by left|..].
  - rewrite Hq in Hc. apply elem_of_cons in Hc as [<-|?]; eauto 6.
  - rewrite Hq in Hf. apply elem_of_cons in Hf as [<-|?]; eauto 6.
Qed.

Ltac rm_case :=
  unfold removal; simpl; autorewrite with heap;
  rewrite ?elem_of_app, ?elem_of_cons;
  first
    [ solve [eauto 8]
    | match goal with
      | H : reacts _ ?t (CatchDone ?t ?c) |- _ =>
          left; exists c; autorewrite with heap;
          solve [eauto 8 | intuition (eauto 8; congruence)]
      end
    | match goal with
      | H : CatchDone ?t ?c ∈ _ |- _ =>
          right; left; exists c; autorewrite with heap;
          rewrite ?elem_of_app, ?elem_of_cons;
          solve [eauto 8 | intuition (eauto 8; congruence)]
      end
    | right; right; autorewrite with heap; rewrite ?elem_of_app, ?elem_of_cons;
      solve [eauto 8 | intuition (eauto 8; congruence)] ].

Lemma run_free_check s f :
  run (FreeCheck f) s =
    upd (enqueue (Adopt f (free (uncache s)).1)) (free (uncache s)).2.
Proof. simpl. unfold uncache. by destruct (free _). Qed.

Lemma removals_pop_other s k q :
  removals s → queue (rt s) = k :: q →
  match k with CatchDone _ _ | FinallyDone _ => False | _ => True end →
  removals (upd (set_queue q) s).
Proof.
  intros R Hq Hk t Ht. simpl in Ht.
  destruct (removals_pop s _ q t R Hq Ht) as [(c'&Hr)|[(c'&E)|[(c'&Hc)|[E|Hf]]]];
    simplify_eq; try done; rm_case.
Qed.

Lemma removals_element_done s a :
  wf s → removals s → removals (upd (element_done a ()) s).
Proof.
  intros W R.
  destruct (element_done_cases a () (rt s))
    as [[Hlast E]|(_ & Hq & Hsz & Hobs)].
  - unfold upd. rewrite E. by apply (removals_settle s a (Ok ())).
  - pose proof (λ q, proj1 (proj2 (proj2 (proj2 (proj2 (proj2 (Hobs q))))))) as Hrea.
    intros t Ht. unfold removal. simpl. rewrite Hq. setoid_rewrite Hrea.
    by apply R.
Qed.

Lemma removals_step s k q :
  wf s → cnt s → removals s → queue (rt s) = k :: q →
  removals (run k (upd (set_queue q) s)).
Proof.
  intros W C R Hq. destruct (wf_pop_barrier s k q W C Hq) as [W' Hk].
  assert (k ∈ queue (rt s)) as Hin by (rewrite Hq; apply list_elem_of_here).
  intros t Ht.
  destruct k as [t0 c|t0|a|f|f x|f x|n]; simpl in Ht.
  - destruct (removals_pop s _ q t R Hq Ht) as [(c'&Hr)|[(c'&E)|[(c'&Hc)|[E|Hf]]]];
      simplify_eq.
    + assert (t ≠ c) by (intros ->; sat). rm_case.
    + pose proof (wf_catch_pend_q s W _ _ Hin) as Hp.
      pose proof (wf_catch_fin_q s W _ _ Hin Hp). rm_case.
    + rm_case.
    + rm_case.
  - apply elem_of_set_delete in Ht as [Ht Hne].
    destruct (removals_pop s _ q t R Hq Ht) as [(c'&Hr)|[(c'&E)|[(c'&Hc)|[E|Hf]]]];
      simplify_eq; rm_case.
  - apply removals_element_done; [done| |done].
    by apply (removals_pop_other s _ q R Hq).
  - simpl in Hk. destruct Hk as (Hf & Hp & Hc & N).
    pose proof (removals_pop_other s _ q R Hq I) as R'.
    revert t Ht. change (removals (run (FreeCheck f) (upd (set_queue q) s))).
    rewrite run_free_check.
    pose proof (wf_uncache _ f W' Hc N) as W0.
    apply removals_enqueue; [by apply wf_free|by apply removals_free].
  - simpl in Hk. destruct Hk as (Hf & Hp & Hlt & Hx & _).
    apply (removals_then (upd (set_queue q) s)); [done| |done|done].
    by apply (removals_pop_other s _ q R Hq).
  - revert t Ht. change (removals (run (Forward f x) (upd (set_queue q) s))).
    simpl. destruct (outcome_of _ x).
    + apply removals_settle; [done|]. by apply (removals_pop_other s _ q R Hq).
    + by apply (removals_pop_other s _ q R Hq).
  - destruct (removals_pop s _ q t R Hq Ht) as [(c'&Hr)|[(c'&E)|[(c'&Hc)|[E|Hf]]]];
      simplify_eq; rm_case.
Qed.

Lemma removals_exec o s : wf s → cnt s → removals s → removals (exec o s).
Proof.
  intros W C R. destruct o as [|t ok|t| |p n|n| | |]; simpl.
  - destruct (turn s); [|done]. by apply removals_new_task.
  - destruct (turn s); [|done]. simpl. case_bool_decide; [|done].
    by apply removals_settle.
  - destruct (turn s); [|done]. simpl.
    destruct (visible s t) eqn:E; [|done]. apply visible_client in E.
    by apply removals_add.
  - destruct (turn s); [|done]. by apply removals_free.
  - destruct (turn s); [|done]. simpl.
    destruct (visible s p) eqn:E; [|done].
    apply visible_client in E as (tg & Htg & _).
    apply removals_then; [done..|]. by eapply tagged_lt.
  - destruct (turn s); [|done]. by apply removals_enqueue.
  - done.
  - destruct (turn s); [done|].
    destruct (queue (rt s)) as [|k q] eqn:Hq; [done|].
    by apply removals_step.
  - destruct (turn s); [done|]. by destruct (queue (rt s)).
Qed.

Lemma removals_run_ops ops : ∀ s,
  wf s → cnt s → removals s → removals (run_ops ops s).
Proof.
  induction ops as [|o ops IH]; intros s W C R; [done|].
  simpl. destruct (inv_exec o s W C). apply IH; [done..|].
  by apply removals_exec.
Qed.

Lemma reachable_removals s : reachable s → removals s.
Proof.
  intros [ops ->].
  apply removals_run_ops; [apply wf_new_barrier|apply cnt_new|apply removals_new].
Qed.

(** *** What a wait waits for *)

(** A settled promise stays settled. *)
Lemma settled_free s p : settled (rt s) p → settled (rt (free s).2) p.
Proof.
  intros H. rewrite free_unfold.
  destruct (m_cachedFree s); [done|].
  destruct (m_activePromises s); simpl; [|unfold free_wait; simpl];
    autorewrite with heap; auto.
Qed.

Lemma settled_run k s p : settled (rt s) p → settled (rt (run k s)) p.
Proof.
  intros H. destruct k as [t c|t|a|f|f x|f x|n]; try rewrite run_free_check;
    simpl; autorewrite with heap; auto.
  - destruct (element_done_cases a () (rt s))
      as [[Hlast E]|(_ & Hq & Hsz & Hobs)].
    + rewrite E. autorewrite with heap. auto.
    + by apply Hobs.
  - by apply (settled_free (uncache s)).
  - destruct (outcome_of s x); simpl; autorewrite with heap; auto.
Qed.

Lemma settled_exec o s p : settled (rt s) p → settled (rt (exec o s)) p.
Proof.
  intros H. destruct o as [|t ok|t| |p' n|n| | |]; simpl.
  - destruct (turn s); simpl; autorewrite with heap; auto.
  - destruct (turn s); simpl; [|done].
    case_bool_decide; simpl; autorewrite with heap; auto.
  - destruct (turn s); simpl; [|done].
    destruct (visible s t); simpl; autorewrite with heap; auto.
  - destruct (turn s); [|done]. by apply settled_free.
  - destruct (turn s); simpl; [|done].
    destruct (visible s p'); simpl; autorewrite with heap; auto.
  - destruct (turn s); simpl; autorewrite with heap; auto.
  - done.
  - destruct (turn s); [done|].
    destruct (queue (rt s)) as [|k q]; [done|].
    apply settled_run. simpl. by autorewrite with heap.
  - destruct (turn s); [done|]. by destruct (queue (rt s)).
Qed.

Lemma settled_run_ops ops : ∀ s p,
  settled (rt s) p → settled (rt (run_ops ops s)) p.
Proof.
  induction ops as [|o ops IH]; intros s p H; [done|].
  simpl. by apply IH, settled_exec.
Qed.

(** A set of promises of [free] none of which can be settled: each is
    pending, no job that settles it is queued, and the promise it
    follows or is about to follow is in the set too.  A promise whose
    callback of line 122 has not run yet can be in the set. *)
Definition blocked (s : barrier) (Q : nat → Prop) : Prop :=
  ∀ f, Q f →
    pending (rt s) f ∧ tagged (rt s) f Free ∧
    (∀ x, Adopt f x ∈ queue (rt s) → Q x) ∧
    (∀ x, Forward f x ∈ queue (rt s) → False) ∧
    (∀ y x, reacts (rt s) y (Forward f x) → Q x).

Ltac use_bl :=
  repeat match goal with
  | B : blocked ?s ?S, H : ?S ?d |- _ => learn (B d H)
  | H : ∀ x, Adopt ?d x ∈ queue ?h → _, H' : Adopt ?d ?x ∈ queue ?h |- _ =>
      learn (H x H')
  | H : ∀ y x, reacts ?h y (Forward ?d x) → _,
    H' : reacts ?h ?y (Forward ?d ?x) |- _ =>
      learn (H y x H')
  | H : ∀ x, Forward ?d x ∈ queue ?h → False, H' : Forward ?d ?x ∈ queue ?h |- _ =>
      destruct (H x H')
  | H : ?S ?d → False, H' : ?S ?d |- _ => destruct (H H')
  | H : ?S ?d → ?S ?x, H' : ?S ?d |- _ => learn (H H')
  end.

Ltac bl_go :=
  intros; autorewrite with heap in *; break;
  autorewrite with heap in *; break;
  repeat match goal with
  | Hin : ∀ j, j ∈ ?q → j ∈ _, H : _ ∈ ?q |- _ => apply Hin in H
  end;
  repeat (progress (use_wf; use_bl; break));
  try lia; try done; try congruence; try (intuition (eauto; lia));
  repeat split; eauto; try lia;
  try (intros ?; simplify_eq; repeat (progress (use_wf; use_bl; break));
       first [done|eauto; lia]).

Ltac bl_start :=
  let d := fresh "d" in let Hd := fresh "Hd" in
  intros d Hd; repeat split; simpl.

Lemma blocked_turn s Q b : blocked s Q → blocked (set_turn b s) Q.
Proof. done. Qed.

Lemma blocked_cached s Q c :
  blocked s Q → blocked (Mk (rt s) (m_activePromises s) c (turn s)) Q.
Proof. done. Qed.

Lemma blocked_tracked s Q l :
  blocked s Q → blocked (Mk (rt s) l (m_cachedFree s) (turn s)) Q.
Proof. done. Qed.

Lemma blocked_new_task s Q :
  wf s → blocked s Q → blocked (upd (alloc Task (Pending [] 0)) s) Q.
Proof. intros W B. bl_start. all: bl_go. Qed.

Lemma blocked_settle_task s Q t o :
  wf s → tagged (rt s) t Task → blocked s Q → blocked (upd (settle t o) s) Q.
Proof. intros W Ht B. bl_start. all: bl_go. Qed.

Lemma blocked_add s Q t :
  wf s → client_promise s t → blocked s Q → blocked (add t s) Q.
Proof. intros W Ht B. bl_start. all: bl_go. Qed.

Lemma blocked_then_client s Q p n :
  wf s → client_promise s p → blocked s Q →
  blocked (upd (then_ p (Client n)) s) Q.
Proof. intros W Ht B. bl_start. all: bl_go. Qed.

Lemma blocked_microtask s Q n :
  wf s → blocked s Q → blocked (upd (enqueue (Client n)) s) Q.
Proof. intros W B. bl_start. all: bl_go. Qed.

Lemma blocked_new_resolved s Q :
  wf s → blocked s Q → blocked (upd (alloc Resolved (Settled (Ok ()))) s) Q.
Proof. intros W B. bl_start. all: bl_go. Qed.

Lemma blocked_free_wait s Q :
  wf s → blocked s Q →
  blocked (free_wait s) (λ f, Q f ∨ f = S (size (rt s))).
Proof.
  intros W B. unfold free_wait. intros f [Hf| ->]; repeat split; simpl.
  all: bl_go.
Qed.

Lemma blocked_pop s Q k q :
  wf s → blocked s Q → queue (rt s) = k :: q →
  blocked (upd (set_queue q) s) Q ∧
  match k with
  | Adopt f x => Q f → Q x
  | Forward f x => Q f → False
  | _ => True
  end.
Proof.
  intros W B Hq.
  assert (∀ j, j ∈ q → j ∈ queue (rt s)) as Hin.
  { intros j Hj. rewrite Hq. by apply list_elem_of_further. }
  assert (k ∈ queue (rt s)) as Hk by (rewrite Hq; apply list_elem_of_here).
  split.
  - bl_start. all: bl_go.
  - destruct k; try done; intros; use_bl; break; eauto.
Qed.

Lemma blocked_element_done s Q a :
  wf s → tagged (rt s) a All → blocked s Q →
  blocked (upd (element_done a ()) s) Q.
Proof.
  intros W Ha B.
  destruct (element_done_cases a () (rt s))
    as [[Hlast E]|(_ & Hq & Hsz & Hobs)].
  - unfold upd. rewrite E. bl_start. all: bl_go.
  - pose proof (λ q, proj1 (Hobs q)) as Htag.
    pose proof (λ q, proj1 (proj2 (Hobs q))) as Hpend.
    pose proof (λ q, proj1 (proj2 (proj2 (proj2 (proj2 (proj2 (Hobs q))))))) as Hrea.
    intros f Hf. simpl. rewrite Hq, Hpend, Htag. setoid_rewrite Hrea.
    by apply B.
Qed.

Lemma blocked_enqueue_adopt s (Q : nat → Prop) f x :
  wf s → (Q f → Q x) → blocked s Q → blocked (upd (enqueue (Adopt f x)) s) Q.
Proof. intros W HQ B. bl_start. all: bl_go. Qed.

Lemma blocked_run s Q k :
  wf s → m_activePromises s ≠ [] → job_ok s k → blocked s Q →
  match k with
  | Adopt f x => Q f → Q x
  | Forward f x => Q f → False
  | _ => True
  end →
  ∃ Q' : nat → Prop, (∀ f, Q f → Q' f) ∧ blocked (run k s) Q'.
Proof.
  intros W Hne Hk B HQ.
  destruct k as [t c|t|a|f|f x|f x|n]; try rewrite run_free_check; simpl in *.
  - exists Q. split; [auto|]. destruct Hk as (?&?&?&?&?). bl_start. all: bl_go.
  - exists Q. split; [auto|]. by apply blocked_tracked.
  - exists Q. split; [auto|]. by apply blocked_element_done.
  - destruct Hk as (Hf & Hp & Hc & N).
    pose proof (wf_uncache s f W Hc N) as W0.
    rewrite free_some by done. simpl.
    exists (λ g, Q g ∨ g = S (size (rt s))). split; [auto|].
    apply blocked_enqueue_adopt; [|by right|].
    + apply wf_free_wait; done.
    + by apply (blocked_free_wait (uncache s)).
  - exists Q. split; [auto|]. destruct Hk as (?&?&?&?&?&?&?&?).
    bl_start. all: bl_go.
  - exists Q. split; [auto|]. destruct Hk as (Hx&?&?&?&?&?).
    rewrite (outcome_of_fulfilled s x () Hx).
    bl_start. all: bl_go.
  - exists Q. split; [auto|]. done.
Qed.

Lemma free_tracked s : m_activePromises (free s).2 = m_activePromises s.
Proof.
  rewrite free_unfold. destruct (m_cachedFree s); [done|].
  destruct (m_activePromises s) eqn:E; simpl; by rewrite ?E.
Qed.

Lemma size_free s : size (rt s) ≤ size (rt (free s).2).
Proof.
  rewrite free_unfold. destruct (m_cachedFree s); [done|].
  destruct (m_activePromises s); simpl; [|unfold free_wait; simpl];
    autorewrite with heap; lia.
Qed.

Lemma size_run k s : size (rt s) ≤ size (rt (run k s)).
Proof.
  destruct k as [t c|t|a|f|f x|f x|n]; try rewrite run_free_check;
    simpl; autorewrite with heap; try lia.
  - apply (size_free (uncache s)).
  - destruct (outcome_of s x); simpl; autorewrite with heap; lia.
Qed.

Lemma size_exec_barrier o s : size (rt s) ≤ size (rt (exec o s)).
Proof.
  destruct o as [|t ok|t| |p' n|n| | |]; simpl.
  - destruct (turn s); simpl; autorewrite with heap; lia.
  - destruct (turn s); simpl; [|done].
    case_bool_decide; simpl; autorewrite with heap; lia.
  - destruct (turn s); simpl; [|done].
    destruct (visible s t); simpl; autorewrite with heap; lia.
  - destruct (turn s); [|done]. by apply size_free.
  - destruct (turn s); simpl; [|done].
    destruct (visible s p'); simpl; autorewrite with heap; lia.
  - destruct (turn s); simpl; autorewrite with heap; lia.
  - done.
  - destruct (turn s); [done|].
    destruct (queue (rt s)) as [|k q]; [done|].
    etrans; [|apply size_run]. simpl. autorewrite with heap. lia.
  - destruct (turn s); [done|]. by destruct (queue (rt s)).
Qed.

(** A task that is tracked and unsettled stays tracked. *)
Lemma tracked_exec o s t :
  wf s → cnt s → pending (rt s) t → t ∈ m_activePromises s →
  t ∈ m_activePromises (exec o s).
Proof.
  intros W C Hp Ht. destruct o as [|t' ok|t'| |p' n|n| | |]; simpl.
  - by destruct (turn s).
  - destruct (turn s); simpl; [|done]. by case_bool_decide.
  - destruct (turn s); simpl; [|done].
    destruct (visible s t'); simpl; [|done].
    apply elem_of_set_add. auto.
  - destruct (turn s); [|done]. by rewrite free_tracked.
  - destruct (turn s); simpl; [|done]. by destruct (visible s p').
  - by destruct (turn s).
  - done.
  - destruct (turn s); [done|].
    destruct (queue (rt s)) as [|k q] eqn:Hq; [done|].
    destruct (wf_pop_barrier s k q W C Hq) as [W' Hk].
    destruct k as [t0 c|t0|a|f|f x|f x|n]; try rewrite run_free_check;
      simpl; try done.
    + apply elem_of_set_delete. split; [done|]. intros ->.
      simpl in Hk. autorewrite with heap in Hk.
      by destruct (pending_not_settled _ _ Hp Hk).
    + by rewrite (free_tracked (uncache _)).
    + by destruct (outcome_of _ x).
  - destruct (turn s); [done|]. by destruct (queue (rt s)).
Qed.

Lemma blocked_free s Q :
  wf s → blocked s Q →
  ∃ Q' : nat → Prop, (∀ f, Q f → Q' f) ∧ blocked (free s).2 Q'.
Proof.
  intros W B. rewrite free_unfold.
  destruct (m_cachedFree s); [by exists Q|].
  destruct (m_activePromises s).
  - exists Q. split; [auto|]. by apply blocked_new_resolved.
  - exists (λ g, Q g ∨ g = S (size (rt s))). split; [auto|].
    by apply blocked_free_wait.
Qed.

Lemma blocked_exec o s Q :
  wf s → cnt s → m_activePromises s ≠ [] → blocked s Q →
  ∃ Q' : nat → Prop, (∀ f, Q f → Q' f) ∧ blocked (exec o s) Q'.
Proof.
  intros W C Hne B. destruct o as [|t' ok|t'| |p' n|n| | |]; simpl.
  - exists Q. split; [auto|]. destruct (turn s); [|done].
    by apply blocked_new_task.
  - exists Q. split; [auto|]. destruct (turn s); simpl; [|done].
    case_bool_decide as E; [|done]. apply tag_of_tagged in E.
    by apply blocked_settle_task.
  - exists Q. split; [auto|]. destruct (turn s); simpl; [|done].
    destruct (visible s t') eqn:E; [|done]. apply visible_client in E.
    by apply blocked_add.
  - destruct (turn s); [|by exists Q]. by apply blocked_free.
  - exists Q. split; [auto|]. destruct (turn s); simpl; [|done].
    destruct (visible s p') eqn:E; [|done]. apply visible_client in E.
    by apply blocked_then_client.
  - exists Q. split; [auto|]. destruct (turn s); [|done].
    by apply blocked_microtask.
  - by exists Q.
  - destruct (turn s); [by exists Q|].
    destruct (queue (rt s)) as [|k q] eqn:Hq; [by exists Q|].
    destruct (wf_pop_barrier s k q W C Hq) as [W' Hk].
    destruct (blocked_pop s Q k q W B Hq) as [B' HQ].
    by apply (blocked_run _ Q k W').
  - exists Q. split; [auto|]. destruct (turn s); [done|].
    by destruct (queue (rt s)).
Qed.

(** While the task [t] is tracked and unsettled, no promise of the set
    is settled. *)
Lemma blocked_run_ops ops : ∀ s (Q : nat → Prop) t f,
  wf s → cnt s → t ∈ m_activePromises s → blocked s Q → Q f →
  settled (rt (run_ops ops s)) f → settled (rt (run_ops ops s)) t.
Proof.
  induction ops as [|o ops IH]; intros s Q t f W C Ht B Hf Hs; simpl in *.
  { destruct (B f Hf) as (Hp & _). by destruct (pending_not_settled _ _ Hp Hs). }
  destruct (inv_exec o s W C) as [W' C'].
  assert (t < size (rt s)) as Hlt.
  { destruct (wf_tracked s W t Ht) as (tg & Htg & _). by eapply tagged_lt. }
  destruct (pending_or_settled (rt s) t Hlt) as [Hp|Hst].
  2:{ by apply settled_run_ops, settled_exec. }
  assert (m_activePromises s ≠ []) as Hne.
  { intros E. rewrite E in Ht. by apply elem_of_nil in Ht. }
  destruct (blocked_exec o s Q W C Hne B) as (Q' & Hsub & B').
  apply (IH (exec o s) Q' t f); auto.
  by apply tracked_exec.
Qed.

(** With no job left to run, a promise of [free] is unsettled only if a
    tracked task is. *)
Lemma quiescent_free_pending s f :
  wf s → cnt s → queue (rt s) = [] →
  tagged (rt s) f Free → pending (rt s) f →
  ∃ t, t ∈ m_activePromises s ∧ pending (rt s) t.
Proof.
  intros W C Hq.
  assert (∀ n f, size (rt s) - f ≤ n → tagged (rt s) f Free →
            pending (rt s) f →
            ∃ t, t ∈ m_activePromises s ∧ pending (rt s) t) as Hind.
  { clear f. induction n as [|n IH]; intros f Hn Ht Hp.
    { apply tagged_lt in Ht. lia. }
    destruct (jobcount_exists _ _ (cnt_driver s C f Ht Hp)) as (k & Hk & Hd).
    destruct (inflight_quiescent _ _ Hq Hk) as (p & Hr).
    destruct k as [| | |f'|f' x|f' x|]; simpl in Hd; try done;
      case_bool_decide; try done; subst f'.
    - destruct (wf_check_r s W p f Hr) as (Ha & _).
      destruct (pending_remaining _ _ (reacts_pending _ _ _ Hr)) as (m & Hm).
      destruct (cnt_all s C p m Ha Hm) as [Hcnt Hpos].
      destruct (jobcount_exists (is_all p) (rt s)) as (k & Hk' & Hd'); [lia|].
      destruct (inflight_quiescent _ _ Hq Hk') as (t & Hr').
      destruct k; simpl in Hd'; try done. case_bool_decide; try done; subst.
      exists t. split; [by apply (wf_all_r s W t p)|by eapply reacts_pending].
    - destruct (wf_adopt_r s W p f x Hr).
    - destruct (wf_fwd_r s W p f x Hr) as (-> & Hx & _ & _ & Hlt & _).
      apply (IH x); [lia|done|by eapply reacts_pending]. }
  intros Ht Hp. by apply (Hind (size (rt s)) f); [lia|..].
Qed.

(** The promise [free] has cached is not settled before a task that is
    tracked. *)
Lemma cached_waits s f t ops :
  wf s → cnt s → m_cachedFree s = Some f → t ∈ m_activePromises s →
  settled (rt (run_ops ops s)) f → settled (rt (run_ops ops s)) t.
Proof.
  intros W C Hc Ht.
  apply (blocked_run_ops ops s (λ g, g = f)); try done.
  intros g ->. destruct (wf_cached s W f Hc) as [Hf Hp].
  repeat split; try done.
  - intros x Hx. by destruct (wf_adopt_q s W f x Hx) as (_&_&_&_&?).
  - intros x Hx. by destruct (wf_fwd_q s W f x Hx) as (_&_&_&_&?).
  - intros y x Hx. by destruct (wf_fwd_r s W y f x Hx) as (_&_&_&_&_&?).
Qed.

Definition c5_trace : list op :=
  [CNew; CAdd 0; CThen 0 1; CFree; CSettle 0 true; CEnd;
   LTick; LTick; CMicrotask 2; CEnd; LTick; LTick; LTick].

(** C5, as stated, fails in its first part: a task is tracked and
    [free] read, the task is fulfilled, and a callback of the user runs
    after the task was removed from the set and before the callback of
    line 122.  No task is tracked then, and [free] returns the cached
    promise, which is unsettled. *)
Lemma free_pending_without_tracked :
  reachable (run_ops c5_trace new_barrier) ∧
  turn (run_ops c5_trace new_barrier) = true ∧
  m_activePromises (run_ops c5_trace new_barrier) = [] ∧
  pending (rt (free (run_ops c5_trace new_barrier)).2)
    (free (run_ops c5_trace new_barrier)).1.
Proof.
  split; [by eexists|]. split; [by vm_compute|]. split; [by vm_compute|].
  vm_compute. eauto.
Qed.

(** C5, amended: (1) read while no task is tracked and no earlier wait
    is cached, [free] returns a promise that is already fulfilled;
    (2) read while tasks are tracked, [free] caches the promise it
    returns, and that promise is not settled before every task tracked
    at the read is settled, whatever happens next and whether the tasks
    are fulfilled or rejected; (3) a task added while a promise of [free]
    is the cached one is waited for as well: the promise is not settled
    before the task is; (4) when no job is left to run, a promise of
    [free] is unsettled only if some tracked task is unsettled, and a
    promise of [free] is never rejected. *)
Theorem free_waits_for_tracked s :
  reachable s →
  (m_cachedFree s = None → m_activePromises s = [] →
   fulfilled (rt (free s).2) (free s).1 ()) ∧
  (m_activePromises s ≠ [] →
   m_cachedFree (free s).2 = Some (free s).1 ∧
   ∀ t ops, t ∈ m_activePromises s →
     settled (rt (run_ops ops (free s).2)) (free s).1 →
     settled (rt (run_ops ops (free s).2)) t) ∧
  (∀ f t ops, m_cachedFree s = Some f → visible s t = true →
     m_cachedFree (add t s) = Some f ∧
     (settled (rt (run_ops ops (add t s))) f →
      settled (rt (run_ops ops (add t s))) t)) ∧
  (queue (rt s) = [] → ∀ f, tagged (rt s) f Free → pending (rt s) f →
     ∃ t, t ∈ m_activePromises s ∧ pending (rt s) t) ∧
  (∀ f, tagged (rt s) f Free → ¬ rejected (rt s) f).
Proof.
  intros Hr. pose proof (reachable_wf_barrier s Hr) as W.
  pose proof (reachable_cnt s Hr) as C.
  split; [|split; [|split; [|split]]].
  - intros Hc Ht. rewrite free_none by done. simpl.
    autorewrite with heap. right. split; [done|]. eauto.
  - intros Hne.
    assert (m_cachedFree (free s).2 = Some (free s).1) as Hc.
    { destruct (m_cachedFree s) as [f|] eqn:Hc.
      - rewrite (free_cached s f) by done. done.
      - rewrite free_some by done. unfold free_wait. simpl.
        by autorewrite with heap. }
    split; [done|]. intros t ops Ht.
    apply cached_waits; [by apply wf_free|by apply cnt_free|done|].
    by rewrite free_tracked.
  - intros f t ops Hc Hv. split; [done|].
    apply visible_client in Hv.
    apply cached_waits; [by apply wf_add|by apply cnt_add|done|].
    simpl. apply elem_of_set_add. auto.
  - intros Hq f. by apply quiescent_free_pending.
  - intros f Hf Hrej. pose proof (wf_noerr s W f Hrej) as Ht.
    pose proof (tagged_inj _ _ _ _ Hf Ht). done.
Qed.

Lemma free_waits_for_tracked_witness :
  ∃ t, t ∈ m_activePromises
             (run_ops [CNew; CNew; CAdd 0; CAdd 1; CFree; CSettle 0 false; CEnd;
                       LTick; LTick; LTick; LTick; LTick]
                new_barrier) ∧
       pending
         (rt (run_ops [CNew; CNew; CAdd 0; CAdd 1; CFree; CSettle 0 false; CEnd;
                       LTick; LTick; LTick; LTick; LTick]
                new_barrier)) t.
Proof.
  apply (proj1 (proj2 (proj2 (proj2
           (free_waits_for_tracked
              (run_ops [CNew; CNew; CAdd 0; CAdd 1; CFree; CSettle 0 false; CEnd;
                        LTick; LTick; LTick; LTick; LTick]
                 new_barrier)
              (ex_intro _ _ eq_refl))))) eq_refl 5).
  - vm_compute. eauto.
  - vm_compute. eauto.
Defined.

Lemma free_result_tag s :
  wf s →
  tagged (rt (free s).2) (free s).1 Free ∨
  tagged (rt (free s).2) (free s).1 Resolved.
Proof.
  intros W. destruct (m_cachedFree s) as [f|] eqn:Hc.
  - rewrite (free_cached s f) by done. left. by apply (wf_cached s W f).
  - destruct (decide (m_activePromises s = [])).
    + rewrite free_none by done. right. simpl. autorewrite with heap. auto.
    + rewrite free_some by done. left. unfold free_wait. simpl.
      autorewrite with heap. auto.
Qed.

(** C8: a tracked task that is settled, fulfilled or rejected alike, has
    its removal under way: the reaction of [catch] is queued, or the
    callback of [finally] that deletes it is; the first leads to the
    second, and the second takes the task out of the set; so with no
    job left to run every tracked task is unsettled.  The rejection goes
    no further: the only promises ever rejected are the tasks
    themselves, [free] does not return a rejected promise, and [add]
    rejects nothing. *)
Theorem tracked_rejection_swallowed s :
  reachable s →
  (∀ t, t ∈ m_activePromises s → settled (rt s) t →
     (∃ c, CatchDone t c ∈ queue (rt s)) ∨ FinallyDone t ∈ queue (rt s)) ∧
  (∀ t c q, queue (rt s) = CatchDone t c :: q → turn s = false →
     FinallyDone t ∈ queue (rt (exec LTick s))) ∧
  (∀ t q, queue (rt s) = FinallyDone t :: q → turn s = false →
     t ∉ m_activePromises (exec LTick s)) ∧
  (queue (rt s) = [] → ∀ t, t ∈ m_activePromises s → pending (rt s) t) ∧
  (∀ p, rejected (rt s) p → tagged (rt s) p Task) ∧
  ¬ rejected (rt (free s).2) (free s).1 ∧
  (∀ t p, rejected (rt (add t s)) p → rejected (rt s) p).
Proof.
  intros Hr. pose proof (reachable_wf_barrier s Hr) as W.
  pose proof (reachable_cnt s Hr) as C.
  pose proof (reachable_removals s Hr) as R.
  split; [|split; [|split; [|split; [|split; [|split]]]]].
  - intros t Ht Hs. destruct (R t Ht) as [[c Hc]|?]; [|done].
    destruct (pending_not_settled _ _ (reacts_pending _ _ _ Hc) Hs).
  - intros t c q Hq Hturn. simpl. rewrite Hturn, Hq. simpl.
    assert (CatchDone t c ∈ queue (rt s)) as Hin
      by (rewrite Hq; apply list_elem_of_here).
    pose proof (wf_catch_pend_q s W t c Hin) as Hp.
    pose proof (wf_catch_fin_q s W t c Hin Hp).
    autorewrite with heap. auto.
  - intros t q Hq Hturn. simpl. rewrite Hturn, Hq. simpl.
    rewrite elem_of_set_delete. intros [_ ?]. done.
  - intros Hq t Ht. destruct (R t Ht) as [[c Hc]|[[c Hc]|Hf]].
    + by eapply reacts_pending.
    + rewrite Hq in Hc. by apply elem_of_nil in Hc.
    + rewrite Hq in Hf. by apply elem_of_nil in Hf.
  - apply (wf_noerr s W).
  - intros Hrej. pose proof (wf_noerr _ (wf_free s W) _ Hrej) as Ht.
    destruct (free_result_tag s W) as [H|H];
      pose proof (tagged_inj _ _ _ _ H Ht); done.
  - intros t p. simpl. autorewrite with heap. by intros [?|[_ ?]].
Qed.

Lemma tracked_rejection_swallowed_witness :
  (∃ c, CatchDone 0 c ∈
          queue (rt (run_ops [CNew; CAdd 0; CFree; CSettle 0 false; CEnd]
                       new_barrier))) ∨
  FinallyDone 0 ∈
    queue (rt (run_ops [CNew; CAdd 0; CFree; CSettle 0 false; CEnd] new_barrier)).
Proof.
  apply (proj1 (tracked_rejection_swallowed
                  (run_ops [CNew; CAdd 0; CFree; CSettle 0 false; CEnd] new_barrier)
                  (ex_intro _ _ eq_refl)) 0).
  - vm_compute. apply list_elem_of_here.
  - vm_compute. eauto.
Defined.

(** *** The cache and the set *)

Lemma free_caches s :
  wf s → m_activePromises s ≠ [] → m_cachedFree (free s).2 = Some (free s).1.
Proof.
  intros W Hne. destruct (m_cachedFree s) as [f|] eqn:Hc.
  - rewrite (free_cached s f) by done. done.
  - rewrite free_some by done. unfold free_wait. simpl.
    by autorewrite with heap.
Qed.

(** While tasks are tracked, a second read of [free] returns the promise
    of the first and changes nothing; without tracked tasks and without
    a cached wait, each read makes a new fulfilled promise. *)
Theorem free_read_twice s :
  reachable s →
  (m_activePromises s ≠ [] →
   free (free s).2 = ((free s).1, (free s).2)) ∧
  (m_activePromises s = [] → m_cachedFree s = None →
   (free (free s).2).1 = S (free s).1 ∧
   m_cachedFree (free s).2 = None).
Proof.
  intros Hr. pose proof (reachable_wf_barrier s Hr) as W. split.
  - intros Hne. apply free_cached. by apply free_caches.
  - intros He Hc. rewrite (free_none s) by done. simpl.
    rewrite free_none by done. simpl. by autorewrite with heap.
Qed.

Lemma free_read_twice_witness :
  free (free (run_ops [CNew; CAdd 0] new_barrier)).2 =
    ((free (run_ops [CNew; CAdd 0] new_barrier)).1,
     (free (run_ops [CNew; CAdd 0] new_barrier)).2).
Proof.
  apply (proj1 (free_read_twice (run_ops [CNew; CAdd 0] new_barrier)
                  (ex_intro _ _ eq_refl))).
  by vm_compute.
Defined.






End PromiseBarrier.

(** ** The order of grants *)

(** C3: [obtain()] of a [Mutex], or [obtainRW()] of a [MutexRW], is called
    by A and later by B, with any calls, releases and jobs in between and
    after.  In every state from then on, if the promise of B's call is
    settled then so is the promise of A's call, and so is the promise A's
    release token resolves: B is granted the lock only after A was granted
    it and gave it back. *)
Theorem grants_follow_call_order :
  (∀ s ops ops',
     Mutex.reachable s →
     let a := Mutex.obtain false s in
     let b := Mutex.obtain false (Mutex.run_ops ops a.2) in
     settled (Mutex.rt (Mutex.run_ops ops' b.2)) b.1 →
     settled (Mutex.rt (Mutex.run_ops ops' b.2)) a.1 ∧
     settled (Mutex.rt (Mutex.run_ops ops' b.2)) (S a.1)) ∧
  (∀ s ops ops',
     MutexRW.reachable s →
     let a := MutexRW.obtainRW s in
     let b := MutexRW.obtainRW (MutexRW.run_ops ops a.2) in
     settled (MutexRW.rt (MutexRW.run_ops ops' b.2)) b.1 →
     settled (MutexRW.rt (MutexRW.run_ops ops' b.2)) a.1 ∧
     settled (MutexRW.rt (MutexRW.run_ops ops' b.2)) (S a.1)).
Proof.
  split.
  - intros s ops ops' Hr a b. by apply Mutex.obtain_fifo.
  - intros s ops ops' Hr a b. by apply MutexRW.obtainRW_fifo.
Qed.

Lemma grants_follow_call_order_witness :
  settled
    (Mutex.rt
       (Mutex.run_ops
          [Mutex.OTick; Mutex.ORelease 1; Mutex.OTick; Mutex.ORelease 3;
           Mutex.OTick]
          (Mutex.obtain false
             (Mutex.run_ops [Mutex.OObtain false]
                (Mutex.obtain false Mutex.new_mutex).2)).2)) 1 ∧
  settled
    (MutexRW.rt
       (MutexRW.run_ops
          [MutexRW.OTick; MutexRW.OTick; MutexRW.ORelease 5; MutexRW.OTick;
           MutexRW.OTick; MutexRW.OTick; MutexRW.ORelease 3; MutexRW.OTick]
          (MutexRW.obtainRW
             (MutexRW.run_ops [MutexRW.OObtainRO]
                (MutexRW.obtainRW MutexRW.new_mutexrw).2)).2)) 3.
Proof.
  split.
  - apply (proj1 grants_follow_call_order Mutex.new_mutex [Mutex.OObtain false]
             [Mutex.OTick; Mutex.ORelease 1; Mutex.OTick; Mutex.ORelease 3;
              Mutex.OTick]).
    + by exists [].
    + vm_compute. eauto.
  - apply (proj2 grants_follow_call_order MutexRW.new_mutexrw [MutexRW.OObtainRO]
             [MutexRW.OTick; MutexRW.OTick; MutexRW.ORelease 5; MutexRW.OTick;
              MutexRW.OTick; MutexRW.OTick; MutexRW.ORelease 3; MutexRW.OTick]).
    + by exists [].
    + vm_compute. eauto.
Defined.
